(** * Read path of the block-based table reader
    (src/yb/rocksdb/table/block_based_table_reader.cc)

    A shallow embedding of the reader: cache keys, cachable entries, filter
    discovery at open time, index-reader creation, filter lookup, the
    data-block iterator factory, the prefix probe, the filter-aware seek,
    point lookup and range prefetch.  Stateful code is written in a small
    state-and-failure monad over a [World] holding both block caches, the log
    of reads issued to files, the statistics tickers and the log of heap
    objects deleted. *)

From Stdlib Require Import ZArith List Lia Bool String Ascii.
From stdpp Require Import base option list gmap.
Import ListNotations.
Open Scope Z_scope.

(** ** Slices, statuses, block handles *)

(** A [Slice] is a byte string; every byte is a [Z] in the range 0..255. *)
Definition Slice := list Z.
Definition uint64_max : Z := 2 ^ 64 - 1.

Definition in_uint64 (v : Z) : Prop := 0 <= v < 2 ^ 64.

Inductive Status :=
| kOk | kNotFound | kCorruption | kInvalidArgument | kIncomplete | kIOError.

Definition ok (s : Status) : bool :=
  match s with kOk => true | _ => false end.
Definition IsIncomplete (s : Status) : bool :=
  match s with kIncomplete => true | _ => false end.

Fixpoint starts_with (s p : Slice) : bool :=
  match p, s with
  | [], _ => true
  | b :: p', c :: s' => (b =? c) && starts_with s' p'
  | _ :: _, [] => false
  end.

Record BlockHandle := mkHandle { offset : Z; size : Z }.

(** Modelled from the spec: [BlockHandle::IsNull] of format.h (not under
    src/); the null handle is the stub with offset 0 and size 0 that
    [GetFixedSizeFilterBlockHandle] writes. *)
Definition IsNull (h : BlockHandle) : bool := (offset h =? 0) && (size h =? 0).

(** Modelled from the spec: a default-constructed [BlockHandle] of format.h
    (not under src/), as a [Rep] holds in [filter_handle] until a filter
    block is found: both fields at the largest 64-bit value. *)
Definition BlockHandle_default : BlockHandle :=
  mkHandle 18446744073709551615 18446744073709551615.

(** ** Varints (coding.h is not under src/) *)

Definition kMaxVarint64Length : Z := 10.
Definition kMaxCacheKeyPrefixSize : Z := kMaxVarint64Length * 3 + 1.

(** Modelled from the spec: [EncodeVarint64] of coding.h, the varint the spec
    names for cache keys: seven payload bits per byte, least significant
    group first, bit 7 set on every byte but the last.  The loop
    [while (v >= 128)] runs at most nine times on a 64-bit value; [fuel]
    bounds it. *)
Fixpoint EncodeVarint64_loop (fuel : nat) (v : Z) : list Z :=
  match fuel with
  | O => [v]
  | S fuel' =>
      if 128 <=? v
      then Z.lor (Z.land v 127) 128 :: EncodeVarint64_loop fuel' (Z.shiftr v 7)
      else [v]
  end.

Definition EncodeVarint64 (v : Z) : list Z := EncodeVarint64_loop 9 v.

(** Modelled from the spec: [GetVarint64] of coding.h; [None] when the input
    ends inside a varint or the varint is longer than ten bytes. *)
Fixpoint GetVarint64_loop (shift : Z) (result : Z) (p : Slice) : option (Z * Slice) :=
  match p with
  | [] => None
  | byte :: p' =>
      if 63 <? shift then None
      else if Z.testbit byte 7
      then GetVarint64_loop (shift + 7)
             (Z.lor result (Z.land (Z.shiftl (Z.land byte 127) shift) uint64_max)) p'
      else Some (Z.lor result (Z.land (Z.shiftl byte shift) uint64_max), p')
  end.

Definition GetVarint64 (p : Slice) : option (Z * Slice) := GetVarint64_loop 0 0 p.

(** Modelled from the spec: the block-handle codec of format.h, two varints. *)
Definition EncodeTo (h : BlockHandle) : Slice :=
  EncodeVarint64 (offset h) ++ EncodeVarint64 (size h).

Definition DecodeFrom (input : Slice) : Status * BlockHandle :=
  match GetVarint64 input with
  | Some (o, rest) =>
      match GetVarint64 rest with
      | Some (s, _) => (kOk, mkHandle o s)
      | None => (kCorruption, mkHandle 0 0)
      end
  | None => (kCorruption, mkHandle 0 0)
  end.

(** ** Internal keys (dbformat.h is not under src/) *)

Definition kMaxSequenceNumber : Z := 2 ^ 56 - 1.
Definition kTypeValue : Z := 1.

Fixpoint EncodeFixed (n : nat) (v : Z) : list Z :=
  match n with
  | O => []
  | S n' => Z.land v 255 :: EncodeFixed n' (Z.shiftr v 8)
  end.

(** Modelled from the spec: an internal key is the user key followed by an
    eight-byte suffix packing sequence number and value type. *)
Definition InternalKey_Encode (user_key : Slice) (seq : Z) (t : Z) : Slice :=
  user_key ++ EncodeFixed 8 (Z.lor (Z.shiftl seq 8) t).

Definition ExtractUserKey (internal_key : Slice) : Slice :=
  take (length internal_key - 8)%nat internal_key.

Record ParsedInternalKey := mkParsed { pk_user_key : Slice; pk_trailer : Slice }.

Definition ParseInternalKey (internal_key : Slice) : option ParsedInternalKey :=
  if (length internal_key <? 8)%nat then None
  else Some (mkParsed (ExtractUserKey internal_key)
                      (drop (length internal_key - 8)%nat internal_key)).

(** ** Comparators and slice transforms *)

Definition Comparator := Slice -> Slice -> Z.

Fixpoint BytewiseCompare (a b : Slice) : Z :=
  match a, b with
  | [], [] => 0
  | [], _ :: _ => -1
  | _ :: _, [] => 1
  | x :: a', y :: b' =>
      if x <? y then -1 else if y <? x then 1 else BytewiseCompare a' b'
  end.

Record SliceTransform := mkTransform {
  Transform : Slice -> Slice;
  InDomain : Slice -> bool
}.

(** ** Blocks and block iterators (block.h is not under src/) *)

Inductive CompressionType := kNoCompression | kSnappyCompression.

Definition is_compressed (c : CompressionType) : bool :=
  match c with kNoCompression => false | _ => true end.

(** Modelled from the spec: a block is an ordered sequence of (key, value)
    entries wrapping block contents that carry a compression tag.  A block
    whose tag is not [kNoCompression] holds the raw bytes of the same entries;
    [well_compressed] says whether they decompress. *)
Record Block := mkBlock {
  entries : list (Slice * Slice);
  compression_type : CompressionType;
  cachable : bool;
  well_compressed : bool
}.

Definition usable_size (b : Block) : nat := length (entries b).

Definition UncompressBlockContents (raw : Block) : Status * Block :=
  if well_compressed raw
  then (kOk, mkBlock (entries raw) kNoCompression true true)
  else (kCorruption, raw).

(** Position of the first entry whose key is not below [target]: what the
    binary search over restart points followed by the linear scan finds in a
    block sorted by [cmp]. *)
Fixpoint BinarySeek (cmp : Comparator) (es : list (Slice * Slice)) (target : Slice) : nat :=
  match es with
  | [] => O
  | e :: es' => if cmp (fst e) target <? 0 then S (BinarySeek cmp es' target) else O
  end.

(** ** Filter readers *)

Inductive FilterType := kNoFilter | kFullFilter | kBlockBasedFilter | kFixedSizeFilter.

Definition FilterType_eqb (a b : FilterType) : bool :=
  match a, b with
  | kNoFilter, kNoFilter | kFullFilter, kFullFilter
  | kBlockBasedFilter, kBlockBasedFilter | kFixedSizeFilter, kFixedSizeFilter => true
  | _, _ => false
  end.

(** The interface [FilterBlockReader]: the two probes take the data-block
    offset, which defaults to [kNotValid]. *)
Module FilterBlockReader.
Record t := mk {
  KeyMayMatch : Slice -> Z -> bool;
  PrefixMayMatch : Slice -> Z -> bool;
  ApproximateMemoryUsage : nat
}.
End FilterBlockReader.

Definition kNotValid : Z := uint64_max.

Definition NotMatchingFilterBlockReader : FilterBlockReader.t :=
  {| FilterBlockReader.KeyMayMatch := fun _ _ => false;
     FilterBlockReader.PrefixMayMatch := fun _ _ => false;
     FilterBlockReader.ApproximateMemoryUsage := 0 |}.

(** ** Index readers *)

Inductive IndexKind := BinarySearchIndex | HashIndex.

(** [BinarySearchIndexReader] and [HashIndexReader]: both wrap the index
    block; the hash reader may own an auxiliary prefix map ([hash_seek]), set
    by [SetBlockHashIndex] or [SetBlockPrefixIndex], that replaces the binary
    search when the seek is not a total-order seek. *)
Record IndexReader := mkIndexReader {
  ir_kind : IndexKind;
  ir_comparator : Comparator;
  index_block : Block;
  hash_seek : option (Slice -> nat)
}.

(** ** Caches *)

Inductive CacheValue :=
| CVBlock (b : Block)
| CVFilter (f : FilterBlockReader.t)
| CVIndex (r : IndexReader).

Record Handle := mkCacheHandle { h_key : Slice; h_value : CacheValue }.

(** Modelled from the spec: the cache adapter of section 4.3 (cache.h is not
    under src/).  [accepts] is the cache's admission decision for an insert,
    [last_id] the counter behind [NewId], [released] the log of [Release]
    calls. *)
Record Cache := mkCache {
  table : gmap (list Z) CacheValue;
  accepts : Slice -> bool;
  last_id : Z;
  released : list Handle
}.

Inductive CachePtr := BlockCache | BlockCacheCompressed.

Inductive Tickers :=
| BLOCK_CACHE_INDEX_MISS | BLOCK_CACHE_INDEX_HIT
| BLOCK_CACHE_FILTER_MISS | BLOCK_CACHE_FILTER_HIT
| BLOCK_CACHE_DATA_MISS | BLOCK_CACHE_DATA_HIT
| BLOCK_CACHE_COMPRESSED_MISS | BLOCK_CACHE_COMPRESSED_HIT
| BLOCK_CACHE_COMPRESSED_ADD | BLOCK_CACHE_COMPRESSED_ADD_FAILURES
| BLOOM_FILTER_CHECKED | BLOOM_FILTER_USEFUL
| BLOOM_FILTER_PREFIX_CHECKED | BLOOM_FILTER_PREFIX_USEFUL.

Definition Tickers_eqb (a b : Tickers) : bool :=
  match a, b with
  | BLOCK_CACHE_INDEX_MISS, BLOCK_CACHE_INDEX_MISS
  | BLOCK_CACHE_INDEX_HIT, BLOCK_CACHE_INDEX_HIT
  | BLOCK_CACHE_FILTER_MISS, BLOCK_CACHE_FILTER_MISS
  | BLOCK_CACHE_FILTER_HIT, BLOCK_CACHE_FILTER_HIT
  | BLOCK_CACHE_DATA_MISS, BLOCK_CACHE_DATA_MISS
  | BLOCK_CACHE_DATA_HIT, BLOCK_CACHE_DATA_HIT
  | BLOCK_CACHE_COMPRESSED_MISS, BLOCK_CACHE_COMPRESSED_MISS
  | BLOCK_CACHE_COMPRESSED_HIT, BLOCK_CACHE_COMPRESSED_HIT
  | BLOCK_CACHE_COMPRESSED_ADD, BLOCK_CACHE_COMPRESSED_ADD
  | BLOCK_CACHE_COMPRESSED_ADD_FAILURES, BLOCK_CACHE_COMPRESSED_ADD_FAILURES
  | BLOOM_FILTER_CHECKED, BLOOM_FILTER_CHECKED
  | BLOOM_FILTER_USEFUL, BLOOM_FILTER_USEFUL
  | BLOOM_FILTER_PREFIX_CHECKED, BLOOM_FILTER_PREFIX_CHECKED
  | BLOOM_FILTER_PREFIX_USEFUL, BLOOM_FILTER_PREFIX_USEFUL => true
  | _, _ => false
  end.

(** Heap objects the reader frees with [delete]. *)
Inductive HeapObject :=
| OBlock (b : Block)
| OFilter (f : FilterBlockReader.t)
| OIndex (r : IndexReader).

Definition heap_of (v : CacheValue) : HeapObject :=
  match v with
  | CVBlock b => OBlock b
  | CVFilter f => OFilter f
  | CVIndex r => OIndex r
  end.

(** ** The world and the monad *)

Record World := mkWorld {
  block_cache_state : Cache;
  block_cache_compressed_state : Cache;
  file_reads : list (nat * BlockHandle);
  ticks : list Tickers;
  deleted : list HeapObject;
  (* data blocks asked of the iterator factory, with the status it answered *)
  opened : list (Slice * Status);
  (* inserts a cache refused: the cache, the key and the value *)
  failed_inserts : list (CachePtr * Slice * CacheValue)
}.

(** A computation either goes wrong ([None]: a null pointer is dereferenced or
    an assertion of the source fails) or returns a value and a new world. *)
Definition M (A : Type) : Type := World -> option (A * World).

Definition ret {A} (a : A) : M A := fun w => Some (a, w).
Definition bind {A B} (m : M A) (k : A -> M B) : M B :=
  fun w => match m w with
           | Some (a, w') => k a w'
           | None => None
           end.
Definition undefined {A} : M A := fun _ => None.

Declare Scope m_scope.
Delimit Scope m_scope with m.
Notation "x <- c ;; k" := (bind c (fun x => k))
  (at level 100, c at next level, right associativity) : m_scope.
Notation "c ;;; k" := (bind c (fun _ => k))
  (at level 100, right associativity) : m_scope.
Open Scope m_scope.

Definition cache_of (c : CachePtr) (w : World) : Cache :=
  match c with
  | BlockCache => block_cache_state w
  | BlockCacheCompressed => block_cache_compressed_state w
  end.

Definition set_cache (c : CachePtr) (s : Cache) (w : World) : World :=
  match c with
  | BlockCache =>
      mkWorld s (block_cache_compressed_state w) (file_reads w) (ticks w) (deleted w)
              (opened w) (failed_inserts w)
  | BlockCacheCompressed =>
      mkWorld (block_cache_state w) s (file_reads w) (ticks w) (deleted w) (opened w)
              (failed_inserts w)
  end.

Definition RecordTick (t : Tickers) : M unit :=
  fun w => Some (tt, mkWorld (block_cache_state w) (block_cache_compressed_state w)
                             (file_reads w) (t :: ticks w) (deleted w) (opened w)
                             (failed_inserts w)).

Definition tick_count (t : Tickers) (w : World) : nat :=
  length (List.filter (Tickers_eqb t) (ticks w)).

Definition delete_ (o : HeapObject) : M unit :=
  fun w => Some (tt, mkWorld (block_cache_state w) (block_cache_compressed_state w)
                             (file_reads w) (ticks w) (o :: deleted w) (opened w)
                             (failed_inserts w)).

Definition log_read (file : nat) (h : BlockHandle) : M unit :=
  fun w => Some (tt, mkWorld (block_cache_state w) (block_cache_compressed_state w)
                             ((file, h) :: file_reads w) (ticks w) (deleted w) (opened w)
                             (failed_inserts w)).

Definition log_open (index_value : Slice) (s : Status) : M unit :=
  fun w => Some (tt, mkWorld (block_cache_state w) (block_cache_compressed_state w)
                             (file_reads w) (ticks w) (deleted w)
                             ((index_value, s) :: opened w) (failed_inserts w)).

Definition log_failed_insert (c : CachePtr) (k : Slice) (v : CacheValue) (w : World) : World :=
  mkWorld (block_cache_state w) (block_cache_compressed_state w)
          (file_reads w) (ticks w) (deleted w) (opened w)
          ((c, k, v) :: failed_inserts w).

(** [Cache::Lookup], [Cache::Insert], [Cache::Release], [Cache::NewId]. *)
Definition Lookup (c : CachePtr) (key : Slice) : M (option Handle) :=
  fun w => Some (match table (cache_of c w) !! key with
                 | Some v => Some (mkCacheHandle key v)
                 | None => None
                 end, w).

Definition Insert (c : CachePtr) (key : Slice) (v : CacheValue)
  : M (Status * option Handle) :=
  fun w =>
    let s := cache_of c w in
    if accepts s key
    then Some ((kOk, Some (mkCacheHandle key v)),
               set_cache c (mkCache (<[key := v]> (table s)) (accepts s)
                                    (last_id s) (released s)) w)
    else Some ((kIncomplete, None), log_failed_insert c key v w).

Definition Cache_Release (c : CachePtr) (h : Handle) : M unit :=
  fun w =>
    let s := cache_of c w in
    Some (tt, set_cache c (mkCache (table s) (accepts s) (last_id s) (h :: released s)) w).

Definition NewId (c : CachePtr) : M Z :=
  fun w =>
    let s := cache_of c w in
    Some (last_id s + 1,
          set_cache c (mkCache (table s) (accepts s) (last_id s + 1) (released s)) w).

(** ** Files *)

(** A filter block as stored: the outcome of reading it, the size of its data
    and the probes the reader built over it answers, given the filter shape, the
    prefix extractor handed to the reader and the whole-key flag. *)
Record FilterContents := mkFilterContents {
  fc_status : Status;
  fc_size : Z;
  fc_probe : FilterType -> option SliceTransform -> bool -> FilterBlockReader.t
}.

Record Footer := mkFooter {
  metaindex_handle : BlockHandle;
  index_handle : BlockHandle;
  version : Z
}.

(** Modelled from the spec: a randomly seekable file.  [unique_id] is the OS
    identity behind [GetUniqueId] (for Posix files three numbers: device,
    inode, generation), [blocks] the blocks by offset with the outcome of
    reading and checking each, [filter_blocks] the filter blocks by offset. *)
Record File := mkFile {
  file_number : nat;
  unique_id : option (Z * Z * Z);
  footer_on_file : Status * Footer;
  blocks : gmap Z (Status * Block);
  filter_blocks : gmap Z FilterContents
}.

(** Modelled from the spec: [File::GetUniqueId]; the reader relies on the
    Posix id being three varints, and an id that does not fit gives size 0. *)
Definition GetUniqueId (file : File) (max_size : Z) : Slice :=
  match unique_id file with
  | Some (dev, ino, gen) =>
      if max_size <? kMaxVarint64Length * 3 then []
      else EncodeVarint64 dev ++ EncodeVarint64 ino ++ EncodeVarint64 gen
  | None => []
  end.

(** Modelled from the spec: [ReadBlockContents] of format.cc, steps 1 to 4 of
    the block codec; every call is one read issued to the file. *)
Definition ReadBlockContents (file : File) (handle : BlockHandle) (do_uncompress : bool)
  : M (Status * option Block) :=
  log_read (file_number file) handle ;;;
  match blocks file !! offset handle with
  | None => ret (kIOError, None)
  | Some (st, b) =>
      if negb (ok st) then ret (st, None)
      else if do_uncompress && is_compressed (compression_type b)
      then let '(s, u) := UncompressBlockContents b in
           if ok s then ret (kOk, Some u) else ret (s, None)
      else ret (kOk, Some b)
  end.

Definition ReadBlockFromFile (file : File) (handle : BlockHandle) (do_uncompress : bool)
  : M (Status * option Block) :=
  r <- ReadBlockContents file handle do_uncompress ;;
  ret r.

(** ** Block iterators *)

Inductive Cleanup :=
| ReleaseCachedEntry (cache : CachePtr) (h : Handle)
| DeleteHeldResource (b : Block).

(** [BlockIter]: the entries it ranges over, the current position (valid while
    inside the entries), the status it carries, the seek it was built with and
    the cleanups registered on it.  An iterator that only carries a status
    (after [SetStatus], or [NewErrorInternalIterator]) has no entries. *)
Record BlockIter := mkIter {
  it_entries : list (Slice * Slice);
  it_current : nat;
  it_status : Status;
  it_seek : Slice -> nat;
  it_cleanup : list Cleanup
}.

Definition Valid (it : BlockIter) : bool := (it_current it <? length (it_entries it))%nat.

Definition Seek (it : BlockIter) (target : Slice) : BlockIter :=
  mkIter (it_entries it) (it_seek it target) (it_status it) (it_seek it) (it_cleanup it).

Definition SeekToFirst (it : BlockIter) : BlockIter :=
  mkIter (it_entries it) 0 (it_status it) (it_seek it) (it_cleanup it).

Definition Next (it : BlockIter) : BlockIter :=
  mkIter (it_entries it) (S (it_current it)) (it_status it) (it_seek it) (it_cleanup it).

Definition key (it : BlockIter) : Slice :=
  match it_entries it !! it_current it with Some e => fst e | None => [] end.

Definition value_ (it : BlockIter) : Slice :=
  match it_entries it !! it_current it with Some e => snd e | None => [] end.

Definition NewErrorInternalIterator (s : Status) : BlockIter :=
  mkIter [] 0 s (fun _ => O) [].

Definition RegisterCleanup (c : Cleanup) (it : BlockIter) : BlockIter :=
  mkIter (it_entries it) (it_current it) (it_status it) (it_seek it) (c :: it_cleanup it).

(** [Block::NewIterator(comparator, iter, total_order_seek)]. *)
Definition Block_NewIterator (b : Block) (cmp : Comparator)
  (aux : option (Slice -> nat)) (total_order_seek : bool) : BlockIter :=
  let seek := match aux with
              | Some h => if total_order_seek then BinarySeek cmp (entries b) else h
              | None => BinarySeek cmp (entries b)
              end in
  mkIter (entries b) (length (entries b)) kOk seek [].

(** [IndexReader::NewIterator]: the binary-search reader always asks for a
    total-order seek, the hash reader passes the caller's flag on. *)
Definition IndexReader_NewIterator (r : IndexReader) (total_order_seek : bool) : BlockIter :=
  match ir_kind r with
  | BinarySearchIndex => Block_NewIterator (index_block r) (ir_comparator r) None true
  | HashIndex =>
      Block_NewIterator (index_block r) (ir_comparator r) (hash_seek r) total_order_seek
  end.

Definition run_cleanup (c : Cleanup) : M unit :=
  match c with
  | ReleaseCachedEntry cache h => Cache_Release cache h
  | DeleteHeldResource b => delete_ (OBlock b)
  end.

Fixpoint run_cleanups (cs : list Cleanup) : M unit :=
  match cs with
  | [] => ret tt
  | c :: cs' => run_cleanup c ;;; run_cleanups cs'
  end.

(** The destructor of an iterator runs the cleanups registered on it. *)
Definition DestroyIterator (it : BlockIter) : M unit := run_cleanups (it_cleanup it).

(** ** Options and the reader state *)

Definition bytes (s : string) : Slice :=
  map (fun a => Z.of_N (N_of_ascii a)) (list_ascii_of_string s).

Record FilterPolicy := mkPolicy {
  Name : string;
  GetKeyTransformer : option (Slice -> Slice)
}.

Definition kBinarySearch : Z := 0.
Definition kHashSearch : Z := 1.

Record ImmutableCFOptions := mkIOptions {
  prefix_extractor : option SliceTransform
}.

Record BlockBasedTableOptions := mkTableOptions {
  cache_index_and_filter_blocks : bool;
  block_cache : option CachePtr;
  block_cache_compressed : option CachePtr;
  to_filter_policy : option FilterPolicy;
  to_whole_key_filtering : bool;
  to_index_type : Z;
  to_hash_index_allow_collision : bool
}.

Inductive ReadTier := kReadAllTier | kBlockCacheTier.

Record ReadOptions := mkReadOptions {
  read_tier : ReadTier;
  fill_cache : bool;
  total_order_seek : bool;
  use_bloom_on_scan : bool;
  verify_checksums : bool
}.

Definition ReadOptions_kDefault : ReadOptions :=
  mkReadOptions kReadAllTier true false false true.

Definition is_no_io (ro : ReadOptions) : bool :=
  match read_tier ro with kBlockCacheTier => true | kReadAllTier => false end.

Record TableProperties := mkProps {
  user_collected_properties : list (Slice * Slice)
}.

Fixpoint props_find (props : list (Slice * Slice)) (name : Slice) : option Slice :=
  match props with
  | [] => None
  | (k, v) :: rest => if decide (k = name) then Some v else props_find rest name
  end.

Record FileReaderWithCachePrefix := mkReader {
  reader : File;
  cache_key_prefix : Slice;
  compressed_cache_key_prefix : Slice
}.

Module CachableEntry.
Record t (TValue : Type) := mk {
  value : option TValue;
  cache_handle : option Handle
}.
Arguments mk {TValue}.
Arguments value {TValue}.
Arguments cache_handle {TValue}.
End CachableEntry.
Import CachableEntry(value, cache_handle).

Record Rep := mkRep {
  ioptions : ImmutableCFOptions;
  table_options : BlockBasedTableOptions;
  filter_policy : option FilterPolicy;
  filter_key_transformer : option (Slice -> Slice);
  internal_comparator : Comparator;
  base_reader_with_cache_prefix : FileReaderWithCachePrefix;
  data_reader_with_cache_prefix : FileReaderWithCachePrefix;
  footer : Footer;
  data_index_reader : option IndexReader;
  filter_index_reader : option IndexReader;
  filter : option FilterBlockReader.t;
  filter_type : FilterType;
  filter_handle : BlockHandle;
  table_properties : option TableProperties;
  index_type : Z;
  hash_index_allow_collision : bool;
  whole_key_filtering : bool;
  prefix_filtering : bool
}.

(** [Rep::not_matching_filter_entry]: the sentinel reader, with no cache handle. *)
Definition not_matching_filter_entry : CachableEntry.t FilterBlockReader.t :=
  CachableEntry.mk (Some NotMatchingFilterBlockReader) None.

(** ** Cache keys *)

(** [BlockBasedTable::GenerateCachePrefix]. *)
Definition GenerateCachePrefix (cc : CachePtr) (file : File) : M Slice :=
  (* generate an id from the file *)
  let prefix := GetUniqueId file kMaxCacheKeyPrefixSize in
  (* If the prefix wasn't generated or was too long, create one from the cache. *)
  if (length prefix =? 0)%nat
  then id <- NewId cc ;; ret (EncodeVarint64 id)
  else ret prefix.

(** [BlockBasedTable::GetCacheKey]; the two assertions on the prefix size are
    the ways it goes wrong. *)
Definition GetCacheKey (cache_key_prefix : Slice) (handle : BlockHandle) : option Slice :=
  if (length cache_key_prefix =? 0)%nat then None
  else if kMaxCacheKeyPrefixSize <? Z.of_nat (length cache_key_prefix) then None
  else Some (cache_key_prefix ++ EncodeVarint64 (offset handle)).

Definition lift {A} (o : option A) : M A :=
  fun w => match o with Some a => Some (a, w) | None => None end.

(** [BlockBasedTable::SetupCacheKeyPrefix]. *)
Definition SetupCacheKeyPrefix (table_opt : BlockBasedTableOptions) (file : File)
  : M FileReaderWithCachePrefix :=
  p <- match block_cache table_opt with
       | Some cc => GenerateCachePrefix cc file
       | None => ret []
       end ;;
  cp <- match block_cache_compressed table_opt with
        | Some cc => GenerateCachePrefix cc file
        | None => ret []
        end ;;
  ret (mkReader file p cp).

(** [GetEntryFromCache]: the lookup goes through the cache pointer, so a null
    cache goes wrong. *)
Definition GetEntryFromCache (cache : option CachePtr) (k : Slice)
  (block_cache_miss_ticker block_cache_hit_ticker : Tickers) : M (option Handle) :=
  match cache with
  | None => undefined
  | Some c =>
      cache_handle <- Lookup c k ;;
      match cache_handle with
      | Some _ => RecordTick block_cache_hit_ticker
      | None => RecordTick block_cache_miss_ticker
      end ;;;
      ret cache_handle
  end.

(** ** Cachable entries *)

(** [CachableEntry::Release]. *)
Definition Release {TValue} (e : CachableEntry.t TValue) (cache : option CachePtr)
  : M (CachableEntry.t TValue) :=
  match cache_handle e with
  | Some h =>
      match cache with
      | Some c => Cache_Release c h ;;; ret (CachableEntry.mk None None)
      | None => undefined
      end
  | None => ret e
  end.

(** ** Meta-index lookups (meta_blocks.cc is not under src/) *)

(** Modelled from the spec: [FindMetaBlock] seeks the bytewise-ordered
    meta-index for the name and decodes the handle stored under it. *)
Definition FindMetaBlock (meta_index : Block) (meta_block_name : Slice)
  : Status * BlockHandle :=
  let it := Seek (Block_NewIterator meta_index BytewiseCompare None true) meta_block_name in
  if Valid it && bool_decide (key it = meta_block_name)
  then DecodeFrom (value_ it)
  else (kCorruption, mkHandle 0 0).

(** [BlockBasedTable::ReadMetaBlock]. *)
Definition ReadMetaBlock (base : File) (ft : Footer) : M (Status * option Block) :=
  r <- ReadBlockFromFile base (metaindex_handle ft) true ;;
  ret r.

(** ** Index readers *)

(** [BinarySearchIndexReader::Create]. *)
Definition BinarySearchIndexReader_Create (file : File) (index_handle_ : BlockHandle)
  (comparator : Comparator) : M (Status * option IndexReader) :=
  r <- ReadBlockFromFile file index_handle_ true ;;
  match r with
  | (kOk, Some index_block_) =>
      ret (kOk, Some (mkIndexReader BinarySearchIndex comparator index_block_ None))
  | (s, _) => ret (s, None)
  end.

Definition kHashIndexPrefixesBlock : Slice := bytes "rocksdb.hashindex.prefixes".
Definition kHashIndexPrefixesMetadataBlock : Slice :=
  bytes "rocksdb.hashindex.prefixesmetadata".
Definition kIndexType : Slice := bytes "rocksdb.block.based.table.index.type".

Definition DecodeFixed32 (s : Slice) : Z :=
  nth 0 s 0 + nth 1 s 0 * 2 ^ 8 + nth 2 s 0 * 2 ^ 16 + nth 3 s 0 * 2 ^ 24.

Section Reader.

(** Builders of the hash auxiliary, of block_hash_index.cc and
    block_prefix_index.cc (not under src/): from the key extractor and the
    contents of the two meta-blocks to the prefix map, or a failure. *)
Variable CreateBlockHashIndex :
  option SliceTransform -> Block -> Block -> Status * (Slice -> nat).
Variable BlockPrefixIndex_Create :
  option SliceTransform -> Block -> Block -> Status * (Slice -> nat).

(** [HashIndexReader::Create]. *)
Definition HashIndexReader_Create (hash_key_extractor : option SliceTransform)
  (file : File) (comparator : Comparator) (index_handle_ : BlockHandle)
  (meta_index : Block) (hash_index_allow_collision_ : bool)
  : M (Status * option IndexReader) :=
  r <- ReadBlockFromFile file index_handle_ true ;;
  match r with
  | (kOk, Some index_block_) =>
      (* Failure to create the prefix hash index is not a hard error: the
         reader falls back to the original binary search index. *)
      let new_index_reader := mkIndexReader HashIndex comparator index_block_ None in
      (* Get prefixes block *)
      let '(s1, prefixes_handle) := FindMetaBlock meta_index kHashIndexPrefixesBlock in
      if negb (ok s1) then ret (kOk, Some new_index_reader)
      else
        (* Get index metadata block *)
        let '(s2, prefixes_meta_handle) :=
          FindMetaBlock meta_index kHashIndexPrefixesMetadataBlock in
        if negb (ok s2) then ret (kOk, Some new_index_reader)
        else
          (* Read contents for the blocks *)
          p <- ReadBlockContents file prefixes_handle true ;;
          match p with
          | (kOk, Some prefixes_contents) =>
              pm <- ReadBlockContents file prefixes_meta_handle true ;;
              match pm with
              | (kOk, Some prefixes_meta_contents) =>
                  let '(s, aux) :=
                    if negb hash_index_allow_collision_
                    then CreateBlockHashIndex hash_key_extractor
                           prefixes_contents prefixes_meta_contents
                    else BlockPrefixIndex_Create hash_key_extractor
                           prefixes_contents prefixes_meta_contents in
                  if ok s
                  then ret (kOk, Some (mkIndexReader HashIndex comparator
                                         index_block_ (Some aux)))
                  else ret (kOk, Some new_index_reader)
              | _ => ret (kOk, Some new_index_reader)
              end
          | (s, _) => ret (s, Some new_index_reader)
          end
  | (s, _) => ret (s, None)
  end.

(** [BlockBasedTable::CreateDataBlockIndexReader]. *)
Definition CreateDataBlockIndexReader (rep_ : Rep) (preloaded_meta_index : option Block)
  : M (Status * option IndexReader) :=
  (* Some old version of block-based tables don't have index type present in
     table properties. If that's the case we can safely use the kBinarySearch. *)
  let index_type_on_file :=
    match table_properties rep_ with
    | Some props =>
        match props_find (user_collected_properties props) kIndexType with
        | Some v =>
            (* the cast to IndexType, an enumeration over char, keeps the
               low byte *)
            Z.land (DecodeFixed32 v) 255
        | None => kBinarySearch
        end
    | None => kBinarySearch
    end in
  let file := reader (base_reader_with_cache_prefix rep_) in
  let comparator := internal_comparator rep_ in
  let index_type_on_file :=
    if (index_type_on_file =? kHashSearch)
       && negb (bool_decide (is_Some (prefix_extractor (ioptions rep_))))
    then kBinarySearch
    else index_type_on_file in
  if index_type_on_file =? kBinarySearch
  then BinarySearchIndexReader_Create file (index_handle (footer rep_)) comparator
  else if index_type_on_file =? kHashSearch
  then
    m <- match preloaded_meta_index with
         | Some mi => ret (kOk, Some mi)
         | None => ReadMetaBlock file (footer rep_)
         end ;;
    match m with
    | (kOk, Some meta_index) =>
        (* the data is wrapped with the internal-key transform of the
           prefix extractor *)
        HashIndexReader_Create (prefix_extractor (ioptions rep_)) file comparator
          (index_handle (footer rep_)) meta_index (hash_index_allow_collision rep_)
    | _ =>
        (* we simply fall back to binary search in case there is any
           problem with prefix hash index loading. *)
        BinarySearchIndexReader_Create file (index_handle (footer rep_)) comparator
    end
  else ret (kInvalidArgument, None).

(** [BlockBasedTable::CreateFilterIndexReader]. *)
Definition CreateFilterIndexReader (rep_ : Rep) : M (Status * option IndexReader) :=
  BinarySearchIndexReader_Create (reader (base_reader_with_cache_prefix rep_))
    (filter_handle rep_) BytewiseCompare.

(** ** Filters *)

Definition BlockBasedFilterBlockReader (pe : option SliceTransform) (wkf : bool)
  (block : FilterContents) : FilterBlockReader.t := fc_probe block kBlockBasedFilter pe wkf.
Definition FullFilterBlockReader (pe : option SliceTransform) (wkf : bool)
  (block : FilterContents) : FilterBlockReader.t := fc_probe block kFullFilter pe wkf.
Definition FixedSizeFilterBlockReader (pe : option SliceTransform) (wkf : bool)
  (block : FilterContents) : FilterBlockReader.t := fc_probe block kFixedSizeFilter pe wkf.

(** [BlockBasedTable::ReadFilterBlock]: returns the reader and the size of
    the filter data. *)
Definition ReadFilterBlock (filter_handle_ : BlockHandle) (rep : Rep)
  : M (option FilterBlockReader.t * Z) :=
  match filter_type rep with
  | kNoFilter => ret (None, 0)
  | _ =>
      log_read (file_number (reader (base_reader_with_cache_prefix rep))) filter_handle_ ;;;
      match filter_blocks (reader (base_reader_with_cache_prefix rep))
              !! offset filter_handle_ with
      | None => ret (None, 0)
      | Some block =>
          if negb (ok (fc_status block)) then ret (None, 0) (* Error reading the block *)
          else
            match filter_policy rep with
            | None => undefined
            | Some _ =>
                let pe := if prefix_filtering rep
                          then prefix_extractor (ioptions rep) else None in
                match filter_type rep with
                | kNoFilter => ret (None, fc_size block)
                | kBlockBasedFilter =>
                    ret (Some (BlockBasedFilterBlockReader pe (whole_key_filtering rep) block),
                         fc_size block)
                | kFullFilter =>
                    ret (Some (FullFilterBlockReader pe (whole_key_filtering rep) block),
                         fc_size block)
                | kFixedSizeFilter =>
                    ret (Some (FixedSizeFilterBlockReader pe (whole_key_filtering rep) block),
                         fc_size block)
                end
            end
      end
  end.

(** [BlockBasedTable::GetFixedSizeFilterBlockHandle]; it goes wrong when no
    filter index reader was created. *)
Definition GetFixedSizeFilterBlockHandle (rep_ : Rep) (filter_key : Slice)
  : option (Status * BlockHandle) :=
  match filter_index_reader rep_ with
  | None => None
  | Some r =>
      (* Determine block of fixed-size bloom filter using filter index. *)
      let fiter := Seek (IndexReader_NewIterator r true) filter_key in
      if Valid fiter
      then Some (DecodeFrom (value_ fiter))
      else
        (* We are beyond the index, that means key is absent in filter, we
           use null block handle stub to indicate that. *)
        Some (kOk, mkHandle 0 0)
  end.

(** [BlockBasedTable::GetFilterKey]. *)
Definition GetFilterKey (rep_ : Rep) (internal_key : Slice) : Slice :=
  let user_key := ExtractUserKey internal_key in
  match filter_key_transformer rep_ with
  | Some transform => transform user_key
  | None => user_key
  end.

Definition as_filter (v : CacheValue) : M FilterBlockReader.t :=
  match v with CVFilter f => ret f | _ => undefined end.
Definition as_block (v : CacheValue) : M Block :=
  match v with CVBlock b => ret b | _ => undefined end.
Definition as_index (v : CacheValue) : M IndexReader :=
  match v with CVIndex r => ret r | _ => undefined end.

(** [BlockBasedTable::GetFilter].  A failure to decode the handle found in
    the filter index takes the production path (no filter). *)
Definition GetFilter (rep_ : Rep) (no_io : bool) (filter_key : option Slice)
  : M (CachableEntry.t FilterBlockReader.t) :=
  let is_fixed_size_filter := FilterType_eqb (filter_type rep_) kFixedSizeFilter in
  (* Key is required for fixed size filter. *)
  if is_fixed_size_filter && negb (bool_decide (is_Some filter_key)) then undefined
  else if negb (cache_index_and_filter_blocks (table_options rep_))
          && negb is_fixed_size_filter
  then ret (CachableEntry.mk (filter rep_) None)
  else
    let block_cache_ := block_cache (table_options rep_) in
    if negb (bool_decide (is_Some (filter_policy rep_)))
       || negb (bool_decide (is_Some block_cache_))
    then ret (CachableEntry.mk None None)
    else
      (* Determine filter block handle *)
      h <- (if is_fixed_size_filter
            then
              r <- lift (GetFixedSizeFilterBlockHandle rep_ (default [] filter_key)) ;;
              let '(s, fixed_size_filter_block_handle) := r in
              if ok s
              then if IsNull fixed_size_filter_block_handle
                   then ret (inl not_matching_filter_entry)
                        (* Key is beyond filter index - return stub filter. *)
                   else ret (inr fixed_size_filter_block_handle)
              else ret (inl (CachableEntry.mk None None))
            else ret (inr (filter_handle rep_))) ;;
      match h with
      | inl early => ret early
      | inr filter_block_handle =>
          (* Fetching from the cache *)
          filter_block_cache_key <-
            lift (GetCacheKey (cache_key_prefix (base_reader_with_cache_prefix rep_))
                    filter_block_handle) ;;
          cache_handle_ <- GetEntryFromCache block_cache_ filter_block_cache_key
                             BLOCK_CACHE_FILTER_MISS BLOCK_CACHE_FILTER_HIT ;;
          match cache_handle_ with
          | Some handle =>
              f <- as_filter (h_value handle) ;;
              ret (CachableEntry.mk (Some f) cache_handle_)
          | None =>
              if no_io && negb (FilterType_eqb (filter_type rep_) kFixedSizeFilter)
              then ret (CachableEntry.mk None None) (* Do not invoke any io. *)
              else
                (* For fixed-size filter we don't prefetch all filter blocks
                   and ignore no_io parameter always loading necessary
                   filter block through block cache. *)
                r <- ReadFilterBlock filter_block_handle rep_ ;;
                let '(filter_, filter_size) := r in
                match filter_, block_cache_ with
                | Some f, Some c =>
                    if filter_size <=? 0 then undefined
                    else
                      i <- Insert c filter_block_cache_key (CVFilter f) ;;
                      let '(s, new_handle) := i in
                      if negb (ok s)
                      then delete_ (OFilter f) ;;; ret (CachableEntry.mk None None)
                      else ret (CachableEntry.mk (Some f) new_handle)
                | _, _ => ret (CachableEntry.mk filter_ None)
                end
          end
      end.

(** ** Index and data-block iterators *)

Definition SetStatus (s : Status) : BlockIter := NewErrorInternalIterator s.

(** [BlockBasedTable::NewIndexIterator]. *)
Definition NewIndexIterator (rep_ : Rep) (read_options : ReadOptions) : M BlockIter :=
  match data_index_reader rep_ with
  | Some r =>
      (* index reader has already been pre-populated. *)
      ret (IndexReader_NewIterator r (total_order_seek read_options))
  | None =>
      let no_io := is_no_io read_options in
      let block_cache_ := block_cache (table_options rep_) in
      k <- lift (GetCacheKey (cache_key_prefix (base_reader_with_cache_prefix rep_))
                   (index_handle (footer rep_))) ;;
      cache_handle_ <- GetEntryFromCache block_cache_ k
                         BLOCK_CACHE_INDEX_MISS BLOCK_CACHE_INDEX_HIT ;;
      match cache_handle_, block_cache_ with
      | None, Some c =>
          if no_io then ret (SetStatus kIncomplete)
          else
            (* Create index reader and put it in the cache. *)
            r <- CreateDataBlockIndexReader rep_ None ;;
            match r with
            | (kOk, Some index_reader_unique) =>
                i <- Insert c k (CVIndex index_reader_unique) ;;
                match i with
                | (kOk, Some new_handle) =>
                    ret (RegisterCleanup (ReleaseCachedEntry c new_handle)
                           (IndexReader_NewIterator index_reader_unique
                              (total_order_seek read_options)))
                | (s, _) =>
                    (* make sure if something goes wrong, data_index_reader
                       shall remain intact; the reader is freed with its
                       unique_ptr *)
                    delete_ (OIndex index_reader_unique) ;;; ret (SetStatus s)
                end
            | (s, Some index_reader_unique) =>
                delete_ (OIndex index_reader_unique) ;;; ret (SetStatus s)
            | (s, None) => ret (SetStatus s)
            end
      | Some handle, Some c =>
          index_reader <- as_index (h_value handle) ;;
          ret (RegisterCleanup (ReleaseCachedEntry c handle)
                 (IndexReader_NewIterator index_reader (total_order_seek read_options)))
      | _, None => undefined
      end
  end.

(** [BlockBasedTable::GetDataBlockFromCache]. *)
Definition GetDataBlockFromCache (block_cache_key compressed_block_cache_key : Slice)
  (block_cache_ block_cache_compressed_ : option CachePtr) (read_options : ReadOptions)
  : M (Status * CachableEntry.t Block) :=
  (* Lookup uncompressed cache first *)
  first <- match block_cache_ with
           | Some _ =>
               GetEntryFromCache block_cache_ block_cache_key
                 BLOCK_CACHE_DATA_MISS BLOCK_CACHE_DATA_HIT
           | None => ret None
           end ;;
  match first with
  | Some handle =>
      b <- as_block (h_value handle) ;;
      ret (kOk, CachableEntry.mk (Some b) (Some handle))
  | None =>
      (* If not found, search from the compressed block cache. *)
      match block_cache_compressed_ with
      | None => ret (kOk, CachableEntry.mk None None)
      | Some cc =>
          if (length compressed_block_cache_key =? 0)%nat then undefined
          else
            block_cache_compressed_handle <- Lookup cc compressed_block_cache_key ;;
            match block_cache_compressed_handle with
            | None =>
                RecordTick BLOCK_CACHE_COMPRESSED_MISS ;;;
                ret (kOk, CachableEntry.mk None None)
            | Some chandle =>
                (* found compressed block *)
                RecordTick BLOCK_CACHE_COMPRESSED_HIT ;;;
                compressed_block <- as_block (h_value chandle) ;;
                if negb (is_compressed (compression_type compressed_block)) then undefined
                else
                  (* Retrieve the uncompressed contents into a new buffer *)
                  let '(s, contents) := UncompressBlockContents compressed_block in
                  r <- (if ok s
                        then
                          (* Insert uncompressed block into block cache *)
                          match block_cache_ with
                          | Some c =>
                              if cachable contents && fill_cache read_options
                              then
                                i <- Insert c block_cache_key (CVBlock contents) ;;
                                let '(s', new_handle) := i in
                                if negb (ok s')
                                then delete_ (OBlock contents) ;;;
                                     ret (s', CachableEntry.mk None None)
                                else ret (s', CachableEntry.mk (Some contents) new_handle)
                              else ret (s, CachableEntry.mk (Some contents) None)
                          | None => ret (s, CachableEntry.mk (Some contents) None)
                          end
                        else ret (s, CachableEntry.mk None None)) ;;
                  (* Release hold on compressed cache entry *)
                  Cache_Release cc chandle ;;;
                  ret r
            end
      end
  end.

(** [BlockBasedTable::PutDataBlockToCache]. *)
Definition PutDataBlockToCache (block_cache_key compressed_block_cache_key : Slice)
  (block_cache_ block_cache_compressed_ : option CachePtr) (raw_block : Block)
  : M (Status * CachableEntry.t Block) :=
  if is_compressed (compression_type raw_block)
     && negb (bool_decide (is_Some block_cache_compressed_))
  then undefined
  else
    (* Retrieve the uncompressed contents into a new buffer *)
    let '(s, contents) :=
      if is_compressed (compression_type raw_block)
      then UncompressBlockContents raw_block else (kOk, raw_block) in
    if negb (ok s) then delete_ (OBlock raw_block) ;;; ret (s, CachableEntry.mk None None)
    else
      let block_value := contents in
      let raw_block_ :=
        if is_compressed (compression_type raw_block) then Some raw_block else None in
      (* Insert compressed block into compressed block cache.  No handle is
         asked for, so the hold on the new entry is released immediately. *)
      s1 <- match block_cache_compressed_, raw_block_ with
            | Some cc, Some raw =>
                if cachable raw
                then
                  i <- Insert cc compressed_block_cache_key (CVBlock raw) ;;
                  if ok (fst i)
                  then
                    (* Avoid the following code to delete this cached block. *)
                    RecordTick BLOCK_CACHE_COMPRESSED_ADD ;;; ret (fst i)
                  else
                    RecordTick BLOCK_CACHE_COMPRESSED_ADD_FAILURES ;;;
                    delete_ (OBlock raw) ;;; ret (fst i)
                else delete_ (OBlock raw) ;;; ret s
            | _, Some raw => delete_ (OBlock raw) ;;; ret s
            | _, None => ret s
            end ;;
      (* insert into uncompressed block cache *)
      if is_compressed (compression_type block_value) then undefined
      else
        match block_cache_ with
        | Some c =>
            if cachable block_value
            then
              i <- Insert c block_cache_key (CVBlock block_value) ;;
              let '(s2, new_handle) := i in
              if negb (ok s2)
              then delete_ (OBlock block_value) ;;; ret (s2, CachableEntry.mk None None)
              else ret (s2, CachableEntry.mk (Some block_value) new_handle)
            else ret (s1, CachableEntry.mk (Some block_value) None)
        | None => ret (s1, CachableEntry.mk (Some block_value) None)
        end.

(** [BlockBasedTable::NewDataBlockIterator].  [build] is the body of the
    source function; the wrapper records the request and the status of the
    iterator handed back. *)
Definition NewDataBlockIterator_build (rep : Rep) (ro : ReadOptions) (index_value : Slice)
  : M BlockIter :=
  let no_io := is_no_io ro in
  let block_cache_ := block_cache (table_options rep) in
  let block_cache_compressed_ := block_cache_compressed (table_options rep) in
  (* We intentionally allow extra stuff in index_value so that we
     can add more features in the future. *)
  let '(s, handle) := DecodeFrom index_value in
  if negb (ok s) then ret (SetStatus s)
  else
    (* If either block cache is enabled, we'll try to read from it. *)
    r <- (if bool_decide (is_Some block_cache_) || bool_decide (is_Some block_cache_compressed_)
          then
            (* create key for block cache *)
            k <- match block_cache_ with
                 | Some _ =>
                     lift (GetCacheKey
                             (cache_key_prefix (data_reader_with_cache_prefix rep)) handle)
                 | None => ret []
                 end ;;
            ckey <- match block_cache_compressed_ with
                    | Some _ =>
                        lift (GetCacheKey
                                (compressed_cache_key_prefix
                                   (data_reader_with_cache_prefix rep)) handle)
                    | None => ret []
                    end ;;
            g <- GetDataBlockFromCache k ckey block_cache_ block_cache_compressed_ ro ;;
            let '(s, block) := g in
            if negb (bool_decide (is_Some (value block))) && negb no_io && fill_cache ro
            then
              f <- ReadBlockFromFile (reader (data_reader_with_cache_prefix rep)) handle
                     (negb (bool_decide (is_Some block_cache_compressed_))) ;;
              match f with
              | (kOk, Some raw_block) =>
                  PutDataBlockToCache k ckey block_cache_ block_cache_compressed_ raw_block
              | (s, _) => ret (s, block)
              end
            else ret (s, block)
          else ret (kOk, CachableEntry.mk None None)) ;;
    let '(s, block) := r in
    (* Didn't get any data from block caches. *)
    if ok s && negb (bool_decide (is_Some (value block))) && no_io
    then
      (* Could not read from block_cache and can't do IO *)
      ret (SetStatus kIncomplete)
    else
      r <- (if ok s && negb (bool_decide (is_Some (value block)))
            then
              f <- ReadBlockFromFile (reader (data_reader_with_cache_prefix rep)) handle true ;;
              match f with
              | (kOk, Some block_value) =>
                  ret (kOk, CachableEntry.mk (Some block_value) (cache_handle block))
              | (s, _) => ret (s, block)
              end
            else ret (s, block)) ;;
      let '(s, block) := r in
      match ok s, value block with
      | true, Some b =>
          let iter := Block_NewIterator b (internal_comparator rep) None true in
          match cache_handle block, block_cache_ with
          | Some h, Some c => ret (RegisterCleanup (ReleaseCachedEntry c h) iter)
          | Some _, None => undefined
          | None, _ => ret (RegisterCleanup (DeleteHeldResource b) iter)
          end
      | _, _ => ret (SetStatus s)
      end.

Definition NewDataBlockIterator (rep : Rep) (ro : ReadOptions) (index_value : Slice)
  : M BlockIter :=
  iter <- NewDataBlockIterator_build rep ro index_value ;;
  log_open index_value (it_status iter) ;;;
  ret iter.

(** ** The prefix probe *)

(** [BlockBasedTable::PrefixMayMatch]. *)
Definition PrefixMayMatch (rep_ : Rep) (internal_key : Slice) : M bool :=
  match filter_policy rep_ with
  | None => ret true
  | Some _ =>
      match prefix_extractor (ioptions rep_) with
      | None => undefined
      | Some extractor =>
          let user_key := ExtractUserKey internal_key in
          let filter_key := match filter_key_transformer rep_ with
                            | Some transform => transform user_key
                            | None => user_key
                            end in
          if negb (InDomain extractor filter_key) || negb (InDomain extractor user_key)
          then ret true
          else
            let user_key_prefix := Transform extractor user_key in
            let filter_key_prefix := Transform extractor filter_key in
            let internal_prefix :=
              InternalKey_Encode user_key_prefix kMaxSequenceNumber kTypeValue in
            (* To prevent any io operation in this method, we set `read_tier`
               to make sure we always read index or filter only when they
               have already been loaded to memory. *)
            let no_io_read_options :=
              mkReadOptions kBlockCacheTier (fill_cache ReadOptions_kDefault)
                (total_order_seek ReadOptions_kDefault)
                (use_bloom_on_scan ReadOptions_kDefault)
                (verify_checksums ReadOptions_kDefault) in
            (* First check non block-based filter. *)
            filter_entry <- GetFilter rep_ true (Some filter_key) ;;
            let filter_ := value filter_entry in
            let is_block_based_filter :=
              FilterType_eqb (filter_type rep_) kBlockBasedFilter in
            let may_match :=
              match filter_ with
              | Some f =>
                  if negb is_block_based_filter
                  then FilterBlockReader.PrefixMayMatch f filter_key_prefix kNotValid
                  else true
              | None => true
              end in
            may_match <-
              (if may_match
               then
                 it <- NewIndexIterator rep_ no_io_read_options ;;
                 let iiter := Seek it internal_prefix in
                 r <- (if negb (Valid iiter)
                       then
                         (* we're past end of file; if it's incomplete, it
                            means that we avoided I/O and we're not really
                            sure that we're past the end of the file *)
                         ret (IsIncomplete (it_status iiter))
                       else if starts_with (ExtractUserKey (key iiter))
                                 (ExtractUserKey internal_prefix)
                       then ret true
                       else
                         match filter_ with
                         | Some f =>
                             if is_block_based_filter
                             then
                               let '(s, handle) := DecodeFrom (value_ iiter) in
                               if negb (ok s) then undefined
                               else ret (FilterBlockReader.PrefixMayMatch f
                                           filter_key_prefix (offset handle))
                             else ret may_match
                         | None => ret may_match
                         end) ;;
                 DestroyIterator iiter ;;;
                 ret r
               else ret may_match) ;;
            RecordTick BLOOM_FILTER_PREFIX_CHECKED ;;;
            (if negb may_match then RecordTick BLOOM_FILTER_PREFIX_USEFUL else ret tt) ;;;
            Release filter_entry (block_cache (table_options rep_)) ;;;
            ret may_match
      end
  end.

(** [BlockBasedTable::NonBlockBasedFilterKeyMayMatch]. *)
Definition NonBlockBasedFilterKeyMayMatch (rep_ : Rep)
  (filter_ : option FilterBlockReader.t) (filter_key : Slice) : M bool :=
  if FilterType_eqb (filter_type rep_) kBlockBasedFilter then undefined
  else
    match filter_ with
    | None => ret true
    | Some f =>
        RecordTick BLOOM_FILTER_CHECKED ;;;
        if negb (FilterBlockReader.KeyMayMatch f filter_key kNotValid) then ret false
        else
          match prefix_extractor (ioptions rep_) with
          | Some extractor =>
              if InDomain extractor filter_key
                 && negb (FilterBlockReader.PrefixMayMatch f
                            (Transform extractor filter_key) kNotValid)
              then ret false
              else ret true
          | None => ret true
          end
    end.

(** ** Point lookup *)

(** Modelled from the spec: the get context of get_context.cc (not under
    src/): [SaveValue] takes an entry and signals whether more are wanted,
    [MarkKeyMayExist] flags that the key may exist. *)
Record GetContext := mkGetContext {
  saved : list (ParsedInternalKey * Slice);
  key_may_exist : bool;
  wants_more : ParsedInternalKey -> Slice -> bool
}.

Definition SaveValue (c : GetContext) (parsed_key : ParsedInternalKey) (v : Slice)
  : GetContext * bool :=
  (mkGetContext ((parsed_key, v) :: saved c) (key_may_exist c) (wants_more c),
   wants_more c parsed_key v).

Definition MarkKeyMayExist (c : GetContext) : GetContext :=
  mkGetContext (saved c) true (wants_more c).

(** The inner loop of [Get] over the entries of one data block, from the
    seek position on: the status it leaves in [s], the context and [done]. *)
Fixpoint Get_block_loop (es : list (Slice * Slice)) (s : Status) (c : GetContext)
  : Status * GetContext * bool :=
  match es with
  | [] => (s, c, false)
  | (k, v) :: es' =>
      let '(s, parsed_key) :=
        match ParseInternalKey k with
        | Some p => (s, p)
        | None => (kCorruption, mkParsed [] [])
        end in
      let '(c, more) := SaveValue c parsed_key v in
      if negb more then (s, c, true) else Get_block_loop es' s c
  end.

(** The outer loop of [Get] over the index entries from the seek position
    on; [iiter_entries] are the entries at and after the current one. *)
Fixpoint Get_index_loop (rep_ : Rep) (read_options : ReadOptions) (internal_key : Slice)
  (skip_filters is_block_based_filter : bool) (filter_ : option FilterBlockReader.t)
  (filter_key : Slice) (iiter_entries : list (Slice * Slice))
  (s : Status) (get_context : GetContext) : M (Status * GetContext) :=
  match iiter_entries with
  | [] => ret (s, get_context)
  | (_, iiter_value) :: rest =>
      absent_from_filter <-
        (if negb skip_filters && is_block_based_filter
         then
           RecordTick BLOOM_FILTER_CHECKED ;;;
           let '(ds, data_block_handle) := DecodeFrom iiter_value in
           if ok ds
           then match filter_ with
                | Some f =>
                    ret (negb (FilterBlockReader.KeyMayMatch f filter_key
                                 (offset data_block_handle)))
                | None => undefined
                end
           else ret false
         else ret false) ;;
      if absent_from_filter
      then
        (* Not found *)
        RecordTick BLOOM_FILTER_USEFUL ;;; ret (s, get_context)
      else
        biter <- NewDataBlockIterator rep_ read_options iiter_value ;;
        if is_no_io read_options && IsIncomplete (it_status biter)
        then
          (* couldn't get block from block_cache: we are only looking for
             whether we can guarantee the key is not there when "no_io" is set *)
          DestroyIterator biter ;;;
          ret (s, MarkKeyMayExist get_context)
        else if negb (ok (it_status biter))
        then DestroyIterator biter ;;; ret (it_status biter, get_context)
        else
          (* Call the *saver function on each entry/block until it returns false *)
          let biter := Seek biter internal_key in
          let '(s, get_context, done) :=
            Get_block_loop (drop (it_current biter) (it_entries biter)) s get_context in
          let s := it_status biter in
          DestroyIterator biter ;;;
          if done then ret (s, get_context)
          else Get_index_loop rep_ read_options internal_key skip_filters
                 is_block_based_filter filter_ filter_key rest s get_context
  end.

(** [BlockBasedTable::Get]. *)
Definition Get (rep_ : Rep) (read_options : ReadOptions) (internal_key : Slice)
  (get_context : GetContext) (skip_filters : bool) : M (Status * GetContext) :=
  let s := kOk in
  f <- (if negb skip_filters
        then
          let filter_key := GetFilterKey rep_ internal_key in
          e <- GetFilter rep_ (is_no_io read_options) (Some filter_key) ;;
          ret (e, filter_key)
        else ret (CachableEntry.mk None None, [])) ;;
  let '(filter_entry, filter_key) := f in
  let filter_ := value filter_entry in
  let is_block_based_filter := FilterType_eqb (filter_type rep_) kBlockBasedFilter in
  (* First check non block-based filter. *)
  may_match <- (if is_block_based_filter then ret true
                else NonBlockBasedFilterKeyMayMatch rep_ filter_ filter_key) ;;
  r <- (if negb may_match
        then RecordTick BLOOM_FILTER_USEFUL ;;; ret (s, get_context)
        else
          (* Either filter is block-based or key may match. *)
          it <- NewIndexIterator rep_ read_options ;;
          let iiter := Seek it internal_key in
          r <- Get_index_loop rep_ read_options internal_key skip_filters
                 is_block_based_filter filter_ filter_key
                 (drop (it_current iiter) (it_entries iiter)) s get_context ;;
          let '(s, get_context) := r in
          let s := if ok s then it_status iiter else s in
          DestroyIterator iiter ;;;
          ret (s, get_context)) ;;
  Release filter_entry (block_cache (table_options rep_)) ;;;
  ret r.

(** ** Range prefetch *)

(** The loop of [Prefetch] over the index entries from the seek position on. *)
Fixpoint Prefetch_loop (rep_ : Rep) (end_ : option Slice)
  (iiter_entries : list (Slice * Slice)) (prefetching_boundary_page : bool) : M Status :=
  match iiter_entries with
  | [] => ret kOk
  | (iiter_key, block_handle) :: rest =>
      let past_end :=
        match end_ with
        | Some e => 0 <=? internal_comparator rep_ iiter_key e
        | None => false
        end in
      if past_end && prefetching_boundary_page then ret kOk
      else
        (* The index entry represents the last key in the data block.
           We should load this page into memory as well, but no more *)
        let prefetching_boundary_page :=
          if past_end then true else prefetching_boundary_page in
        (* Load the block specified by the block_handle into the block cache *)
        biter <- NewDataBlockIterator rep_ ReadOptions_kDefault block_handle ;;
        DestroyIterator biter ;;;
        if negb (ok (it_status biter))
        then
          (* there was an unexpected error while pre-fetching *)
          ret (it_status biter)
        else Prefetch_loop rep_ end_ rest prefetching_boundary_page
  end.

(** [BlockBasedTable::Prefetch]. *)
Definition Prefetch (rep_ : Rep) (begin_ end_ : option Slice) : M Status :=
  let comparator := internal_comparator rep_ in
  (* pre-condition *)
  let begin_after_end :=
    match begin_, end_ with
    | Some b, Some e => 0 <? comparator b e
    | _, _ => false
    end in
  if begin_after_end then ret kInvalidArgument
  else
    iiter <- NewIndexIterator rep_ ReadOptions_kDefault ;;
    if negb (ok (it_status iiter))
    then
      (* error opening index iterator *)
      DestroyIterator iiter ;;; ret (it_status iiter)
    else
      let iiter := match begin_ with
                   | Some b => Seek iiter b
                   | None => SeekToFirst iiter
                   end in
      r <- Prefetch_loop rep_ end_ (drop (it_current iiter) (it_entries iiter)) false ;;
      DestroyIterator iiter ;;;
      ret r.

(** ** The filter-aware iterator *)

Section BloomFilterAware.

(** The wrapped two-level iterator (two_level_iterator.cc is not under
    src/), through the interface the wrapper uses. *)
Variable InternalIterator : Type.
Variable InternalIterator_Seek : InternalIterator -> Slice -> M InternalIterator.
Variable InternalIterator_Valid : InternalIterator -> bool.

Record BloomFilterAwareIterator := mkBloomIter {
  table_ : Rep;
  read_options_ : ReadOptions;
  skip_filters_ : bool;
  internal_iter_ : InternalIterator;
  valid_ : bool
}.

(** [BloomFilterAwareIterator::InternalSeek]. *)
Definition InternalSeek (it : BloomFilterAwareIterator) (internal_key : Slice)
  : M BloomFilterAwareIterator :=
  i <- InternalIterator_Seek (internal_iter_ it) internal_key ;;
  ret (mkBloomIter (table_ it) (read_options_ it) (skip_filters_ it) i
         (InternalIterator_Valid i)).

(** [BloomFilterAwareIterator::Seek]. *)
Definition BloomFilterAwareIterator_Seek (it : BloomFilterAwareIterator)
  (internal_key : Slice) : M BloomFilterAwareIterator :=
  if skip_filters_ it then InternalSeek it internal_key
  else if FilterType_eqb (filter_type (table_ it)) kFixedSizeFilter
  then
    let filter_key := GetFilterKey (table_ it) internal_key in
    filter_entry <- GetFilter (table_ it) (is_no_io (read_options_ it)) (Some filter_key) ;;
    let filter_ := value filter_entry in
    may_match <- NonBlockBasedFilterKeyMayMatch (table_ it) filter_ filter_key ;;
    it' <- (if may_match
            then
              (* If bloom filter was not useful, then take this file into account. *)
              InternalSeek it internal_key
            else
              (* Else, record that the bloom filter was useful. *)
              RecordTick BLOOM_FILTER_USEFUL ;;;
              ret (mkBloomIter (table_ it) (read_options_ it) (skip_filters_ it)
                     (internal_iter_ it) false)) ;;
    Release filter_entry (block_cache (table_options (table_ it))) ;;;
    ret it'
  else
    (* For non fixed-size filters - just seek. *)
    InternalSeek it internal_key.

End BloomFilterAware.

(** ** Open *)

Definition kFullFilterBlockPrefix : Slice := bytes "fullfilter.".
Definition kFilterBlockPrefix : Slice := bytes "filter.".
Definition kFixedSizeFilterBlockPrefix : Slice := bytes "fixedsizefilter.".
Definition kPropertiesBlock : Slice := bytes "rocksdb.properties".
Definition kWholeKeyFiltering : Slice := bytes "rocksdb.whole.key.filtering".
Definition kPrefixFiltering : Slice := bytes "rocksdb.prefix.filtering".
Definition kPropTrue : Slice := bytes "1".
Definition kPropFalse : Slice := bytes "0".

(** [IsFeatureSupported]. *)
Definition IsFeatureSupported (props : TableProperties) (user_prop_name : Slice) : bool :=
  match props_find (user_collected_properties props) user_prop_name with
  | Some v => if bool_decide (v = kPropFalse) then false else true
  | None => true
  end.

(** The loop of [Open] that finds the filter handle and the filter type:
    [prefixes] are the candidates still to try. *)
Fixpoint Open_find_filter (meta : Block) (policy_name : Slice) (prefixes : list Slice)
  (filter_type_ : FilterType) (filter_handle_ : BlockHandle)
  : Status * FilterType * BlockHandle :=
  match prefixes with
  | [] => (kOk, filter_type_, filter_handle_)
  | prefix :: rest =>
      (* Unsuccessful read implies we should not use filter. *)
      let filter_block_key := prefix ++ policy_name in
      let '(s, h) := FindMetaBlock meta filter_block_key in
      if ok s
      then
        if bool_decide (prefix = kFullFilterBlockPrefix) then (kOk, kFullFilter, h)
        else if bool_decide (prefix = kFilterBlockPrefix) then (kOk, kBlockBasedFilter, h)
        else if bool_decide (prefix = kFixedSizeFilterBlockPrefix)
        then (kOk, kFixedSizeFilter, h)
        else (kCorruption, filter_type_, h)
      else Open_find_filter meta policy_name rest filter_type_ filter_handle_
  end.

Definition filter_block_prefixes : list Slice :=
  [kFullFilterBlockPrefix; kFilterBlockPrefix; kFixedSizeFilterBlockPrefix].

(** The properties block as read by [ReadProperties] (meta_blocks.cc is not
    under src/): its entries are the collected properties. *)
Definition ReadProperties (handle_value : Slice) (file : File)
  : M (Status * option TableProperties) :=
  let '(s, handle) := DecodeFrom handle_value in
  if negb (ok s) then ret (s, None)
  else
    r <- ReadBlockContents file handle false ;;
    match r with
    | (kOk, Some b) => ret (kOk, Some (mkProps (entries b)))
    | (s, _) => ret (s, None)
    end.

Definition set_filter (rep : Rep) (ft : FilterType) (fh : BlockHandle) : Rep :=
  mkRep (ioptions rep) (table_options rep) (filter_policy rep) (filter_key_transformer rep)
    (internal_comparator rep) (base_reader_with_cache_prefix rep)
    (data_reader_with_cache_prefix rep) (footer rep) (data_index_reader rep)
    (filter_index_reader rep) (filter rep) ft fh (table_properties rep)
    (index_type rep) (hash_index_allow_collision rep) (whole_key_filtering rep)
    (prefix_filtering rep).

Definition set_properties (rep : Rep) (p : option TableProperties) (wkf pf : bool) : Rep :=
  mkRep (ioptions rep) (table_options rep) (filter_policy rep) (filter_key_transformer rep)
    (internal_comparator rep) (base_reader_with_cache_prefix rep)
    (data_reader_with_cache_prefix rep) (footer rep) (data_index_reader rep)
    (filter_index_reader rep) (filter rep) (filter_type rep) (filter_handle rep) p
    (index_type rep) (hash_index_allow_collision rep) wkf pf.

Definition set_readers (rep : Rep) (data_index filter_index : option IndexReader)
  (f : option FilterBlockReader.t) : Rep :=
  mkRep (ioptions rep) (table_options rep) (filter_policy rep) (filter_key_transformer rep)
    (internal_comparator rep) (base_reader_with_cache_prefix rep)
    (data_reader_with_cache_prefix rep) (footer rep) data_index filter_index f
    (filter_type rep) (filter_handle rep) (table_properties rep)
    (index_type rep) (hash_index_allow_collision rep) (whole_key_filtering rep)
    (prefix_filtering rep).

(** [BlockBasedTable::Open]; on success it hands back the reader state. *)
Definition Open (ioptions_ : ImmutableCFOptions) (table_options_ : BlockBasedTableOptions)
  (internal_comparator_ : Comparator) (base_file : File)
  (prefetch_index_and_filter skip_filters : bool) : M (Status * option Rep) :=
  let '(s, footer_) := footer_on_file base_file in
  if negb (ok s) then ret (s, None)
  else if negb (version footer_ <=? 2) then ret (kCorruption, None)
  else
    (* We've successfully read the footer and the index block: we're
       ready to serve requests. *)
    let filter_policy_ := if skip_filters then None else to_filter_policy table_options_ in
    let filter_key_transformer_ :=
      match filter_policy_ with Some p => GetKeyTransformer p | None => None end in
    base <- SetupCacheKeyPrefix table_options_ base_file ;;
    let rep :=
      mkRep ioptions_ table_options_ filter_policy_ filter_key_transformer_
        internal_comparator_ base base footer_ None None None kNoFilter BlockHandle_default
        None (to_index_type table_options_) (to_hash_index_allow_collision table_options_)
        (to_whole_key_filtering table_options_) true in
    (* Read meta index *)
    m <- ReadMetaBlock base_file footer_ ;;
    match m with
    | (kOk, Some meta) =>
        (* Find filter handle and filter type. *)
        let '(fs, ft, fh) :=
          match filter_policy rep with
          | Some policy =>
              Open_find_filter meta (bytes (Name policy)) filter_block_prefixes
                (filter_type rep) (filter_handle rep)
          | None => (kOk, filter_type rep, filter_handle rep)
          end in
        if negb (ok fs) then ret (fs, None)
        else
          let rep := set_filter rep ft fh in
          (* Read the properties *)
          let piter := Seek (Block_NewIterator meta BytewiseCompare None true)
                         kPropertiesBlock in
          let found_properties_block :=
            Valid piter && bool_decide (key piter = kPropertiesBlock) in
          p <- (if found_properties_block
                then ReadProperties (value_ piter) base_file
                else ret (kOk, None)) ;;
          let '(s, props) := p in
          let props := if ok s then props else None in
          (* Determine whether whole key filtering is supported. *)
          let rep :=
            match props with
            | Some tp =>
                set_properties rep props
                  (whole_key_filtering rep && IsFeatureSupported tp kWholeKeyFiltering)
                  (prefix_filtering rep && IsFeatureSupported tp kPrefixFiltering)
            | None => rep
            end in
          if prefetch_index_and_filter
          then
            (* pre-fetching of blocks is turned on *)
            fi <- (if bool_decide (is_Some (filter_policy rep))
                      && FilterType_eqb (filter_type rep) kFixedSizeFilter
                   then CreateFilterIndexReader rep
                   else ret (kOk, None)) ;;
            let rep := set_readers rep (data_index_reader rep) (snd fi) (filter rep) in
            (* Will use block cache for index/filter blocks access? *)
            if cache_index_and_filter_blocks table_options_
            then
              match block_cache table_options_ with
              | None => undefined
              | Some c =>
                  (* Hack: Call NewIndexIterator() to implicitly add index to
                     the block_cache *)
                  iter <- NewIndexIterator rep ReadOptions_kDefault ;;
                  let s := it_status iter in
                  (if ok s
                   then
                     match filter_type rep with
                     | kFullFilter | kBlockBasedFilter =>
                         (* Hack: Call GetFilter() to implicitly add filter
                            to the block_cache *)
                         filter_entry <- GetFilter rep false None ;;
                         Release filter_entry (Some c) ;;; ret tt
                     | kFixedSizeFilter | kNoFilter =>
                         (* We never pre-cache fixed-size bloom filters. *)
                         ret tt
                     end
                   else ret tt) ;;;
                  DestroyIterator iter ;;;
                  if ok s then ret (s, Some rep) else ret (s, None)
              end
            else
              (* If we don't use block cache for index/filter blocks access,
                 we'll pre-load these blocks, which will kept in member
                 variables in Rep and with a same life-time as this table
                 object. *)
              d <- CreateDataBlockIndexReader rep (Some meta) ;;
              let '(s, data_index) := d in
              if ok s
              then
                f <- match filter_type rep with
                     | kFullFilter | kBlockBasedFilter =>
                         r <- ReadFilterBlock (filter_handle rep) rep ;; ret (fst r)
                     | kFixedSizeFilter | kNoFilter =>
                         (* We never pre-load fixed-size bloom filters. *)
                         ret None
                     end ;;
                ret (s, Some (set_readers rep data_index (filter_index_reader rep) f))
              else ret (s, None)
          else if ok s then ret (s, Some rep) else ret (s, None)
    | (s, _) => ret (s, None)
    end.

End Reader.

(** ** Tables opened one after another on shared caches *)

(** The cache-key prefixes set up as the files of [files] are opened in turn
    by readers sharing the table options (and so the caches). *)
Fixpoint SetupCacheKeyPrefixes (table_opt : BlockBasedTableOptions) (files : list File)
  : M (list FileReaderWithCachePrefix) :=
  match files with
  | [] => ret []
  | f :: rest =>
      r <- SetupCacheKeyPrefix table_opt f ;;
      rs <- SetupCacheKeyPrefixes table_opt rest ;;
      ret (r :: rs)
  end.

(** ** Notions used in the statements *)

(** Whether the meta-index holds a decodable handle under the filter-block
    name made of [prefix] and the policy name. *)
Definition filter_found (meta : Block) (policy_name prefix : Slice) : bool :=
  ok (fst (FindMetaBlock meta (prefix ++ policy_name))).

(** The filter type the first candidate found stands for. *)
Definition first_filter_type (meta : Block) (policy_name : Slice) : FilterType :=
  if filter_found meta policy_name kFullFilterBlockPrefix then kFullFilter
  else if filter_found meta policy_name kFilterBlockPrefix then kBlockBasedFilter
  else if filter_found meta policy_name kFixedSizeFilterBlockPrefix then kFixedSizeFilter
  else kNoFilter.

(** Every insert a cache refused so far has had its value deleted, but for
    the pending one [o] (if any). *)
Definition freed (o : option HeapObject) (w : World) : Prop :=
  forall c k v, In (c, k, v) (failed_inserts w) ->
                In (heap_of v) (deleted w) \/ o = Some (heap_of v).

Definition freed_all : World -> Prop := freed None.

(** Hoare triples over the monad. *)
Definition triple {A} (P : World -> Prop) (m : M A) (Q : A -> World -> Prop) : Prop :=
  forall w a w', P w -> m w = Some (a, w') -> Q a w'.

(** A value refused by a cache that is an uncompressed block. *)
Definition uncompressed_block (x : CachePtr * Slice * CacheValue) : Prop :=
  match snd x with
  | CVBlock b => compression_type b = kNoCompression
  | _ => False
  end.

(** Index entries whose key is below [end_]. *)
Definition below (cmp : Comparator) (end_ : Slice) (x : Slice * Slice) : bool :=
  cmp (fst x) end_ <? 0.

(** Once an index entry is at or past [end_], so are all later ones (as in an
    index ordered by the comparator). *)
Fixpoint ordered_past_end (cmp : Comparator) (end_ : Slice) (es : list (Slice * Slice))
  : bool :=
  match es with
  | [] => true
  | x :: r =>
      (below cmp end_ x || forallb (fun y => negb (below cmp end_ y)) r)
      && ordered_past_end cmp end_ r
  end.

(** The blocks a prefetch up to [end_] is to load: those of the entries below
    [end_], then the boundary block, the first entry at or past [end_]. *)
Definition prefetch_blocks (cmp : Comparator) (end_ : Slice) (es : list (Slice * Slice))
  : list (Slice * Slice) :=
  List.filter (below cmp end_) es
  ++ take 1 (List.filter (fun x => negb (below cmp end_ x)) es).

Definition loaded_ok (es : list (Slice * Slice)) : list (Slice * Status) :=
  rev (map (fun x => (snd x, kOk)) es).

(** Releasing an entry [n] times in a row. *)
Fixpoint Release_times {TValue} (n : nat) (e : CachableEntry.t TValue)
  (cache : option CachePtr) : M (CachableEntry.t TValue) :=
  match n with
  | O => ret e
  | S n' => e' <- Release e cache ;; Release_times n' e' cache
  end.

(** The data-block index is resident neither in the reader nor in the block
    cache. *)
Definition index_not_resident (rep : Rep) (w : World) : Prop :=
  data_index_reader rep = None
  /\ exists c k,
      block_cache (table_options rep) = Some c
      /\ GetCacheKey (cache_key_prefix (base_reader_with_cache_prefix rep))
           (index_handle (footer rep)) = Some k
      /\ table (cache_of c w) !! k = None.

(** ** Notions used in the proofs *)

#[export] Instance CachePtr_eq_dec : EqDecision CachePtr.
Proof. solve_decision. Defined.

(** A computation leaves the observation [f] of the world as it was. *)
Definition preserves {X A} (f : World -> X) (m : M A) : Prop :=
  forall w a w', m w = Some (a, w') -> f w' = f w.

(** Every value a computation returns satisfies [P]. *)
Definition returns {A} (P : A -> Prop) (m : M A) : Prop :=
  forall w a w', m w = Some (a, w') -> P a.

(** A computation during which no cache refuses an insert and nothing
    deleted is forgotten. *)
Definition quiet {A} (m : M A) : Prop :=
  forall w a w', m w = Some (a, w') ->
    failed_inserts w' = failed_inserts w /\ incl (deleted w) (deleted w').

Definition stable (P : World -> Prop) : Prop :=
  forall w w', failed_inserts w' = failed_inserts w -> incl (deleted w) (deleted w') ->
               P w -> P w'.

(** An index iterator either is positioned over a block, with an OK status,
    or carries a status and ranges over nothing. *)
Definition ok_or_empty (it : BlockIter) : Prop :=
  it_status it = kOk \/ it_entries it = [].

(** In a log of opened blocks, newest first, only the block opened last can
    have answered Incomplete. *)
Definition incomplete_is_last (news : list (Slice * Status)) : Prop :=
  Forall (fun x => snd x <> kIncomplete) (tail news).

(** The last id a cache has allocated. *)
Definition lid (c : CachePtr) (w : World) : Z := last_id (cache_of c w).

(** What a reader's prefix for the uncompressed cache looks like: the three
    varints of the OS identity, or the varint of an id the cache allocated
    between two points in time. *)
Definition prefix_shape (lo hi : Z) (r : FileReaderWithCachePrefix) : Prop :=
  match unique_id (reader r) with
  | Some (d, n, g) =>
      cache_key_prefix r = EncodeVarint64 d ++ EncodeVarint64 n ++ EncodeVarint64 g
  | None => exists id, cache_key_prefix r = EncodeVarint64 id /\ lo < id <= hi
  end.

(** No two distinct blocks of the readers [rs] have the same cache key: equal
    keys mean equal offsets in the same reader, or in two readers of one file
    (the same OS identity). *)
Definition keys_unique (rs : list FileReaderWithCachePrefix) : Prop :=
  forall i j ri rj hi hj k,
    rs !! i = Some ri -> rs !! j = Some rj ->
    GetCacheKey (cache_key_prefix ri) hi = Some k ->
    GetCacheKey (cache_key_prefix rj) hj = Some k ->
    offset hi = offset hj /\
    (i = j \/ (is_Some (unique_id (reader ri)) /\
               unique_id (reader ri) = unique_id (reader rj))).

Definition empty_entry {T} : CachableEntry.t T := CachableEntry.mk None None.

Definition none_uncompressed (l : list (CachePtr * Slice * CacheValue)) : Prop :=
  Forall (fun x => ~ uncompressed_block x) l.

(** The data block at [h] has an entry in a block cache of the table, under
    the cache key of the block. *)
Definition block_resident (rep : Rep) (h : BlockHandle) (w : World) : Prop :=
  (exists c k,
      block_cache (table_options rep) = Some c
      /\ GetCacheKey (cache_key_prefix (data_reader_with_cache_prefix rep)) h = Some k
      /\ is_Some (table (cache_of c w) !! k))
  \/ (exists cc k,
         block_cache_compressed (table_options rep) = Some cc
         /\ GetCacheKey (compressed_cache_key_prefix (data_reader_with_cache_prefix rep)) h
            = Some k
         /\ is_Some (table (cache_of cc w) !! k)).

(** From [w] to [w'] the data block that [index_value] names has been loaded:
    the handle decodes; the block has been read from the data file, by the
    one read issued in between, or no read has been issued and the block was
    in a block cache; and on a table with an uncompressed block cache the
    block is in that cache at [w'], unless the file marks it as not
    cachable. *)
Definition block_loaded (rep : Rep) (w w' : World) (index_value : Slice) : Prop :=
  exists h,
    DecodeFrom index_value = (kOk, h)
    /\ ((file_reads w'
         = (file_number (reader (data_reader_with_cache_prefix rep)), h) :: file_reads w
         /\ exists raw,
             blocks (reader (data_reader_with_cache_prefix rep)) !! offset h
             = Some (kOk, raw))
        \/ (file_reads w' = file_reads w /\ block_resident rep h w))
    /\ forall c,
        block_cache (table_options rep) = Some c ->
        exists k,
          GetCacheKey (cache_key_prefix (data_reader_with_cache_prefix rep)) h = Some k
          /\ (is_Some (table (cache_of c w') !! k)
              \/ exists raw,
                  blocks (reader (data_reader_with_cache_prefix rep)) !! offset h
                  = Some (kOk, raw)
                  /\ cachable raw = false).

(** From [w] to [w'] the data blocks of the index entries [es] have been
    loaded one after the other, in the order of [es], and nothing else has
    been read or has changed in a cache. *)
Fixpoint loaded_in_order (rep : Rep) (es : list (Slice * Slice)) (w w' : World) : Prop :=
  match es with
  | [] =>
      file_reads w' = file_reads w
      /\ forall c, table (cache_of c w') = table (cache_of c w)
  | x :: rest =>
      exists w1, block_loaded rep w w1 (snd x) /\ loaded_in_order rep rest w1 w'
  end.

(** What a prefetch over the data blocks of the index entries [es], started
    at [w], has done when it ends at [w'] with the status [s]: with OK it has
    loaded all of them in order; with a failure it has loaded those before
    the block [x] at position [n], and the open of [x], which has failed
    with [s], has issued at most one read.  The log of opened blocks tells
    the same. *)
Definition prefetched (rep : Rep) (es : list (Slice * Slice)) (w : World) (s : Status)
  (w' : World) : Prop :=
  (s = kOk
   /\ opened w' = loaded_ok es ++ opened w
   /\ loaded_in_order rep es w w')
  \/ (ok s = false
      /\ exists n x wn,
          es !! n = Some x
          /\ opened w' = (snd x, s) :: loaded_ok (take n es) ++ opened w
          /\ loaded_in_order rep (take n es) w wn
          /\ (file_reads w' = file_reads wn
              \/ file_reads w'
                 = (file_number (reader (data_reader_with_cache_prefix rep)),
                    snd (DecodeFrom (snd x))) :: file_reads wn)).

(** What a prefetch up to [end_] over the index entries [es] does: it loads
    the blocks of the entries below [end_] and the boundary block. *)
Definition prefetch_outcome (rep : Rep) (end_ : Slice) (es : list (Slice * Slice))
  (w : World) (s : Status) (w' : World) : Prop :=
  prefetched rep (prefetch_blocks (internal_comparator rep) end_ es) w s w'.

(** ** Example tables *)

(** A builder of the hash auxiliary that always fails, so that a hash index
    reader falls back on binary search. *)
Definition no_hash_auxiliary (_ : option SliceTransform) (_ _ : Block)
  : Status * (Slice -> nat) := (kCorruption, fun _ => O).

Definition ikey (user_key : string) : Slice := InternalKey_Encode (bytes user_key) 7 kTypeValue.

Definition plain_block (es : list (Slice * Slice)) : Block :=
  mkBlock es kNoCompression true true.

(** The filter block of the example table: it holds the user keys apple and
    mango. *)
Definition example_filter : FilterContents :=
  mkFilterContents kOk 64
    (fun _ _ _ =>
       FilterBlockReader.mk
         (fun k _ => bool_decide (k = bytes "apple") || bool_decide (k = bytes "mango"))
         (fun _ _ => true) 64).

(** A table with two data blocks, a fixed-size filter whose filter index
    covers the keys up to "q", and a properties block recording a hash index. *)
Definition example_file : File :=
  mkFile 1 (Some (8, 42, 1))
    (kOk, mkFooter (mkHandle 500 60) (mkHandle 400 80) 2)
    (list_to_map
       [ (0, (kOk, plain_block [(ikey "apple", bytes "red")]));
         (100, (kOk, plain_block [(ikey "mango", bytes "green")]));
         (300, (kOk, plain_block [(bytes "q", EncodeTo (mkHandle 200 64))]));
         (400, (kOk, plain_block [(ikey "apple", EncodeTo (mkHandle 0 90));
                                  (ikey "mango", EncodeTo (mkHandle 100 90))]));
         (500, (kOk, plain_block [(bytes "fixedsizefilter.P", EncodeTo (mkHandle 300 40));
                                  (bytes "rocksdb.properties", EncodeTo (mkHandle 600 30))]));
         (600, (kOk, plain_block [(kIndexType, [1; 0; 0; 0])])) ])
    (list_to_map [ (200, example_filter) ]).

Definition example_policy : FilterPolicy := mkPolicy "P" None.

Definition first_byte : SliceTransform := mkTransform (take 1) (fun _ => true).

(** Options with the uncompressed block cache, and the same without it. *)
Definition options_with_cache : BlockBasedTableOptions :=
  mkTableOptions false (Some BlockCache) None (Some example_policy) true kBinarySearch false.
Definition options_without_cache : BlockBasedTableOptions :=
  mkTableOptions false None None (Some example_policy) true kBinarySearch false.
(** Options that keep index and filter in the block cache. *)
Definition options_cache_index_and_filter : BlockBasedTableOptions :=
  mkTableOptions true (Some BlockCache) None (Some example_policy) true kBinarySearch false.

Definition empty_cache (admits : bool) : Cache := mkCache ∅ (fun _ => admits) 0 [].

(** A fresh world, and one whose uncompressed cache refuses every insert. *)
Definition fresh_world : World :=
  mkWorld (empty_cache true) (empty_cache true) [] [] [] [] [].
Definition full_cache_world : World :=
  mkWorld (empty_cache false) (empty_cache true) [] [] [] [] [].

Definition blank_rep : Rep :=
  mkRep (mkIOptions None) options_without_cache None None BytewiseCompare
    (mkReader example_file [] []) (mkReader example_file [] [])
    (mkFooter (mkHandle 500 60) (mkHandle 400 80) 2) None None None kNoFilter
    BlockHandle_default None kBinarySearch false true true.

Definition opened_rep (r : option (Status * option Rep * World)) : Rep :=
  match r with
  | Some (_, Some rep, _) => rep
  | _ => blank_rep
  end.

Definition world_after {A} (r : option (A * World)) : World :=
  match r with
  | Some (_, w) => w
  | None => fresh_world
  end.

(** The example table opened with a block cache and a prefix extractor. *)
Definition open_cached :=
  Open no_hash_auxiliary no_hash_auxiliary (mkIOptions (Some first_byte)) options_with_cache
    BytewiseCompare example_file true false fresh_world.
Definition rep_cached : Rep := opened_rep open_cached.
Definition world_cached : World := world_after open_cached.

(** The example table opened without a block cache and a prefix extractor. *)
Definition open_uncached :=
  Open no_hash_auxiliary no_hash_auxiliary (mkIOptions None) options_without_cache
    BytewiseCompare example_file true false fresh_world.
Definition rep_uncached : Rep := opened_rep open_uncached.
Definition world_uncached : World := world_after open_uncached.

(** The same table written with a full filter, opened with index and filter
    kept in the block cache and nothing prefetched. *)
Definition example_file_full : File :=
  mkFile 2 (Some (8, 43, 1))
    (kOk, mkFooter (mkHandle 500 60) (mkHandle 400 80) 2)
    (list_to_map
       [ (0, (kOk, plain_block [(ikey "apple", bytes "red")]));
         (100, (kOk, plain_block [(ikey "mango", bytes "green")]));
         (400, (kOk, plain_block [(ikey "apple", EncodeTo (mkHandle 0 90));
                                  (ikey "mango", EncodeTo (mkHandle 100 90))]));
         (500, (kOk, plain_block [(bytes "fullfilter.P", EncodeTo (mkHandle 200 64))])) ])
    (list_to_map [ (200, example_filter) ]).

Definition open_full :=
  Open no_hash_auxiliary no_hash_auxiliary (mkIOptions (Some first_byte))
    options_cache_index_and_filter BytewiseCompare example_file_full false false fresh_world.
Definition rep_full : Rep := opened_rep open_full.
Definition world_full : World := world_after open_full.

(** A file the OS gives no identity for. *)
Definition anonymous_file : File :=
  mkFile 3 None (kOk, mkFooter (mkHandle 500 60) (mkHandle 400 80) 2) ∅ ∅.

(** Read options of a caller that must not block on I/O. *)
Definition no_io_options : ReadOptions := mkReadOptions kBlockCacheTier true false false true.

(** A get context that takes the first entry it is shown. *)
Definition first_entry_context : GetContext := mkGetContext [] false (fun _ _ => false).

(** A wrapped iterator that only counts the seeks it is asked for. *)
Definition counting_Seek (n : nat) (_ : Slice) : M nat := ret (S n).
Definition counting_Valid (_ : nat) : bool := true.

Definition example_bloom_iterator : BloomFilterAwareIterator nat :=
  mkBloomIter nat rep_cached ReadOptions_kDefault false 0%nat false.

(** The table of the prefetch scenario: index keys C, H, P, Z, no cache. *)
Definition alphabet_file : File :=
  mkFile 4 None (kOk, mkFooter (mkHandle 500 60) (mkHandle 400 80) 2)
    (list_to_map
       [ (0, (kOk, plain_block [(bytes "C", bytes "c")]));
         (100, (kOk, plain_block [(bytes "H", bytes "h")]));
         (200, (kOk, plain_block [(bytes "P", bytes "p")]));
         (300, (kOk, plain_block [(bytes "Z", bytes "z")])) ])
    ∅.

Definition alphabet_index : list (Slice * Slice) :=
  [ (bytes "C", EncodeTo (mkHandle 0 10));
    (bytes "H", EncodeTo (mkHandle 100 10));
    (bytes "P", EncodeTo (mkHandle 200 10));
    (bytes "Z", EncodeTo (mkHandle 300 10)) ].

Definition alphabet_rep : Rep :=
  mkRep (mkIOptions None)
    (mkTableOptions false None None None true kBinarySearch false) None None BytewiseCompare
    (mkReader alphabet_file [] []) (mkReader alphabet_file [] [])
    (mkFooter (mkHandle 500 60) (mkHandle 400 80) 2)
    (Some (mkIndexReader BinarySearchIndex BytewiseCompare (plain_block alphabet_index) None))
    None None kNoFilter BlockHandle_default None kBinarySearch false true true.

(** The runs the examples are about. *)
Definition probe_full :=
  PrefixMayMatch no_hash_auxiliary no_hash_auxiliary rep_full (ikey "apple") world_full.
Definition probe_cached :=
  PrefixMayMatch no_hash_auxiliary no_hash_auxiliary rep_cached (ikey "apple") world_cached.
Definition get_cached :=
  Get no_hash_auxiliary no_hash_auxiliary rep_cached no_io_options (ikey "apple")
    first_entry_context false world_cached.
Definition get_cached_result : Status * GetContext * World :=
  match get_cached with
  | Some r => r
  | None => (kIOError, first_entry_context, world_cached)
  end.
Definition prefetch_alphabet :=
  Prefetch no_hash_auxiliary no_hash_auxiliary alphabet_rep (Some (bytes "B"))
    (Some (bytes "K")) fresh_world.
Definition setup_two_files :=
  SetupCacheKeyPrefixes options_with_cache [example_file; anonymous_file] fresh_world.
Definition open_refused :=
  NewDataBlockIterator rep_cached ReadOptions_kDefault (EncodeTo (mkHandle 0 90))
    full_cache_world.
Definition seek_zebra :=
  BloomFilterAwareIterator_Seek nat counting_Seek counting_Valid example_bloom_iterator
    (ikey "zebra") world_cached.

Definition filter_index_of (rep : Rep) : IndexReader :=
  match filter_index_reader rep with
  | Some r => r
  | None => mkIndexReader BinarySearchIndex BytewiseCompare (plain_block []) None
  end.

(** * Further operations of the reader *)

(** A call made with a null [Statistics] pointer: the ticks it would record
    are dropped ([RecordTick] does nothing on a null pointer). *)
Definition with_null_statistics {A} (m : M A) : M A :=
  fun w =>
    match m w with
    | Some (a, w') =>
        Some (a, mkWorld (block_cache_state w') (block_cache_compressed_state w')
                         (file_reads w') (ticks w) (deleted w') (opened w')
                         (failed_inserts w'))
    | None => None
    end.

Definition set_data_reader (rep : Rep) (r : FileReaderWithCachePrefix) : Rep :=
  mkRep (ioptions rep) (table_options rep) (filter_policy rep) (filter_key_transformer rep)
    (internal_comparator rep) (base_reader_with_cache_prefix rep) r (footer rep)
    (data_index_reader rep) (filter_index_reader rep) (filter rep) (filter_type rep)
    (filter_handle rep) (table_properties rep) (index_type rep)
    (hash_index_allow_collision rep) (whole_key_filtering rep) (prefix_filtering rep).

(** [BlockBasedTable::SetDataFileReader]. *)
Definition SetDataFileReader (rep_ : Rep) (data_file : File) : M Rep :=
  r <- SetupCacheKeyPrefix (table_options rep_) data_file ;;
  ret (set_data_reader rep_ r).

(** [BlockBasedTable::TEST_filter_block_preloaded] and
    [BlockBasedTable::TEST_index_reader_preloaded]. *)
Definition TEST_filter_block_preloaded (rep_ : Rep) : bool :=
  bool_decide (is_Some (filter rep_)).
Definition TEST_index_reader_preloaded (rep_ : Rep) : bool :=
  bool_decide (is_Some (data_index_reader rep_)).

Section Queries.

Variable CreateBlockHashIndex :
  option SliceTransform -> Block -> Block -> Status * (Slice -> nat).
Variable BlockPrefixIndex_Create :
  option SliceTransform -> Block -> Block -> Status * (Slice -> nat).

(** [BlockBasedTable::TEST_KeyInCache]; the four assertions are the ways it
    goes wrong. *)
Definition TEST_KeyInCache (rep_ : Rep) (options : ReadOptions) (key_ : Slice) : M bool :=
  it <- NewIndexIterator CreateBlockHashIndex BlockPrefixIndex_Create rep_ options ;;
  let iiter := Seek it key_ in
  if negb (Valid iiter) then undefined
  else
    let '(s, handle) := DecodeFrom (value_ iiter) in
    if negb (ok s) then undefined
    else
      match block_cache (table_options rep_) with
      | None => undefined
      | Some c =>
          cache_key <- lift (GetCacheKey
                               (cache_key_prefix (data_reader_with_cache_prefix rep_))
                               handle) ;;
          let ckey : Slice := [] in
          g <- with_null_statistics
                 (GetDataBlockFromCache cache_key ckey (Some c) None options) ;;
          let '(s, block) := g in
          if negb (ok s) then undefined
          else
            let in_cache := bool_decide (is_Some (value block)) in
            (if in_cache
             then match cache_handle block with
                  | Some h => Cache_Release c h
                  | None => undefined
                  end
             else ret tt) ;;;
            DestroyIterator iiter ;;;
            ret in_cache
      end.

(** [TableProperties::data_size] (table_properties.h is not under src/). *)
Variable data_size : TableProperties -> Z.

(** [BlockBasedTable::ApproximateOffsetOf]. *)
Definition ApproximateOffsetOf (rep_ : Rep) (key_ : Slice) : M Z :=
  it <- NewIndexIterator CreateBlockHashIndex BlockPrefixIndex_Create rep_
          ReadOptions_kDefault ;;
  let index_iter := Seek it key_ in
  let result :=
    if Valid index_iter
    then
      let '(s, handle) := DecodeFrom (value_ index_iter) in
      if ok s then offset handle
      else
        (* Strange: we can't decode the block handle in the index block.
           We'll just return the offset of the metaindex block, which is
           close to the whole file size for this case. *)
        offset (metaindex_handle (footer rep_))
    else
      (* key is past the last key in the file. *)
      let result := match table_properties rep_ with
                    | Some props => data_size props
                    | None => 0
                    end in
      (* table_properties is not present in the table. *)
      if result =? 0 then offset (metaindex_handle (footer rep_)) else result in
  DestroyIterator index_iter ;;;
  ret result.

(** [BlockBasedTable::BlockEntryIteratorState]. *)
Record BlockEntryIteratorState := mkIteratorState {
  state_table_ : Rep;
  state_read_options_ : ReadOptions;
  state_skip_filters_ : bool
}.

Definition NewSecondaryIterator (st : BlockEntryIteratorState) (index_value : Slice)
  : M BlockIter :=
  NewDataBlockIterator (state_table_ st) (state_read_options_ st) index_value.

Definition BlockEntryIteratorState_PrefixMayMatch (st : BlockEntryIteratorState)
  (internal_key : Slice) : M bool :=
  if total_order_seek (state_read_options_ st) || state_skip_filters_ st then ret true
  else PrefixMayMatch CreateBlockHashIndex BlockPrefixIndex_Create (state_table_ st)
         internal_key.

End Queries.

(** ** Further example runs *)

Definition iter_after (r : option (BlockIter * World)) : BlockIter :=
  match r with
  | Some (it, _) => it
  | None => NewErrorInternalIterator kIOError
  end.

(** Read options with fill_cache off. *)
Definition no_fill_options : ReadOptions := mkReadOptions kReadAllTier false false false true.

(** The first data block of the example table, opened through the cache,
    opened again without blocking reads, and opened with fill_cache off. *)
Definition apple_handle : BlockHandle := mkHandle 0 90.
Definition open_apple :=
  NewDataBlockIterator rep_cached ReadOptions_kDefault (EncodeTo apple_handle) world_cached.
Definition world_apple : World := world_after open_apple.
Definition reopen_apple :=
  NewDataBlockIterator rep_cached no_io_options (EncodeTo apple_handle) world_apple.
Definition open_apple_no_fill :=
  NewDataBlockIterator rep_cached no_fill_options (EncodeTo apple_handle) world_cached.

(** ** Notions used in the further statements *)

(** The offset [ApproximateOffsetOf] answers for a key past the last index
    entry: the data size recorded in the properties, or the offset of the
    meta-index block when there is none. *)
Definition end_offset (data_size : TableProperties -> Z) (rep : Rep) : Z :=
  match table_properties rep with
  | Some props => if data_size props =? 0 then offset (metaindex_handle (footer rep))
                  else data_size props
  | None => offset (metaindex_handle (footer rep))
  end.

(** The handles of the index entries decode, and their offsets grow along
    the index and stay below [bound]. *)
Fixpoint increasing_offsets (es : list (Slice * Slice)) (bound : Z) : Prop :=
  match es with
  | [] => True
  | e :: rest =>
      fst (DecodeFrom (snd e)) = kOk
      /\ offset (snd (DecodeFrom (snd e)))
         <= match rest with
            | [] => bound
            | e' :: _ => offset (snd (DecodeFrom (snd e')))
            end
      /\ increasing_offsets rest bound
  end.

(** [key1] is not above [key2] as far as the keys of [es] can tell. *)
Definition not_above (cmp : Comparator) (es : list (Slice * Slice)) (key1 key2 : Slice)
  : Prop :=
  forall e, In e es -> cmp (fst e) key1 < 0 -> cmp (fst e) key2 < 0.

(** The offset answered for the position [p] of the index. *)
Definition offset_at (es : list (Slice * Slice)) (bound : Z) (p : nat) : Z :=
  match es !! p with
  | Some e => offset (snd (DecodeFrom (snd e)))
  | None => bound
  end.

(** The example table probed for the key apple once its block is cached. *)
Definition index_iterator_apple :=
  NewIndexIterator no_hash_auxiliary no_hash_auxiliary rep_cached ReadOptions_kDefault
    world_apple.
Definition key_in_cache_apple :=
  TEST_KeyInCache no_hash_auxiliary no_hash_auxiliary rep_cached ReadOptions_kDefault
    (ikey "apple") world_apple.

(** Properties that record no data size. *)
Definition no_data_size (_ : TableProperties) : Z := 0.

(** The counters that tell of a filter being looked up or probed. *)
Definition filter_counter (t : Tickers) : bool :=
  match t with
  | BLOOM_FILTER_CHECKED | BLOOM_FILTER_USEFUL
  | BLOCK_CACHE_FILTER_MISS | BLOCK_CACHE_FILTER_HIT => true
  | _ => false
  end.

(** ** Further example runs *)

Definition result_after {A} (default : A) (r : option (A * World)) : A :=
  match r with
  | Some (a, _) => a
  | None => default
  end.

(** The index of the example table, as Open pre-loads it. *)
Definition example_index : IndexReader :=
  mkIndexReader BinarySearchIndex BytewiseCompare
    (plain_block [(ikey "apple", EncodeTo (mkHandle 0 90));
                  (ikey "mango", EncodeTo (mkHandle 100 90))]) None.

(** Point lookups: apple on the table without caches, filters skipped; zebra
    on the table with a full filter; a key past the alphabet table. *)
Definition get_apple_uncached :=
  Get no_hash_auxiliary no_hash_auxiliary rep_uncached ReadOptions_kDefault (ikey "apple")
    first_entry_context true world_uncached.
Definition get_zebra_full :=
  Get no_hash_auxiliary no_hash_auxiliary rep_full ReadOptions_kDefault (ikey "zebra")
    first_entry_context false world_full.
Definition get_past_alphabet :=
  Get no_hash_auxiliary no_hash_auxiliary alphabet_rep ReadOptions_kDefault (bytes "a")
    first_entry_context true fresh_world.

(** A prefix probe the fixed-size filter index answers in the negative. *)
Definition probe_zebra :=
  PrefixMayMatch no_hash_auxiliary no_hash_auxiliary rep_cached (ikey "zebra") world_cached.

(** Prefetch from apple to the end of the example table opened with a block
    cache. *)
Definition prefetch_cached :=
  Prefetch no_hash_auxiliary no_hash_auxiliary rep_cached (Some (ikey "apple")) None
    world_cached.

(** A hash index reader created over the index block of the example table,
    with a meta-index that names no prefixes block. *)
Definition create_hash_index :=
  HashIndexReader_Create no_hash_auxiliary no_hash_auxiliary (Some first_byte) example_file
    BytewiseCompare (mkHandle 400 80)
    (plain_block [(bytes "fixedsizefilter.P", EncodeTo (mkHandle 300 40))]) false
    fresh_world.

(** The full filter fetched through the block cache. *)
Definition get_filter_full := GetFilter rep_full false None world_full.
Definition filter_entry_full : CachableEntry.t FilterBlockReader.t :=
  result_after (CachableEntry.mk None None) get_filter_full.
Definition filter_handle_full : Handle :=
  match cache_handle filter_entry_full with
  | Some h => h
  | None => mkCacheHandle [] (CVBlock (plain_block []))
  end.

(** A world whose compressed block cache holds the first data block. *)
Definition compressed_apple : Block :=
  mkBlock [(ikey "apple", bytes "red")] kSnappyCompression true true.
Definition world_compressed : World :=
  mkWorld (empty_cache true)
    (mkCache {[ [9] := CVBlock compressed_apple ]} (fun _ => true) 0 [])
    [] [] [] [] [].
Definition lookup_compressed :=
  GetDataBlockFromCache [8] [9] (Some BlockCache) (Some BlockCacheCompressed)
    ReadOptions_kDefault world_compressed.

(** The example table given the alphabet file as its data file, and a data
    block opened from it. *)
Definition set_data_alphabet := SetDataFileReader rep_uncached alphabet_file world_uncached.
Definition rep_split : Rep := result_after blank_rep set_data_alphabet.
Definition open_split :=
  NewDataBlockIterator rep_split ReadOptions_kDefault (EncodeTo (mkHandle 100 10))
    world_uncached.

Lemma bind_Some {A B} (m : M A) (k : A -> M B) w b w' :
  bind m k w = Some (b, w') ->
  exists a w1, m w = Some (a, w1) /\ k a w1 = Some (b, w').
Proof.
  unfold bind. destruct (m w) as [[a w1] |]; [| discriminate].
  intros H. exists a, w1. split; [reflexivity | exact H].
Qed.

Lemma ret_Some {A} (a b : A) w w' : ret a w = Some (b, w') -> a = b /\ w = w'.
Proof. unfold ret. intros H. injection H as -> ->. split; reflexivity. Qed.

Ltac inv_bind H :=
  let a := fresh "a" in
  let w1 := fresh "w" in
  let H1 := fresh "Hstep" in
  apply bind_Some in H; destruct H as (a & w1 & H1 & H).

Ltac inv_ret H :=
  apply ret_Some in H;
  let E := fresh "E" in
  destruct H as [E ?]; inversion E; subst; try clear E.

(** ** Frame properties: what a computation leaves untouched *)

Lemma preserves_ret {X A} (f : World -> X) (a : A) : preserves f (ret a).
Proof. intros w b w' H. inv_ret H. reflexivity. Qed.

Lemma preserves_undefined {X A} (f : World -> X) : preserves f (@undefined A).
Proof. intros w b w' H. discriminate H. Qed.

Lemma preserves_lift {X A} (f : World -> X) (o : option A) : preserves f (lift o).
Proof. intros w b w' H. unfold lift in H. destruct o; [| discriminate]. now injection H as <- <-. Qed.

Lemma preserves_bind {X A B} (f : World -> X) (m : M A) (k : A -> M B) :
  preserves f m -> (forall a, preserves f (k a)) -> preserves f (bind m k).
Proof.
  intros Hm Hk w b w' H. inv_bind H.
  rewrite (Hk _ _ _ _ H). eapply Hm. eassumption.
Qed.

Create HintDb frame.

Ltac frame_step :=
  first
    [ apply preserves_ret
    | apply preserves_undefined
    | apply preserves_lift
    | apply preserves_bind; [| intros ?]
    | solve [auto with frame nocore]
    | progress cbv zeta
    | match goal with
      | |- preserves _ (match ?x with _ => _ end) => destruct x eqn:?
      | |- preserves _ (let '(_, _) := ?x in _) => destruct x eqn:?
      end ].

Ltac frame := repeat frame_step.

Lemma file_reads_set_cache c s w : file_reads (set_cache c s w) = file_reads w.
Proof. destruct c; reflexivity. Qed.
Lemma opened_set_cache c s w : opened (set_cache c s w) = opened w.
Proof. destruct c; reflexivity. Qed.
Lemma ticks_set_cache c s w : ticks (set_cache c s w) = ticks w.
Proof. destruct c; reflexivity. Qed.
Lemma deleted_set_cache c s w : deleted (set_cache c s w) = deleted w.
Proof. destruct c; reflexivity. Qed.

(** The cache operations touch neither the file, nor the log of opened blocks. *)
Lemma Lookup_same c k w r w' : Lookup c k w = Some (r, w') -> w' = w.
Proof. unfold Lookup. intros H. now injection H as _ <-. Qed.

Lemma Lookup_preserves {X} (f : World -> X) c k : preserves f (Lookup c k).
Proof. intros w r w' H. apply Lookup_same in H. now subst. Qed.

Lemma Insert_file_reads c k v : preserves file_reads (Insert c k v).
Proof.
  intros w r w' H. unfold Insert in H. destruct (accepts (cache_of c w) k);
    injection H as _ <-; [apply file_reads_set_cache | reflexivity].
Qed.
Lemma Insert_opened c k v : preserves opened (Insert c k v).
Proof.
  intros w r w' H. unfold Insert in H. destruct (accepts (cache_of c w) k);
    injection H as _ <-; [apply opened_set_cache | reflexivity].
Qed.
Lemma Insert_ticks c k v : preserves ticks (Insert c k v).
Proof.
  intros w r w' H. unfold Insert in H. destruct (accepts (cache_of c w) k);
    injection H as _ <-; [apply ticks_set_cache | reflexivity].
Qed.
Lemma failed_inserts_set_cache c s w : failed_inserts (set_cache c s w) = failed_inserts w.
Proof. destruct c; reflexivity. Qed.
Lemma Cache_Release_file_reads c h : preserves file_reads (Cache_Release c h).
Proof. intros w r w' H. injection H as _ <-. apply file_reads_set_cache. Qed.
Lemma Cache_Release_opened c h : preserves opened (Cache_Release c h).
Proof. intros w r w' H. injection H as _ <-. apply opened_set_cache. Qed.
Lemma Cache_Release_ticks c h : preserves ticks (Cache_Release c h).
Proof. intros w r w' H. injection H as _ <-. apply ticks_set_cache. Qed.
Lemma RecordTick_file_reads t : preserves file_reads (RecordTick t).
Proof. intros w r w' H. now injection H as _ <-. Qed.
Lemma RecordTick_opened t : preserves opened (RecordTick t).
Proof. intros w r w' H. now injection H as _ <-. Qed.
Lemma delete_file_reads o : preserves file_reads (delete_ o).
Proof. intros w r w' H. now injection H as _ <-. Qed.
Lemma delete_opened o : preserves opened (delete_ o).
Proof. intros w r w' H. now injection H as _ <-. Qed.
Lemma delete_ticks o : preserves ticks (delete_ o).
Proof. intros w r w' H. now injection H as _ <-. Qed.
Lemma log_read_opened n h : preserves opened (log_read n h).
Proof. intros w r w' H. now injection H as _ <-. Qed.
Lemma log_read_ticks n h : preserves ticks (log_read n h).
Proof. intros w r w' H. now injection H as _ <-. Qed.
Lemma NewId_opened c : preserves opened (NewId c).
Proof. intros w r w' H. injection H as _ <-. apply opened_set_cache. Qed.

#[export] Hint Resolve Lookup_preserves Insert_file_reads Insert_opened Insert_ticks
  Cache_Release_file_reads Cache_Release_opened Cache_Release_ticks
  RecordTick_file_reads RecordTick_opened delete_file_reads delete_opened delete_ticks
  log_read_opened log_read_ticks NewId_opened : frame.

Lemma GetEntryFromCache_file_reads c k t1 t2 :
  preserves file_reads (GetEntryFromCache c k t1 t2).
Proof. unfold GetEntryFromCache. frame. Qed.
Lemma GetEntryFromCache_opened c k t1 t2 :
  preserves opened (GetEntryFromCache c k t1 t2).
Proof. unfold GetEntryFromCache. frame. Qed.

Lemma Release_file_reads {T} (e : CachableEntry.t T) c : preserves file_reads (Release e c).
Proof. unfold Release. frame. Qed.
Lemma Release_opened {T} (e : CachableEntry.t T) c : preserves opened (Release e c).
Proof. unfold Release. frame. Qed.
Lemma Release_ticks {T} (e : CachableEntry.t T) c : preserves ticks (Release e c).
Proof. unfold Release. frame. Qed.

Lemma run_cleanups_file_reads cs : preserves file_reads (run_cleanups cs).
Proof. induction cs as [| [c h | b] cs IH]; cbn [run_cleanups run_cleanup]; frame. Qed.
Lemma run_cleanups_opened cs : preserves opened (run_cleanups cs).
Proof. induction cs as [| [c h | b] cs IH]; cbn [run_cleanups run_cleanup]; frame. Qed.

Lemma DestroyIterator_file_reads it : preserves file_reads (DestroyIterator it).
Proof. apply run_cleanups_file_reads. Qed.
Lemma DestroyIterator_opened it : preserves opened (DestroyIterator it).
Proof. apply run_cleanups_opened. Qed.

#[export] Hint Resolve GetEntryFromCache_file_reads GetEntryFromCache_opened
  Release_file_reads Release_opened Release_ticks
  DestroyIterator_file_reads DestroyIterator_opened : frame.

Lemma as_filter_preserves {X} (f : World -> X) v : preserves f (as_filter v).
Proof. unfold as_filter. frame. Qed.
Lemma as_block_preserves {X} (f : World -> X) v : preserves f (as_block v).
Proof. unfold as_block. frame. Qed.
Lemma as_index_preserves {X} (f : World -> X) v : preserves f (as_index v).
Proof. unfold as_index. frame. Qed.
#[export] Hint Resolve as_filter_preserves as_block_preserves as_index_preserves : frame.

(** ** Counting ticks *)

Lemma tick_count_RecordTick t t' w w' :
  RecordTick t w = Some (tt, w') ->
  tick_count t' w' = if Tickers_eqb t' t then S (tick_count t' w) else tick_count t' w.
Proof.
  intros H. injection H as <-. unfold tick_count. cbn [ticks List.filter].
  destruct (Tickers_eqb t' t); reflexivity.
Qed.

Lemma RecordTick_tick_count_other t t' :
  Tickers_eqb t' t = false -> preserves (tick_count t') (RecordTick t).
Proof.
  intros Hne w [] w' H. rewrite (tick_count_RecordTick _ _ _ _ H), Hne. reflexivity.
Qed.

Lemma preserves_ticks_tick_count {A} (m : M A) t :
  preserves ticks m -> preserves (tick_count t) m.
Proof. intros Hm w a w' H. unfold tick_count. now rewrite (Hm _ _ _ H). Qed.

Lemma log_read_tick_count n h t : preserves (tick_count t) (log_read n h).
Proof. apply preserves_ticks_tick_count, log_read_ticks. Qed.
Lemma Insert_tick_count c k v t : preserves (tick_count t) (Insert c k v).
Proof. apply preserves_ticks_tick_count, Insert_ticks. Qed.
Lemma delete_tick_count o t : preserves (tick_count t) (delete_ o).
Proof. apply preserves_ticks_tick_count, delete_ticks. Qed.
Lemma Cache_Release_tick_count c h t : preserves (tick_count t) (Cache_Release c h).
Proof. apply preserves_ticks_tick_count, Cache_Release_ticks. Qed.
Lemma Release_tick_count {T} (e : CachableEntry.t T) c t :
  preserves (tick_count t) (Release e c).
Proof. apply preserves_ticks_tick_count, Release_ticks. Qed.

#[export] Hint Resolve RecordTick_tick_count_other log_read_tick_count Insert_tick_count
  delete_tick_count Cache_Release_tick_count Release_tick_count : frame.
#[export] Hint Extern 1 (Tickers_eqb _ _ = false) => reflexivity : frame.

Lemma GetEntryFromCache_tick_count c k t1 t2 t :
  Tickers_eqb t t1 = false -> Tickers_eqb t t2 = false ->
  preserves (tick_count t) (GetEntryFromCache c k t1 t2).
Proof. intros H1 H2. unfold GetEntryFromCache. frame. Qed.
#[export] Hint Resolve GetEntryFromCache_tick_count : frame.

Lemma ReadFilterBlock_tick_count h rep t : preserves (tick_count t) (ReadFilterBlock h rep).
Proof. unfold ReadFilterBlock. frame. Qed.
#[export] Hint Resolve ReadFilterBlock_tick_count : frame.

(** [GetFilter] only ticks the filter hit and miss counters of the cache. *)
Lemma GetFilter_tick_count rep no_io fk t :
  Tickers_eqb t BLOCK_CACHE_FILTER_MISS = false ->
  Tickers_eqb t BLOCK_CACHE_FILTER_HIT = false ->
  preserves (tick_count t) (GetFilter rep no_io fk).
Proof. intros H1 H2. unfold GetFilter. frame. Qed.

Lemma NonBlockBasedFilterKeyMayMatch_tick_count rep f fk t :
  Tickers_eqb t BLOOM_FILTER_CHECKED = false ->
  preserves (tick_count t) (NonBlockBasedFilterKeyMayMatch rep f fk).
Proof. intros H1. unfold NonBlockBasedFilterKeyMayMatch. frame. Qed.

(** ** The log of opened data blocks is written by the iterator factory only *)

Lemma ReadBlockContents_opened f h d : preserves opened (ReadBlockContents f h d).
Proof. unfold ReadBlockContents. frame. Qed.
#[export] Hint Resolve ReadBlockContents_opened : frame.

Lemma ReadBlockFromFile_opened f h d : preserves opened (ReadBlockFromFile f h d).
Proof. unfold ReadBlockFromFile. frame. Qed.
#[export] Hint Resolve ReadBlockFromFile_opened : frame.

Lemma ReadFilterBlock_opened h rep : preserves opened (ReadFilterBlock h rep).
Proof. unfold ReadFilterBlock. frame. Qed.
#[export] Hint Resolve ReadFilterBlock_opened : frame.

Lemma GetFilter_opened rep no_io fk : preserves opened (GetFilter rep no_io fk).
Proof. unfold GetFilter. frame. Qed.

Lemma NonBlockBasedFilterKeyMayMatch_opened rep f fk :
  preserves opened (NonBlockBasedFilterKeyMayMatch rep f fk).
Proof. unfold NonBlockBasedFilterKeyMayMatch. frame. Qed.

Lemma GetDataBlockFromCache_opened k ck c cc ro :
  preserves opened (GetDataBlockFromCache k ck c cc ro).
Proof. unfold GetDataBlockFromCache. frame. Qed.

Lemma PutDataBlockToCache_opened k ck c cc raw :
  preserves opened (PutDataBlockToCache k ck c cc raw).
Proof. unfold PutDataBlockToCache. frame. Qed.

Lemma BinarySearchIndexReader_Create_opened f h cmp :
  preserves opened (BinarySearchIndexReader_Create f h cmp).
Proof. unfold BinarySearchIndexReader_Create. frame. Qed.

#[export] Hint Resolve GetFilter_opened NonBlockBasedFilterKeyMayMatch_opened
  GetDataBlockFromCache_opened PutDataBlockToCache_opened
  BinarySearchIndexReader_Create_opened : frame.

Lemma NewDataBlockIterator_build_opened rep ro v :
  preserves opened (NewDataBlockIterator_build rep ro v).
Proof. unfold NewDataBlockIterator_build. frame. Qed.

Lemma NewDataBlockIterator_log rep ro v w it w' :
  NewDataBlockIterator rep ro v w = Some (it, w') ->
  opened w' = (v, it_status it) :: opened w.
Proof.
  intros H. unfold NewDataBlockIterator in H. inv_bind H. inv_bind H. inv_ret H.
  unfold log_open in Hstep0. injection Hstep0 as _ <-. cbn [opened].
  now rewrite (NewDataBlockIterator_build_opened _ _ _ _ _ _ Hstep).
Qed.

Section FrameWithBuilders.
Variable CreateBlockHashIndex :
  option SliceTransform -> Block -> Block -> Status * (Slice -> nat).
Variable BlockPrefixIndex_Create :
  option SliceTransform -> Block -> Block -> Status * (Slice -> nat).

Lemma HashIndexReader_Create_opened pe f cmp h mi ac :
  preserves opened
    (HashIndexReader_Create CreateBlockHashIndex BlockPrefixIndex_Create pe f cmp h mi ac).
Proof. unfold HashIndexReader_Create. frame. Qed.

Lemma CreateDataBlockIndexReader_opened rep mi :
  preserves opened
    (CreateDataBlockIndexReader CreateBlockHashIndex BlockPrefixIndex_Create rep mi).
Proof.
  pose proof HashIndexReader_Create_opened.
  unfold CreateDataBlockIndexReader, ReadMetaBlock. frame.
Qed.

Lemma NewIndexIterator_opened rep ro :
  preserves opened (NewIndexIterator CreateBlockHashIndex BlockPrefixIndex_Create rep ro).
Proof.
  pose proof CreateDataBlockIndexReader_opened.
  unfold NewIndexIterator. frame.
Qed.
End FrameWithBuilders.

(** ** Varints are injective and self-delimiting *)

Lemma land_127_lt v : 0 <= Z.land v 127 < 128.
Proof.
  change 127 with (Z.ones 7). rewrite Z.land_ones by lia.
  change (2 ^ 7) with 128. apply Z.mod_pos_bound. lia.
Qed.

Lemma lor_128 x : 0 <= x < 128 -> Z.lor x 128 = x + 128.
Proof.
  intros Hx.
  assert (Hland : Z.land x 128 = 0).
  { apply Z.bits_inj'. intros n Hn. rewrite Z.land_spec, Z.bits_0.
    destruct (Z.eq_dec n 7) as [-> | Hne].
    - replace (Z.testbit x 7) with false; [reflexivity |].
      symmetry. destruct (Z.eq_dec x 0) as [-> | Hx0]; [apply Z.bits_0 |].
      apply Z.bits_above_log2; [lia |].
      apply Z.log2_lt_pow2; [lia | change (2 ^ 7) with 128; lia].
    - change 128 with (2 ^ 7). rewrite Z.pow2_bits_eqb by lia.
      destruct (Z.eqb_spec 7 n); [lia | apply andb_false_r]. }
  rewrite <- Z.lxor_lor by exact Hland.
  symmetry. apply Z.add_nocarry_lxor. exact Hland.
Qed.

Lemma varint_split v : v = 128 * Z.shiftr v 7 + Z.land v 127.
Proof.
  rewrite Z.shiftr_div_pow2 by lia.
  change 127 with (Z.ones 7). rewrite Z.land_ones by lia.
  change (2 ^ 7) with 128. apply Z.div_mod. lia.
Qed.

Lemma EncodeVarint64_loop_inj fuel :
  forall v v' r r',
    EncodeVarint64_loop fuel v ++ r = EncodeVarint64_loop fuel v' ++ r' ->
    v = v' /\ r = r'.
Proof.
  induction fuel as [| fuel IH]; intros v v' r r' H; cbn [EncodeVarint64_loop] in H.
  - cbn [app] in H. injection H as -> ->. split; reflexivity.
  - destruct (Z.leb_spec 128 v) as [Hv | Hv]; destruct (Z.leb_spec 128 v') as [Hv' | Hv'];
      cbn [app] in H; injection H as Hhead Htail.
    + apply IH in Htail as [Hshift ->]. split; [| reflexivity].
      rewrite !lor_128 in Hhead by apply land_127_lt.
      rewrite (varint_split v), (varint_split v'). lia.
    + rewrite lor_128 in Hhead by apply land_127_lt.
      pose proof (land_127_lt v). lia.
    + rewrite lor_128 in Hhead by apply land_127_lt.
      pose proof (land_127_lt v'). lia.
    + split; [exact Hhead | exact Htail].
Qed.

Lemma EncodeVarint64_inj a b r1 r2 :
  EncodeVarint64 a ++ r1 = EncodeVarint64 b ++ r2 -> a = b /\ r1 = r2.
Proof. apply EncodeVarint64_loop_inj. Qed.

Lemma EncodeVarint64_nonempty a : EncodeVarint64 a <> [].
Proof.
  unfold EncodeVarint64. cbn [EncodeVarint64_loop]. destruct (128 <=? a); discriminate.
Qed.

(** ** Cache-key prefixes *)

Lemma cache_of_set_cache c cc s w :
  cache_of c (set_cache cc s w) = if decide (c = cc) then s else cache_of c w.
Proof. destruct c, cc; reflexivity. Qed.

Lemma GenerateCachePrefix_spec cc f w p w' :
  GenerateCachePrefix cc f w = Some (p, w') ->
  (exists d n g, unique_id f = Some (d, n, g) /\
     p = EncodeVarint64 d ++ EncodeVarint64 n ++ EncodeVarint64 g /\ w' = w) \/
  (unique_id f = None /\ p = EncodeVarint64 (lid cc w + 1) /\
   forall c, lid c w' = if decide (c = cc) then lid cc w + 1 else lid c w).
Proof.
  unfold GenerateCachePrefix, GetUniqueId.
  destruct (unique_id f) as [[[d n] g] |] eqn:Hid.
  - change (kMaxCacheKeyPrefixSize <? kMaxVarint64Length * 3) with false.
    cbv iota.
    destruct (EncodeVarint64 d ++ EncodeVarint64 n ++ EncodeVarint64 g) as [| x l] eqn:Henc.
    + apply app_eq_nil in Henc as [Hd _]. now apply EncodeVarint64_nonempty in Hd.
    + cbn [length Nat.eqb]. intros H. inv_ret H. left. exists d, n, g. auto.
  - cbn [length Nat.eqb]. intros H. inv_bind H. inv_ret H.
    unfold NewId in Hstep. injection Hstep as <- <-.
    right. split; [reflexivity |]. split; [reflexivity |].
    intros c. unfold lid. rewrite cache_of_set_cache.
    destruct (decide (c = cc)); reflexivity.
Qed.

Lemma GenerateCachePrefix_lid cc f w p w' c :
  GenerateCachePrefix cc f w = Some (p, w') -> lid c w <= lid c w'.
Proof.
  intros H. apply GenerateCachePrefix_spec in H
    as [(d & n & g & _ & _ & ->) | (_ & _ & Hl)]; [lia |].
  rewrite Hl. destruct (decide (c = cc)) as [-> |]; lia.
Qed.

Lemma prefix_shape_mono lo hi lo' hi' r :
  lo' <= lo -> hi <= hi' -> prefix_shape lo hi r -> prefix_shape lo' hi' r.
Proof.
  unfold prefix_shape. intros Hlo Hhi.
  destruct (unique_id (reader r)) as [[[d n] g] |]; [auto |].
  intros (id & Hp & Hb). exists id. split; [exact Hp | lia].
Qed.

Lemma SetupCacheKeyPrefix_spec topt c f w r w' :
  block_cache topt = Some c ->
  SetupCacheKeyPrefix topt f w = Some (r, w') ->
  reader r = f /\ lid c w <= lid c w' /\ prefix_shape (lid c w) (lid c w') r.
Proof.
  intros Hc H. unfold SetupCacheKeyPrefix in H. rewrite Hc in H.
  inv_bind H. inv_bind H. inv_ret H. cbn [reader].
  assert (Hmono : lid c w0 <= lid c w').
  { destruct (block_cache_compressed topt) as [cc |].
    - eapply GenerateCachePrefix_lid; eassumption.
    - inv_ret Hstep0. lia. }
  pose proof (GenerateCachePrefix_lid _ _ _ _ _ c Hstep) as Hmono0.
  split; [reflexivity |]. split; [lia |].
  unfold prefix_shape. cbn [reader cache_key_prefix].
  apply GenerateCachePrefix_spec in Hstep
    as [(d & n & g & Hid & -> & ->) | (Hid & -> & Hl)]; rewrite Hid.
  - reflexivity.
  - exists (lid c w + 1). split; [reflexivity |].
    specialize (Hl c). rewrite decide_True in Hl by reflexivity. lia.
Qed.

(** Two prefixes of these shapes followed by one varint each: equal keys force
    equal prefixes and equal offsets. *)
Lemma key_eq_prefix_eq lo hi lo' hi' r r' o o' :
  prefix_shape lo hi r -> prefix_shape lo' hi' r' ->
  cache_key_prefix r ++ EncodeVarint64 o = cache_key_prefix r' ++ EncodeVarint64 o' ->
  o = o' /\ unique_id (reader r) = unique_id (reader r') /\
  cache_key_prefix r = cache_key_prefix r'.
Proof.
  unfold prefix_shape.
  destruct (unique_id (reader r)) as [[[d n] g] |];
    destruct (unique_id (reader r')) as [[[d' n'] g'] |].
  - intros -> -> H. rewrite <- !app_assoc in H.
    apply EncodeVarint64_inj in H as [-> H].
    apply EncodeVarint64_inj in H as [-> H].
    apply EncodeVarint64_inj in H as [-> H].
    rewrite <- (app_nil_r (EncodeVarint64 o)), <- (app_nil_r (EncodeVarint64 o')) in H.
    apply EncodeVarint64_inj in H as [-> _]. auto.
  - intros -> (id & -> & _) H. rewrite <- !app_assoc in H.
    apply EncodeVarint64_inj in H as [-> H].
    rewrite <- (app_nil_r (EncodeVarint64 o')) in H.
    apply EncodeVarint64_inj in H as [-> H].
    apply app_eq_nil in H as [H _]. now apply EncodeVarint64_nonempty in H.
  - intros (id & -> & _) -> H. rewrite <- !app_assoc in H.
    apply EncodeVarint64_inj in H as [-> H].
    rewrite <- (app_nil_r (EncodeVarint64 o)) in H.
    apply EncodeVarint64_inj in H as [-> H]. symmetry in H.
    apply app_eq_nil in H as [H _]. now apply EncodeVarint64_nonempty in H.
  - intros (id & -> & _) (id' & -> & _) H.
    apply EncodeVarint64_inj in H as [-> H].
    rewrite <- (app_nil_r (EncodeVarint64 o)), <- (app_nil_r (EncodeVarint64 o')) in H.
    apply EncodeVarint64_inj in H as [-> _]. auto.
Qed.

Lemma GetCacheKey_Some p h k :
  GetCacheKey p h = Some k -> k = p ++ EncodeVarint64 (offset h).
Proof.
  unfold GetCacheKey. destruct (length p =? 0)%nat; [discriminate |].
  destruct (kMaxCacheKeyPrefixSize <? Z.of_nat (length p)); [discriminate |].
  intros H. injection H as <-. reflexivity.
Qed.

Lemma SetupCacheKeyPrefixes_spec topt c files :
  block_cache topt = Some c ->
  forall w rs w',
    SetupCacheKeyPrefixes topt files w = Some (rs, w') ->
    lid c w <= lid c w' /\
    map reader rs = files /\
    Forall (prefix_shape (lid c w) (lid c w')) rs /\
    keys_unique rs.
Proof.
  intros Hc. induction files as [| f files IH]; intros w rs w' H; cbn [SetupCacheKeyPrefixes] in H.
  - inv_ret H. split; [lia |]. split; [reflexivity |]. split; [constructor |].
    intros i j ri rj hi hj k Hi. now rewrite lookup_nil in Hi.
  - inv_bind H. inv_bind H. inv_ret H.
    destruct (SetupCacheKeyPrefix_spec _ _ _ _ _ _ Hc Hstep) as (Hr & Hm & Hs).
    destruct (IH _ _ _ Hstep0) as (Hm' & Hmap & Hall & Hu).
    split; [lia |]. split; [cbn [map]; congruence |]. split.
    + constructor.
      * eapply prefix_shape_mono; [| | exact Hs]; lia.
      * eapply Forall_impl; [exact Hall |].
        intros r Hr'. eapply prefix_shape_mono; [| | exact Hr']; lia.
    + intros i j ri rj hi hj k Hi Hj Hki Hkj.
      pose proof Hki as Gi. pose proof Hkj as Gj.
      apply GetCacheKey_Some in Hki, Hkj.
      assert (Hdiff : forall r' h h',
                 In r' a0 ->
                 cache_key_prefix a ++ EncodeVarint64 (offset h) =
                 cache_key_prefix r' ++ EncodeVarint64 (offset h') ->
                 offset h = offset h' /\ is_Some (unique_id (reader a)) /\
                 unique_id (reader a) = unique_id (reader r')).
      { intros r' h h' Hin Heq.
        rewrite Forall_forall in Hall.
        assert (Hs' : prefix_shape (lid c w0) (lid c w') r').
        { apply Hall. apply list_elem_of_In. exact Hin. }
        destruct (key_eq_prefix_eq _ _ _ _ _ _ _ _ Hs Hs' Heq) as (Ho & Hid & Hp).
        split; [exact Ho |]. split; [| exact Hid].
        unfold prefix_shape in Hs, Hs'. rewrite <- Hid in Hs'.
        destruct (unique_id (reader a)) as [[[d n] g] |]; [eauto |].
        destruct Hs as (id & Hpa & Hb). destruct Hs' as (id' & Hpr & Hb').
        rewrite Hp, Hpr in Hpa.
        rewrite <- (app_nil_r (EncodeVarint64 id)), <- (app_nil_r (EncodeVarint64 id')) in Hpa.
        apply EncodeVarint64_inj in Hpa as [-> _]. lia. }
      destruct i as [| i], j as [| j]; cbn in Hi, Hj.
      * injection Hi as <-. injection Hj as <-. subst k.
        apply app_inv_head in Hkj.
        rewrite <- (app_nil_r (EncodeVarint64 (offset hi))),
                <- (app_nil_r (EncodeVarint64 (offset hj))) in Hkj.
        apply EncodeVarint64_inj in Hkj as [-> _]. auto.
      * injection Hi as <-. subst k.
        apply list_elem_of_lookup_2, list_elem_of_In in Hj.
        destruct (Hdiff _ _ _ Hj Hkj) as (Ho & Hsome & Hid). auto.
      * injection Hj as <-. subst k. symmetry in Hkj.
        apply list_elem_of_lookup_2, list_elem_of_In in Hi.
        destruct (Hdiff _ _ _ Hi Hkj) as (Ho & Hsome & Hid).
        split; [auto |]. right. rewrite <- Hid. auto.
      * destruct (Hu i j ri rj hi hj k Hi Hj Gi Gj) as (Ho & Hor).
        split; [exact Ho |]. destruct Hor as [-> | Hor]; auto.
Qed.

Lemma FilterType_eqb_eq a b : FilterType_eqb a b = true <-> a = b.
Proof. destruct a, b; cbn; split; intros H; try reflexivity; discriminate. Qed.

Lemma FilterType_eqb_neq a b : FilterType_eqb a b = false <-> a <> b.
Proof. destruct a, b; cbn; split; intros H; try reflexivity; try discriminate; congruence. Qed.

(** With [no_io] set and a filter that is not fixed-size, [GetFilter] issues
    no read. *)
Lemma GetFilter_no_io_file_reads rep fk :
  filter_type rep <> kFixedSizeFilter ->
  preserves file_reads (GetFilter rep true fk).
Proof.
  intros Hft. apply FilterType_eqb_neq in Hft.
  unfold GetFilter. rewrite Hft. cbn [andb negb].
  frame.
Qed.

Section WithBuilders.
Variable CreateBlockHashIndex :
  option SliceTransform -> Block -> Block -> Status * (Slice -> nat).
Variable BlockPrefixIndex_Create :
  option SliceTransform -> Block -> Block -> Status * (Slice -> nat).

Lemma NewIndexIterator_no_io_file_reads rep ro :
  is_no_io ro = true ->
  preserves file_reads
    (NewIndexIterator CreateBlockHashIndex BlockPrefixIndex_Create rep ro).
Proof.
  intros Hno. unfold NewIndexIterator. rewrite Hno. frame.
Qed.

Lemma PrefixMayMatch_file_reads rep internal_key :
  filter_type rep <> kFixedSizeFilter ->
  preserves file_reads
    (PrefixMayMatch CreateBlockHashIndex BlockPrefixIndex_Create rep internal_key).
Proof.
  intros Hft. unfold PrefixMayMatch.
  pose proof (GetFilter_no_io_file_reads rep) as HG.
  pose proof (NewIndexIterator_no_io_file_reads rep) as HI.
  frame; try (apply HG; assumption); try (apply HI; reflexivity).
Qed.
End WithBuilders.

(** ** The tables of the caches *)

Lemma table_set_cache_same c cc s w :
  table s = table (cache_of cc w) ->
  table (cache_of c (set_cache cc s w)) = table (cache_of c w).
Proof. destruct c, cc; cbn; auto. Qed.

Lemma RecordTick_table c t : preserves (fun w => table (cache_of c w)) (RecordTick t).
Proof. intros w r w' H. injection H as _ <-. now destruct c. Qed.
Lemma Cache_Release_table c c' h :
  preserves (fun w => table (cache_of c w)) (Cache_Release c' h).
Proof. intros w r w' H. injection H as _ <-. now apply table_set_cache_same. Qed.
Lemma delete_table c o : preserves (fun w => table (cache_of c w)) (delete_ o).
Proof. intros w r w' H. injection H as _ <-. now destruct c. Qed.
Lemma log_read_table c n h : preserves (fun w => table (cache_of c w)) (log_read n h).
Proof. intros w r w' H. injection H as _ <-. now destruct c. Qed.
#[export] Hint Resolve RecordTick_table Cache_Release_table delete_table log_read_table : frame.

Lemma GetEntryFromCache_table c c' k t1 t2 :
  preserves (fun w => table (cache_of c w)) (GetEntryFromCache c' k t1 t2).
Proof. unfold GetEntryFromCache. frame. Qed.
Lemma Release_table {T} c (e : CachableEntry.t T) c' :
  preserves (fun w => table (cache_of c w)) (Release e c').
Proof. unfold Release. frame. Qed.
#[export] Hint Resolve GetEntryFromCache_table Release_table : frame.

Lemma GetFilter_no_io_table rep fk c :
  filter_type rep <> kFixedSizeFilter ->
  preserves (fun w => table (cache_of c w)) (GetFilter rep true fk).
Proof.
  intros Hft. apply FilterType_eqb_neq in Hft.
  unfold GetFilter. rewrite Hft. cbn [andb negb]. frame.
Qed.

Section PrefixProofs.
Variable CreateBlockHashIndex :
  option SliceTransform -> Block -> Block -> Status * (Slice -> nat).
Variable BlockPrefixIndex_Create :
  option SliceTransform -> Block -> Block -> Status * (Slice -> nat).

(** Under no_io an index that is not resident gives an iterator that only
    carries Incomplete. *)
Lemma NewIndexIterator_not_resident rep ro w it w' :
  is_no_io ro = true ->
  index_not_resident rep w ->
  NewIndexIterator CreateBlockHashIndex BlockPrefixIndex_Create rep ro w = Some (it, w') ->
  it = SetStatus kIncomplete.
Proof.
  intros Hno (Hpre & c & k & Hc & Hk & Hmiss) H.
  unfold NewIndexIterator in H. rewrite Hpre, Hk, Hc, Hno in H.
  inv_bind H. injection Hstep as <- <-.
  inv_bind H. unfold GetEntryFromCache in Hstep. inv_bind Hstep.
  unfold Lookup in Hstep0. rewrite Hmiss in Hstep0. injection Hstep0 as <- <-.
  inv_bind Hstep. inv_ret Hstep. now inv_ret H.
Qed.

Lemma PrefixMayMatch_index_not_resident rep internal_key w r w' :
  filter_type rep <> kFixedSizeFilter ->
  index_not_resident rep w ->
  PrefixMayMatch CreateBlockHashIndex BlockPrefixIndex_Create rep internal_key w
  = Some (r, w') ->
  r = true
  \/ exists extractor e w1 f,
      let user_key := ExtractUserKey internal_key in
      let filter_key := match filter_key_transformer rep with
                        | Some transform => transform user_key
                        | None => user_key
                        end in
      prefix_extractor (ioptions rep) = Some extractor
      /\ filter_type rep <> kBlockBasedFilter
      /\ GetFilter rep true (Some filter_key) w = Some (e, w1)
      /\ value e = Some f
      /\ FilterBlockReader.PrefixMayMatch f (Transform extractor filter_key) kNotValid
         = false.
Proof.
  intros Hft Hres H. unfold PrefixMayMatch in H.
  destruct (filter_policy rep); [| inv_ret H; now left].
  destruct (prefix_extractor (ioptions rep)) as [extractor |]; [| discriminate].
  destruct (negb _ || negb _); [inv_ret H; now left |].
  inv_bind H. rename a into e. rename w0 into w1.
  inv_bind H. rename a into may. inv_bind H. inv_bind H. inv_bind H. inv_ret H.
  clear Hstep1 Hstep2 Hstep3.
  assert (Hres1 : index_not_resident rep w1).
  { destruct Hres as (Hpre & c & k & Hc & Hk & Hmiss).
    split; [exact Hpre |]. exists c, k. split; [exact Hc |]. split; [exact Hk |].
    now rewrite (GetFilter_no_io_table rep _ c Hft _ _ _ Hstep). }
  match type of Hstep0 with
  | (if ?b then _ else _) _ = _ => destruct b eqn:Hmay
  end.
  - inv_bind Hstep0.
    match goal with
    | Hn : NewIndexIterator _ _ _ _ _ = Some (?it, _) |- _ =>
        eapply NewIndexIterator_not_resident in Hn; [| reflexivity | exact Hres1]
    end.
    subst.
    inv_bind Hstep0. inv_bind Hstep0. inv_ret Hstep0.
    match goal with
    | Hv : (if negb (Valid _) then _ else _) _ = Some _ |- _ =>
        cbn in Hv; inv_ret Hv
    end.
    now left.
  - inv_ret Hstep0.
    destruct (value e) as [fr |] eqn:Hv; [| discriminate].
    destruct (FilterType_eqb (filter_type rep) kBlockBasedFilter) eqn:Hbb;
      cbn [negb] in Hmay; [discriminate |].
    right. eexists extractor, e, _, fr. cbv zeta.
    split; [reflexivity |].
    split; [intros E; rewrite E in Hbb; discriminate Hbb |].
    split; [exact Hstep |]. split; [exact Hv | exact Hmay].
Qed.
End PrefixProofs.

(** C2 (amended): for a fixed-size filter on a table with a filter policy and
    a block cache configured, when the filter key seeks past the last entry
    of the filter index (the filter-index iterator is invalid), GetFilter
    returns the not-matching sentinel entry, whose KeyMayMatch and
    PrefixMayMatch are false for every key and block offset, and leaves the
    world as it was: no filter block or data block is fetched, no cache is
    looked up. *)
Theorem GetFilter_beyond_filter_index rep policy c r filter_key no_io w :
  filter_type rep = kFixedSizeFilter ->
  filter_policy rep = Some policy ->
  block_cache (table_options rep) = Some c ->
  filter_index_reader rep = Some r ->
  Valid (Seek (IndexReader_NewIterator r true) filter_key) = false ->
  GetFilter rep no_io (Some filter_key) w = Some (not_matching_filter_entry, w)
  /\ value not_matching_filter_entry = Some NotMatchingFilterBlockReader
  /\ cache_handle not_matching_filter_entry = None
  /\ forall k block_offset,
       FilterBlockReader.KeyMayMatch NotMatchingFilterBlockReader k block_offset = false
       /\ FilterBlockReader.PrefixMayMatch NotMatchingFilterBlockReader k block_offset = false.
Proof.
  intros Hft Hpol Hbc Hidx Hinvalid.
  split; [| split; [reflexivity | split; [reflexivity | intros; split; reflexivity]]].
  unfold GetFilter. rewrite Hft, Hpol, Hbc. cbn [FilterType_eqb andb negb].
  rewrite (bool_decide_eq_true_2 (is_Some (Some filter_key))) by eauto.
  rewrite (bool_decide_eq_true_2 (is_Some (Some policy))) by eauto.
  rewrite (bool_decide_eq_true_2 (is_Some (Some c))) by eauto.
  cbn [negb orb andb].
  change (default [] (Some filter_key)) with filter_key.
  unfold GetFixedSizeFilterBlockHandle. rewrite Hidx, Hinvalid.
  rewrite andb_false_r. reflexivity.
Qed.

(** The table opened with a block cache: the key zebra sorts past the filter
    index, which ends at q. *)
Lemma GetFilter_beyond_filter_index_witness :
  GetFilter rep_cached false (Some (bytes "zebra")) world_cached
  = Some (not_matching_filter_entry, world_cached).
Proof.
  apply (GetFilter_beyond_filter_index rep_cached example_policy BlockCache
           (filter_index_of rep_cached) (bytes "zebra") false world_cached);
    vm_compute; reflexivity.
Defined.

(** C2, as stated, fails on a table without a block cache: the example table
    opened without one has a fixed-size filter and a filter index that zebra
    sorts past, yet GetFilter hands back no filter at all, not the sentinel. *)
Lemma GetFilter_without_block_cache :
  open_uncached = Some (kOk, Some rep_uncached, world_uncached)
  /\ filter_type rep_uncached = kFixedSizeFilter
  /\ filter_index_reader rep_uncached = Some (filter_index_of rep_uncached)
  /\ Valid (Seek (IndexReader_NewIterator (filter_index_of rep_uncached) true)
              (bytes "zebra")) = false
  /\ GetFilter rep_uncached false (Some (bytes "zebra")) world_uncached
     = Some (empty_entry, world_uncached)
  /\ @empty_entry FilterBlockReader.t <> not_matching_filter_entry.
Proof.
  repeat split; try (vm_compute; reflexivity). discriminate.
Qed.

Section SeekProofs.
Variable InternalIterator : Type.
Variable InternalIterator_Seek : InternalIterator -> Slice -> M InternalIterator.
Variable InternalIterator_Valid : InternalIterator -> bool.

Lemma NonBlockBasedFilterKeyMayMatch_key_miss rep f fk w may w' :
  NonBlockBasedFilterKeyMayMatch rep (Some f) fk w = Some (may, w') ->
  FilterBlockReader.KeyMayMatch f fk kNotValid = false ->
  may = false.
Proof.
  unfold NonBlockBasedFilterKeyMayMatch. intros H Hmiss.
  destruct (FilterType_eqb (filter_type rep) kBlockBasedFilter); [discriminate |].
  inv_bind H. rewrite Hmiss in H. cbn [negb] in H. now inv_ret H.
Qed.

End SeekProofs.

(** ** Postconditions on returned values *)

Lemma returns_ret {A} (P : A -> Prop) a : P a -> returns P (ret a).
Proof. intros HP w b w' H. inv_ret H. exact HP. Qed.

Lemma returns_undefined {A} (P : A -> Prop) : returns P undefined.
Proof. intros w b w' H. discriminate H. Qed.

Lemma returns_bind {A B} (P : B -> Prop) (m : M A) (k : A -> M B) :
  (forall a, returns P (k a)) -> returns P (bind m k).
Proof. intros Hk w b w' H. inv_bind H. eapply Hk. eassumption. Qed.

Ltac returns_step :=
  first
    [ apply returns_undefined
    | apply returns_bind; intros ?
    | apply returns_ret
    | progress cbv zeta
    | match goal with
      | |- returns _ (match ?x with _ => _ end) => destruct x eqn:?
      end ].

Lemma IndexReader_NewIterator_ok r t : it_status (IndexReader_NewIterator r t) = kOk.
Proof. unfold IndexReader_NewIterator. destruct (ir_kind r); reflexivity. Qed.

Section GetProofs.
Variable CreateBlockHashIndex :
  option SliceTransform -> Block -> Block -> Status * (Slice -> nat).
Variable BlockPrefixIndex_Create :
  option SliceTransform -> Block -> Block -> Status * (Slice -> nat).

Lemma NewIndexIterator_ok_or_empty rep ro :
  returns ok_or_empty (NewIndexIterator CreateBlockHashIndex BlockPrefixIndex_Create rep ro).
Proof.
  unfold NewIndexIterator. repeat returns_step;
    solve [ left; cbn [RegisterCleanup it_status]; apply IndexReader_NewIterator_ok
          | right; reflexivity ].
Qed.

(** What the outer loop of [Get] adds to the log of opened blocks under
    no_io: only the block opened last can have answered Incomplete, and then
    the context is marked and the status in hand is handed back. *)
Lemma Get_index_loop_incomplete rep ro internal_key skip bb f fk es :
  is_no_io ro = true ->
  forall s c w s' c' w',
    Get_index_loop rep ro internal_key skip bb f fk es s c w = Some ((s', c'), w') ->
    exists news,
      opened w' = news ++ opened w
      /\ incomplete_is_last news
      /\ (forall v rest, news = (v, kIncomplete) :: rest ->
            (exists c0, c' = MarkKeyMayExist c0) /\ (ok s = true -> s' = kOk)).
Proof.
  intros Hno. induction es as [| [k v] es IH]; intros s c w s' c' w' H;
    cbn [Get_index_loop] in H.
  - inv_ret H. exists []. split; [reflexivity |]. split; [constructor |]. discriminate.
  - inv_bind H. rename a into absent. rename w0 into w1.
    assert (Hw1 : opened w1 = opened w).
    { revert Hstep. generalize w absent w1. change (preserves opened
        (if negb skip && bb
         then RecordTick BLOOM_FILTER_CHECKED;;;
              (let '(ds, data_block_handle) := DecodeFrom v in
               if ok ds
               then match f with
                    | Some f0 => ret (negb (FilterBlockReader.KeyMayMatch f0 fk
                                              (offset data_block_handle)))
                    | None => undefined
                    end
               else ret false)
         else ret false)). frame. }
    destruct absent.
    + inv_bind H. inv_ret H. exists []. rewrite (RecordTick_opened _ _ _ _ Hstep0), Hw1.
      split; [reflexivity |]. split; [constructor |]. discriminate.
    + inv_bind H. rename a into biter. rename w0 into w2.
      pose proof (NewDataBlockIterator_log _ _ _ _ _ _ Hstep0) as Hlog.
      rewrite Hno in H. cbn [andb] in H.
      destruct (IsIncomplete (it_status biter)) eqn:Hinc.
      * inv_bind H. inv_ret H. exists [(v, it_status biter)].
        rewrite (DestroyIterator_opened _ _ _ _ Hstep1), Hlog, Hw1.
        split; [reflexivity |]. split; [constructor |].
        intros v0 rest _. split; [eexists; reflexivity |]. intros Hs. now destruct s'.
      * destruct (ok (it_status biter)) eqn:Hok; cbn [negb] in H.
        -- destruct (Get_block_loop _ s c) as [[s1 c1] done] eqn:Hscan.
           inv_bind H. destruct done.
           ++ inv_ret H. exists [(v, it_status biter)].
              cbn [Seek it_cleanup] in Hstep1.
              rewrite (DestroyIterator_opened biter _ _ _ Hstep1), Hlog, Hw1.
              split; [reflexivity |]. split; [constructor |].
              intros v0 rest Heq. injection Heq as _ Hst _.
              rewrite Hst in Hinc. discriminate.
           ++ apply IH in H as (news & Hnews & Hlast & Hmark).
              exists (news ++ [(v, it_status biter)]).
              cbn [Seek it_cleanup] in Hstep1.
              rewrite Hnews, (DestroyIterator_opened biter _ _ _ Hstep1), Hlog, Hw1.
              split; [now rewrite <- app_assoc |]. split.
              ** unfold incomplete_is_last in *. destruct news as [| n news]; [constructor |].
                 cbn [tail app] in *. apply Forall_app. split; [exact Hlast |].
                 constructor; [| constructor]. cbn. intros Hst. now rewrite Hst in Hinc.
              ** intros v0 rest Heq. destruct news as [| n news].
                 { cbn in Heq. injection Heq as _ Hst _. now rewrite Hst in Hinc. }
                 cbn in Heq. injection Heq as -> _.
                 destruct (Hmark v0 news eq_refl) as [Hc Hs]. split; [exact Hc |].
                 intros _. apply Hs. cbn [Seek it_status]. exact Hok.
        -- inv_bind H. inv_ret H. exists [(v, it_status biter)].
           rewrite (DestroyIterator_opened _ _ _ _ Hstep1), Hlog, Hw1.
           split; [reflexivity |]. split; [constructor |].
           intros v0 rest Heq. injection Heq as _ Hst _.
           rewrite Hst in Hinc. discriminate.
Qed.

Lemma app_eq_self {A} (l1 l2 : list A) : l1 ++ l2 = l2 -> l1 = [].
Proof.
  intros H. apply (f_equal length) in H. rewrite length_app in H.
  destruct l1; [reflexivity | cbn in H; lia].
Qed.
(** C4: a Get under read_tier = kBlockCacheTier opens data blocks one after
  another; a block whose open yields Incomplete (resident in neither cache)
  is the last one opened, the context has been marked through
  MarkKeyMayExist, and Get returns OK instead of Incomplete. *)

Theorem Get_no_io_incomplete rep ro internal_key get_context skip_filters w s c' w' :
  read_tier ro = kBlockCacheTier ->
  Get CreateBlockHashIndex BlockPrefixIndex_Create rep ro internal_key get_context
    skip_filters w = Some ((s, c'), w') ->
  exists news,
    opened w' = news ++ opened w
    /\ incomplete_is_last news
    /\ (forall v rest, news = (v, kIncomplete) :: rest ->
          (exists c0, c' = MarkKeyMayExist c0) /\ s = kOk).
Proof.
  intros Htier H.
  assert (Hno : is_no_io ro = true) by (unfold is_no_io; now rewrite Htier).
  unfold Get in H. inv_bind H. destruct a as [filter_entry filter_key].
  assert (Hw0 : opened w0 = opened w).
  { destruct skip_filters; cbn [negb] in Hstep.
    - now inv_ret Hstep.
    - inv_bind Hstep. inv_ret Hstep.
      eapply GetFilter_opened; eassumption. }
  inv_bind H. rename a into may_match.
  assert (Hw1 : opened w1 = opened w0).
  { destruct (FilterType_eqb (filter_type rep) kBlockBasedFilter).
    - now inv_ret Hstep0.
    - eapply NonBlockBasedFilterKeyMayMatch_opened; eassumption. }
  inv_bind H. inv_bind H. inv_ret H.
  rewrite (Release_opened _ _ _ _ _ Hstep2).
  destruct may_match; cbn [negb] in Hstep1.
  - inv_bind Hstep1. rename a into it.
    inv_bind Hstep1. destruct a as [s1 c1].
    inv_bind Hstep1. inv_ret Hstep1.
    destruct (NewIndexIterator_ok_or_empty _ _ _ _ _ Hstep3) as [Hok | Hempty].
    + apply (Get_index_loop_incomplete _ _ _ _ _ _ _ _ Hno) in Hstep4
        as (news & Hnews & Hlast & Hmark).
      exists news.
      rewrite (DestroyIterator_opened _ _ _ _ Hstep5), Hnews.
      rewrite (NewIndexIterator_opened _ _ _ _ _ _ _ Hstep3), Hw1, Hw0.
      split; [reflexivity |]. split; [exact Hlast |].
      intros v rest Heq. destruct (Hmark v rest Heq) as [Hc Hs].
      split; [exact Hc |]. rewrite (Hs eq_refl). cbn [ok Seek it_status]. exact Hok.
    + cbn [Seek it_entries] in Hstep4. rewrite Hempty, drop_nil in Hstep4.
      cbn [Get_index_loop] in Hstep4. inv_ret Hstep4. exists [].
      rewrite (DestroyIterator_opened _ _ _ _ Hstep5).
      rewrite (NewIndexIterator_opened _ _ _ _ _ _ _ Hstep3), Hw1, Hw0.
      split; [reflexivity |]. split; [constructor |]. discriminate.
  - inv_bind Hstep1. inv_ret Hstep1. exists [].
    rewrite (RecordTick_opened _ _ _ _ Hstep3), Hw1, Hw0.
    split; [reflexivity |]. split; [constructor |]. discriminate.
Qed.
End GetProofs.

Section IndexReaderProofs.
Variable CreateBlockHashIndex :
  option SliceTransform -> Block -> Block -> Status * (Slice -> nat).
Variable BlockPrefixIndex_Create :
  option SliceTransform -> Block -> Block -> Status * (Slice -> nat).
(** C5: when the index type recorded in the table properties is kHashSearch
  and the options have no prefix extractor, CreateDataBlockIndexReader is
  the creation of a binary-search index reader; it succeeds with a
  binary-search reader over the index block whenever that block can be
  read from the file. *)

Theorem CreateDataBlockIndexReader_hash_without_extractor rep meta props v :
  table_properties rep = Some props ->
  props_find (user_collected_properties props) kIndexType = Some v ->
  DecodeFixed32 v = kHashSearch ->
  prefix_extractor (ioptions rep) = None ->
  let file := reader (base_reader_with_cache_prefix rep) in
  let handle := index_handle (footer rep) in
  CreateDataBlockIndexReader CreateBlockHashIndex BlockPrefixIndex_Create rep meta
  = BinarySearchIndexReader_Create file handle (internal_comparator rep)
  /\ forall b w,
      blocks file !! offset handle = Some (kOk, b) ->
      is_compressed (compression_type b) = false \/ well_compressed b = true ->
      exists index_block_ w',
        CreateDataBlockIndexReader CreateBlockHashIndex BlockPrefixIndex_Create rep meta w
        = Some ((kOk, Some (mkIndexReader BinarySearchIndex (internal_comparator rep)
                              index_block_ None)), w')
        /\ entries index_block_ = entries b.
Proof.
  intros Hprops Hfind Hdec Hpe file handle.
  assert (Heq : CreateDataBlockIndexReader CreateBlockHashIndex BlockPrefixIndex_Create
                  rep meta
                = BinarySearchIndexReader_Create file handle (internal_comparator rep)).
  { unfold CreateDataBlockIndexReader. rewrite Hprops, Hfind, Hdec, Hpe.
    reflexivity. }
  split; [exact Heq |].
  intros b w Hb Hcomp. rewrite Heq.
  unfold BinarySearchIndexReader_Create, ReadBlockFromFile, ReadBlockContents, bind, ret,
    log_read.
  cbn [blocks file_reads]. rewrite Hb. cbn [ok negb andb].
  destruct (is_compressed (compression_type b)) eqn:Hc.
  - destruct Hcomp as [Hcomp | Hcomp]; [discriminate |].
    unfold UncompressBlockContents. rewrite Hcomp. cbn [ok].
    eexists _, _. split; reflexivity.
  - eexists _, _. split; reflexivity.
Qed.
End IndexReaderProofs.

(** ** Filter discovery *)

Lemma Open_find_filter_found meta name p rest ft fh :
  filter_found meta name p = true ->
  Open_find_filter meta name (p :: rest) ft fh = Open_find_filter meta name [p] ft fh.
Proof.
  unfold filter_found. intros H. cbn [Open_find_filter].
  destruct (FindMetaBlock meta (p ++ name)) as [s h]. cbn [fst] in H. now rewrite H.
Qed.

Lemma Open_find_filter_not_found meta name p rest ft fh :
  filter_found meta name p = false ->
  Open_find_filter meta name (p :: rest) ft fh = Open_find_filter meta name rest ft fh.
Proof.
  unfold filter_found. intros H. cbn [Open_find_filter].
  destruct (FindMetaBlock meta (p ++ name)) as [s h]. cbn [fst] in H. now rewrite H.
Qed.

Lemma Open_find_filter_order meta name fh :
  fst (Open_find_filter meta name filter_block_prefixes kNoFilter fh)
  = (kOk, first_filter_type meta name).
Proof.
  unfold filter_block_prefixes, first_filter_type.
  destruct (filter_found meta name kFullFilterBlockPrefix) eqn:H1.
  { rewrite Open_find_filter_found by exact H1. unfold filter_found in H1.
    cbn [Open_find_filter]. destruct (FindMetaBlock _ _) as [s h]. cbn [fst] in H1.
    rewrite H1. reflexivity. }
  rewrite Open_find_filter_not_found by exact H1.
  destruct (filter_found meta name kFilterBlockPrefix) eqn:H2.
  { rewrite Open_find_filter_found by exact H2. unfold filter_found in H2.
    cbn [Open_find_filter]. destruct (FindMetaBlock _ _) as [s h]. cbn [fst] in H2.
    rewrite H2. reflexivity. }
  rewrite Open_find_filter_not_found by exact H2.
  destruct (filter_found meta name kFixedSizeFilterBlockPrefix) eqn:H3.
  { unfold filter_found in H3.
    cbn [Open_find_filter]. destruct (FindMetaBlock _ _) as [s h]. cbn [fst] in H3.
    rewrite H3. reflexivity. }
  rewrite Open_find_filter_not_found by exact H3. reflexivity.
Qed.

Ltac destr_in H :=
  match type of H with
  | context [match ?x with _ => _ end] => destruct x eqn:?
  end.

Section OpenProofs.
Variable CreateBlockHashIndex :
  option SliceTransform -> Block -> Block -> Status * (Slice -> nat).
Variable BlockPrefixIndex_Create :
  option SliceTransform -> Block -> Block -> Status * (Slice -> nat).

Lemma Open_filter_type ioptions_ topt cmp base_file prefetch skip_filters w s rep w' :
  Open CreateBlockHashIndex BlockPrefixIndex_Create ioptions_ topt cmp base_file
    prefetch skip_filters w = Some ((s, Some rep), w') ->
  exists meta w1 w2,
    ReadMetaBlock base_file (snd (footer_on_file base_file)) w1 = Some ((kOk, Some meta), w2)
    /\ filter_type rep =
       match (if skip_filters then None else to_filter_policy topt) with
       | Some policy => first_filter_type meta (bytes (Name policy))
       | None => kNoFilter
       end.
Proof.
  intros H. unfold Open in H.
  destruct (footer_on_file base_file) as [s0 footer_] eqn:Hfooter. cbn [snd].
  destruct (ok s0); cbn [negb] in H; [| inv_ret H].
  destruct (version footer_ <=? 2); cbn [negb] in H; [| inv_ret H].
  inv_bind H. rename a into base. inv_bind H.
  destruct a as [[] [meta |]]; try (inv_ret H; fail).
  exists meta, w0, w1. split; [exact Hstep0 |].
  cbn [filter_policy filter_type filter_handle] in H.
  set (policy := if skip_filters then None else to_filter_policy topt) in *.
  match type of H with
  | context [match policy with Some p => @?a p | None => ?b end] =>
      set (found := match policy with Some p => a p | None => b end) in *
  end.
  assert (E : snd (fst found) = match policy with
                                | Some p => first_filter_type meta (bytes (Name p))
                                | None => kNoFilter
                                end).
  { subst found. destruct policy as [p |]; [| reflexivity].
    pose proof (Open_find_filter_order meta (bytes (Name p)) BlockHandle_default) as Ho.
    destruct (Open_find_filter _ _ _ _ _) as [[fs ft] fh]. cbn [fst snd] in *. congruence. }
  destruct found as [[fs ft] fh]. cbn [fst snd] in E.
  destruct (ok fs); cbn [negb] in H; [| inv_ret H].
  inv_bind H. destruct a as [ps props].
  rewrite <- E. clear E.
  destruct prefetch.
  - inv_bind H.
    destruct (cache_index_and_filter_blocks topt).
    + destruct (block_cache topt); [| discriminate].
      inv_bind H. inv_bind H. inv_bind H.
      destruct (ok (it_status a0)); inv_ret H.
      destruct (if ok ps then props else None); reflexivity.
    + inv_bind H. destruct a0 as [s1 di].
      destruct (ok s1); [| inv_ret H].
      inv_bind H. inv_ret H.
      destruct (if ok ps then props else None); reflexivity.
  - destruct (ok ps); inv_ret H.
    destruct props; reflexivity.
Qed.
End OpenProofs.

(** ** Quiet computations: no refused insert, nothing un-deleted *)

Lemma quiet_ret {A} (a : A) : quiet (ret a).
Proof. intros w b w' H. inv_ret H. split; [reflexivity | apply incl_refl]. Qed.
Lemma quiet_undefined {A} : quiet (@undefined A).
Proof. intros w b w' H. discriminate. Qed.
Lemma quiet_lift {A} (o : option A) : quiet (lift o).
Proof.
  intros w b w' H. unfold lift in H. destruct o; [| discriminate].
  injection H as <- <-. split; [reflexivity | apply incl_refl].
Qed.
Lemma quiet_bind {A B} (m : M A) (k : A -> M B) :
  quiet m -> (forall a, quiet (k a)) -> quiet (bind m k).
Proof.
  intros Hm Hk w b w' H. inv_bind H.
  destruct (Hm _ _ _ Hstep) as [E1 I1]. destruct (Hk _ _ _ _ H) as [E2 I2].
  split; [congruence | eapply incl_tran; eassumption].
Qed.

Lemma quiet_Lookup c k : quiet (Lookup c k).
Proof. intros w r w' H. apply Lookup_same in H. subst. split; [reflexivity | apply incl_refl]. Qed.
Lemma quiet_RecordTick t : quiet (RecordTick t).
Proof. intros w r w' H. injection H as _ <-. split; [reflexivity | apply incl_refl]. Qed.
Lemma quiet_log_read n h : quiet (log_read n h).
Proof. intros w r w' H. injection H as _ <-. split; [reflexivity | apply incl_refl]. Qed.
Lemma quiet_log_open v s : quiet (log_open v s).
Proof. intros w r w' H. injection H as _ <-. split; [reflexivity | apply incl_refl]. Qed.
Lemma quiet_delete o : quiet (delete_ o).
Proof. intros w r w' H. injection H as _ <-. split; [reflexivity | apply incl_tl, incl_refl]. Qed.
Lemma quiet_Cache_Release c h : quiet (Cache_Release c h).
Proof.
  intros w r w' H. injection H as _ <-.
  rewrite failed_inserts_set_cache, deleted_set_cache. split; [reflexivity | apply incl_refl].
Qed.

Create HintDb quiet.
#[export] Hint Resolve quiet_Lookup quiet_RecordTick quiet_log_read quiet_log_open
  quiet_delete quiet_Cache_Release : quiet.

Ltac quiet_step :=
  first
    [ apply quiet_ret
    | apply quiet_undefined
    | apply quiet_lift
    | apply quiet_bind; [| intros ?]
    | solve [auto with quiet nocore]
    | progress cbv zeta
    | match goal with
      | |- quiet (match ?x with _ => _ end) => destruct x eqn:?
      | |- quiet (let '(_, _) := ?x in _) => destruct x eqn:?
      end ].
Ltac quiet := repeat quiet_step.

Lemma quiet_GetEntryFromCache c k t1 t2 : quiet (GetEntryFromCache c k t1 t2).
Proof. unfold GetEntryFromCache. quiet. Qed.
Lemma quiet_Release {T} (e : CachableEntry.t T) c : quiet (Release e c).
Proof. unfold Release. quiet. Qed.
Lemma quiet_run_cleanups cs : quiet (run_cleanups cs).
Proof. induction cs as [| [c h | b] cs IH]; cbn [run_cleanups run_cleanup]; quiet. Qed.
Lemma quiet_DestroyIterator it : quiet (DestroyIterator it).
Proof. apply quiet_run_cleanups. Qed.
Lemma quiet_as_filter v : quiet (as_filter v).
Proof. unfold as_filter. quiet. Qed.
Lemma quiet_as_block v : quiet (as_block v).
Proof. unfold as_block. quiet. Qed.
Lemma quiet_as_index v : quiet (as_index v).
Proof. unfold as_index. quiet. Qed.
Lemma quiet_ReadBlockContents f h d : quiet (ReadBlockContents f h d).
Proof. unfold ReadBlockContents. quiet. Qed.
#[export] Hint Resolve quiet_GetEntryFromCache quiet_Release quiet_DestroyIterator
  quiet_as_filter quiet_as_block quiet_as_index quiet_ReadBlockContents : quiet.
Lemma quiet_ReadBlockFromFile f h d : quiet (ReadBlockFromFile f h d).
Proof. unfold ReadBlockFromFile. quiet. Qed.
Lemma quiet_ReadFilterBlock h rep : quiet (ReadFilterBlock h rep).
Proof. unfold ReadFilterBlock. quiet. Qed.
#[export] Hint Resolve quiet_ReadBlockFromFile quiet_ReadFilterBlock : quiet.

(** ** Triples *)

Lemma stable_freed o : stable (freed o).
Proof.
  intros w w' E I H c k v Hin. rewrite E in Hin.
  destruct (H c k v Hin) as [Hd | Ho]; [left; apply I, Hd | right; exact Ho].
Qed.

Lemma triple_ret {A} (P : World -> Prop) (a : A) : triple P (ret a) (fun _ => P).
Proof. intros w b w' HP H. inv_ret H. exact HP. Qed.

Lemma triple_undefined {A} P (Q : A -> World -> Prop) : triple P undefined Q.
Proof. intros w b w' _ H. discriminate. Qed.

Lemma triple_bind {A B} P (m : M A) (k : A -> M B) R Q :
  triple P m R -> (forall a, triple (R a) (k a) Q) -> triple P (bind m k) Q.
Proof.
  intros Hm Hk w b w' HP H. inv_bind H. eapply Hk; [| eassumption]. eapply Hm; eassumption.
Qed.

Lemma triple_quiet {A} P (m : M A) : stable P -> quiet m -> triple P m (fun _ => P).
Proof.
  intros HP Hm w a w' Hw H. destruct (Hm _ _ _ H) as [E I]. eapply HP; eassumption.
Qed.

Lemma triple_bind_quiet {A B} P (m : M A) (k : A -> M B) Q :
  stable P -> quiet m -> (forall a, triple P (k a) Q) -> triple P (bind m k) Q.
Proof. intros HP Hm Hk. eapply triple_bind; [apply triple_quiet; assumption | exact Hk]. Qed.

Lemma triple_bind_Insert {B} c key v (k : Status * option Handle -> M B) Q :
  (forall h, triple (freed None) (k (kOk, Some h)) Q) ->
  triple (freed (Some (heap_of v))) (k (kIncomplete, None)) Q ->
  triple (freed None) (bind (Insert c key v) k) Q.
Proof.
  intros Hok Hfail w b w' HP H. inv_bind H. unfold Insert in Hstep.
  destruct (accepts (cache_of c w) key); injection Hstep as <- <-.
  - eapply Hok; [| eassumption].
    eapply stable_freed; [| | exact HP];
      [apply failed_inserts_set_cache | rewrite deleted_set_cache; apply incl_refl].
  - eapply Hfail; [| eassumption].
    intros c0 k0 v0 Hin. cbn [log_failed_insert failed_inserts deleted] in *.
    destruct Hin as [E | Hin]; [injection E as <- <- <-; right; reflexivity |].
    destruct (HP c0 k0 v0 Hin) as [Hd | Ho]; [left; exact Hd | discriminate].
Qed.

Lemma triple_bind_delete {B} o (k : unit -> M B) Q :
  triple (freed None) (k tt) Q ->
  triple (freed (Some o)) (bind (delete_ o) k) Q.
Proof.
  intros Hk w b w' HP H. inv_bind H. injection Hstep as <- <-.
  eapply Hk; [| eassumption].
  intros c0 k0 v0 Hin. cbn [failed_inserts deleted] in *.
  destruct (HP c0 k0 v0 Hin) as [Hd | Ho]; [left; right; exact Hd |].
  injection Ho as ->. left; left; reflexivity.
Qed.

Ltac hoare_step :=
  first
    [ apply triple_undefined
    | apply triple_ret
    | apply triple_bind_Insert; [intros ? |]
    | progress cbn [heap_of]
    | apply triple_bind_delete
    | apply triple_bind_quiet; [apply stable_freed | solve [quiet] | intros ?]
    | eapply triple_bind with (R := fun _ => freed None); [| intros ?]
    | progress cbv zeta
    | match goal with
      | |- triple _ (match ?x with _ => _ end) _ => destruct x eqn:?
      | |- triple _ (let '(_, _) := ?x in _) _ => destruct x eqn:?
      end
    | apply triple_quiet; [apply stable_freed | solve [quiet]] ].
Ltac hoare := repeat hoare_step.

(** ** The value of a refused insert is freed *)

Lemma GetFilter_freed rep no_io fk :
  triple freed_all (GetFilter rep no_io fk) (fun _ => freed_all).
Proof. unfold freed_all, GetFilter. hoare. Qed.

Lemma GetDataBlockFromCache_freed k ck c cc ro :
  triple freed_all (GetDataBlockFromCache k ck c cc ro) (fun _ => freed_all).
Proof. unfold freed_all, GetDataBlockFromCache. hoare. Qed.

Lemma PutDataBlockToCache_freed k ck c cc raw :
  triple freed_all (PutDataBlockToCache k ck c cc raw) (fun _ => freed_all).
Proof. unfold freed_all, PutDataBlockToCache. hoare. Qed.

Lemma triple_weaken {A} (P P' : World -> Prop) (m : M A) Q :
  (forall w, P w -> P' w) -> triple P' m Q -> triple P m Q.
Proof. intros HP Hm w a w' Hw H. eapply Hm; [apply HP, Hw | exact H]. Qed.

Lemma NewDataBlockIterator_build_freed rep ro v :
  triple freed_all (NewDataBlockIterator_build rep ro v) (fun _ => freed_all).
Proof.
  pose proof GetDataBlockFromCache_freed as HG.
  pose proof PutDataBlockToCache_freed as HP.
  unfold freed_all in *. unfold NewDataBlockIterator_build.
  repeat first
    [ apply HP
    | eapply triple_bind with (R := fun _ => freed None); [apply HG | intros ?]
    | hoare_step ].
Qed.

Lemma NewDataBlockIterator_freed rep ro v :
  triple freed_all (NewDataBlockIterator rep ro v) (fun _ => freed_all).
Proof.
  pose proof (NewDataBlockIterator_build_freed rep ro v) as HB.
  unfold freed_all in *. unfold NewDataBlockIterator.
  eapply triple_bind; [exact HB | intros it]. hoare.
Qed.

(** A refused insert leaves every cache as it was. *)
Lemma Insert_refused c key v w s h w' :
  Insert c key v w = Some ((s, h), w') ->
  ok s = false ->
  h = None /\ w' = log_failed_insert c key v w
  /\ forall c', cache_of c' w' = cache_of c' w.
Proof.
  unfold Insert. destruct (accepts (cache_of c w) key); intros H Hs.
  - injection H as <- _ _. discriminate.
  - injection H as _ <- <-. split; [reflexivity |]. split; [reflexivity |].
    intros []; reflexivity.
Qed.

(** ** What the caller gets after a refused insert *)

Lemma quiet_failed {A} (m : M A) w a w' :
  quiet m -> m w = Some (a, w') -> failed_inserts w' = failed_inserts w.
Proof. intros Hq H. apply (Hq _ _ _ H). Qed.

(** [GetFilter] after a refused insert: no filter is handed back. *)
Lemma GetFilter_refused rep no_io fk w e w' :
  GetFilter rep no_io fk w = Some (e, w') ->
  failed_inserts w' <> failed_inserts w ->
  e = empty_entry.
Proof.
  intros H Hnew.
  assert (Hq : forall (m : M (CachableEntry.t FilterBlockReader.t)) w0,
             quiet m -> failed_inserts w0 = failed_inserts w ->
             m w0 = Some (e, w') -> e = empty_entry).
  { intros m w0 Hm E Hrun. exfalso. apply Hnew.
    rewrite (quiet_failed _ _ _ _ Hm Hrun). exact E. }
  unfold GetFilter in H.
  destruct (_ && negb (bool_decide (is_Some fk))); [discriminate |].
  destruct (_ && _); [eapply Hq; [apply quiet_ret | reflexivity | exact H] |].
  destruct (_ || _); [eapply Hq; [apply quiet_ret | reflexivity | exact H] |].
  inv_bind H. rename a into hh.
  assert (E0 : failed_inserts w0 = failed_inserts w).
  { revert Hstep. apply quiet_failed. quiet. }
  destruct hh as [early | fbh]; [eapply Hq; [apply quiet_ret | exact E0 | exact H] |].
  inv_bind H. apply (quiet_failed _ _ _ _ (quiet_lift _)) in Hstep0.
  inv_bind H. apply (quiet_failed _ _ _ _ (quiet_GetEntryFromCache _ _ _ _)) in Hstep1.
  assert (E2 : failed_inserts w2 = failed_inserts w) by congruence.
  destruct a0 as [handle |].
  { eapply Hq; [| exact E2 | exact H]. quiet. }
  destruct (no_io && _); [eapply Hq; [apply quiet_ret | exact E2 | exact H] |].
  inv_bind H. apply (quiet_failed _ _ _ _ (quiet_ReadFilterBlock _ _)) in Hstep2.
  assert (E3 : failed_inserts w3 = failed_inserts w) by congruence.
  destruct a0 as [[f |] filter_size].
  2: { eapply Hq; [| exact E3 | exact H]. quiet. }
  destruct (block_cache (table_options rep)) as [c |].
  2: { eapply Hq; [| exact E3 | exact H]. quiet. }
  destruct (filter_size <=? 0); [discriminate |].
  inv_bind H. destruct a0 as [s h].
  destruct (ok s) eqn:Hs; cbn [negb] in H.
  - exfalso. apply Hnew. inv_ret H. unfold Insert in Hstep3.
    destruct (accepts (cache_of c w3) a); injection Hstep3 as <- <- <-.
    + now rewrite failed_inserts_set_cache.
    + discriminate.
  - inv_bind H. inv_ret H. reflexivity.
Qed.

Lemma news_nil {A} (news l : list A) : l = news ++ l -> news = [].
Proof.
  intros H. apply (f_equal length) in H. rewrite length_app in H.
  destruct news; [reflexivity | cbn in H; lia].
Qed.

Lemma news_one {A} (news l : list A) x : x :: l = news ++ l -> news = [x].
Proof.
  intros H. change (x :: l) with ([x] ++ l) in H. now apply app_inv_tail in H.
Qed.

Lemma news_two {A} (news l : list A) x y : x :: y :: l = news ++ l -> news = [x; y].
Proof.
  intros H. change (x :: y :: l) with ([x; y] ++ l) in H. now apply app_inv_tail in H.
Qed.

Lemma failed_inserts_log c k v w :
  failed_inserts (log_failed_insert c k v w) = (c, k, v) :: failed_inserts w.
Proof. reflexivity. Qed.

Lemma Insert_failed_inserts c key v w s h w' :
  Insert c key v w = Some ((s, h), w') ->
  (ok s = true /\ failed_inserts w' = failed_inserts w)
  \/ (s = kIncomplete /\ h = None /\ failed_inserts w' = (c, key, v) :: failed_inserts w).
Proof.
  unfold Insert. destruct (accepts (cache_of c w) key); intros H; injection H as <- <- <-.
  - left. split; [reflexivity | apply failed_inserts_set_cache].
  - right. auto.
Qed.

Lemma none_uncompressed_Exists l :
  none_uncompressed l -> Exists uncompressed_block l -> False.
Proof.
  intros Hall Hex. apply Exists_exists in Hex as (x & Hin & Hx).
  unfold none_uncompressed in Hall. rewrite Forall_forall in Hall.
  apply (Hall x); assumption.
Qed.

Lemma news_eq {A} (n1 n2 l : list A) : n1 ++ l = n2 ++ l -> n1 = n2.
Proof. apply app_inv_tail. Qed.

Lemma PutDataBlockToCache_refused k ck c cc raw w s e w' news :
  PutDataBlockToCache k ck c cc raw w = Some ((s, e), w') ->
  failed_inserts w' = news ++ failed_inserts w ->
  Exists uncompressed_block news ->
  ok s = false /\ e = empty_entry.
Proof.
  intros H Hnews Hex. unfold PutDataBlockToCache in H.
  destruct (is_compressed (compression_type raw) && _); [discriminate |].
  destruct (if is_compressed (compression_type raw) then _ else _)
    as [s0 contents] eqn:Hc.
  destruct (ok s0) eqn:Hs0; cbn [negb] in H.
  2: { inv_bind H. inv_ret H. split; [exact Hs0 | reflexivity]. }
  inv_bind H. rename a into s1. rename w0 into w1.
  assert (HP : exists n1, failed_inserts w1 = n1 ++ failed_inserts w /\ none_uncompressed n1).
  { destruct (is_compressed (compression_type raw)) eqn:Hcomp.
    - destruct cc as [cc |].
      + destruct (cachable raw).
        * inv_bind Hstep. destruct a as [si hi]. cbn [fst] in Hstep.
          apply Insert_failed_inserts in Hstep0 as [[Hok E] | (-> & -> & E)].
          -- rewrite Hok in Hstep. inv_bind Hstep. inv_ret Hstep.
             apply (quiet_failed _ _ _ _ (quiet_RecordTick _)) in Hstep0.
             exists []. split; [cbn; congruence | constructor].
          -- cbn [ok] in Hstep. inv_bind Hstep. inv_bind Hstep. inv_ret Hstep.
             apply (quiet_failed _ _ _ _ (quiet_RecordTick _)) in Hstep0.
             apply (quiet_failed _ _ _ _ (quiet_delete _)) in Hstep1.
             exists [(cc, ck, CVBlock raw)]. split; [cbn; congruence |].
             constructor; [| constructor]. unfold uncompressed_block. cbn [snd].
             intros Hu. rewrite Hu in Hcomp. discriminate.
        * inv_bind Hstep. inv_ret Hstep.
          apply (quiet_failed _ _ _ _ (quiet_delete _)) in Hstep0.
          exists []. split; [cbn; congruence | constructor].
      + inv_bind Hstep. inv_ret Hstep.
        apply (quiet_failed _ _ _ _ (quiet_delete _)) in Hstep0.
        exists []. split; [cbn; congruence | constructor].
    - destruct cc; inv_ret Hstep; (exists []; split; [reflexivity | constructor]). }
  destruct HP as (n1 & En1 & Hn1).
  assert (Hquiet : failed_inserts w' = failed_inserts w1 -> False).
  { intros E. rewrite E, En1 in Hnews. apply news_eq in Hnews. subst news.
    eapply none_uncompressed_Exists; eassumption. }
  destruct (is_compressed (compression_type contents)); [discriminate |].
  destruct c as [c |].
  - destruct (cachable contents).
    + inv_bind H. destruct a as [s2 nh].
      apply Insert_failed_inserts in Hstep0 as [[Hok E] | (-> & -> & E)].
      * rewrite Hok in H. cbn [negb] in H. inv_ret H. now apply Hquiet in E.
      * cbn [ok negb] in H. inv_bind H. inv_ret H. split; reflexivity.
    + inv_ret H. now exfalso.
  - inv_ret H. now exfalso.
Qed.

Lemma GetDataBlockFromCache_refused k ck c cc ro w s e w' :
  GetDataBlockFromCache k ck c cc ro w = Some ((s, e), w') ->
  failed_inserts w' <> failed_inserts w ->
  ok s = false /\ e = empty_entry.
Proof.
  intros H Hnew.
  assert (Hq : forall (m : M (Status * CachableEntry.t Block)) w0,
             quiet m -> failed_inserts w0 = failed_inserts w ->
             m w0 = Some ((s, e), w') -> ok s = false /\ e = empty_entry).
  { intros m w0 Hm E Hrun. exfalso. apply Hnew.
    rewrite (quiet_failed _ _ _ _ Hm Hrun). exact E. }
  unfold GetDataBlockFromCache in H. inv_bind H.
  assert (E0 : failed_inserts w0 = failed_inserts w).
  { revert Hstep. apply quiet_failed. quiet. }
  destruct a as [handle |]; [eapply Hq; [| exact E0 | exact H]; quiet |].
  destruct cc as [cc |]; [| eapply Hq; [| exact E0 | exact H]; quiet].
  destruct (length ck =? 0)%nat; [discriminate |].
  inv_bind H. apply (quiet_failed _ _ _ _ (quiet_Lookup _ _)) in Hstep0.
  destruct a as [chandle |]; [| eapply Hq; [| | exact H]; [quiet | congruence]].
  inv_bind H. apply (quiet_failed _ _ _ _ (quiet_RecordTick _)) in Hstep1.
  inv_bind H. apply (quiet_failed _ _ _ _ (quiet_as_block _)) in Hstep2.
  assert (E3 : failed_inserts w3 = failed_inserts w) by congruence.
  destruct (negb (is_compressed (compression_type a0))); [discriminate |].
  destruct (UncompressBlockContents a0) as [s0 contents].
  inv_bind H. destruct a1 as [s1 e1]. inv_bind H. inv_ret H.
  apply (quiet_failed _ _ _ _ (quiet_Cache_Release _ _)) in Hstep4.
  assert (Hq' : forall (m : M (Status * CachableEntry.t Block)),
             quiet m -> m w3 = Some ((s, e), w4) -> ok s = false /\ e = empty_entry).
  { intros m Hm Hrun. exfalso. apply Hnew.
    rewrite Hstep4, (quiet_failed _ _ _ _ Hm Hrun). exact E3. }
  destruct (ok s0); [| eapply Hq'; [| exact Hstep3]; quiet].
  destruct c as [c |]; [| eapply Hq'; [| exact Hstep3]; quiet].
  destruct (cachable contents && fill_cache ro); [| eapply Hq'; [| exact Hstep3]; quiet].
  inv_bind Hstep3. destruct a2 as [s2 nh].
  apply Insert_failed_inserts in Hstep5 as [[Hok E] | (-> & -> & E)].
  - rewrite Hok in Hstep3. cbn [negb] in Hstep3. inv_ret Hstep3.
    exfalso. apply Hnew. congruence.
  - cbn [ok negb] in Hstep3. inv_bind Hstep3. inv_ret Hstep3. split; reflexivity.
Qed.

Lemma ok_true s : ok s = true -> s = kOk.
Proof. destruct s; intros H; try discriminate; reflexivity. Qed.

Lemma past_end_below (c : Comparator) e k (v : Slice) :
  (0 <=? c k e) = negb (below c e (k, v)).
Proof. unfold below. cbn [fst]. now rewrite Z.ltb_antisym, negb_involutive. Qed.

Lemma filter_none {A} (p : A -> bool) l :
  forallb (fun y => negb (p y)) l = true -> List.filter p l = [].
Proof.
  induction l as [| a l IH]; [reflexivity |]. cbn. intros H.
  apply andb_prop in H as [Ha Hl]. destruct (p a); [discriminate | auto].
Qed.

Lemma filter_all {A} (p : A -> bool) l :
  forallb p l = true -> List.filter p l = l.
Proof.
  induction l as [| a l IH]; [reflexivity |]. cbn. intros H.
  apply andb_prop in H as [Ha Hl]. rewrite Ha. now rewrite IH.
Qed.

Section PrefetchProofs.
Variable rep : Rep.
Variable end_ : Slice.

(** After the boundary block the loop stops at once. *)
Lemma Prefetch_loop_boundary es w :
  forallb (fun y => negb (below (internal_comparator rep) end_ y)) es = true ->
  Prefetch_loop rep (Some end_) es true w = Some (kOk, w).
Proof.
  destruct es as [| [k v] es]; [reflexivity |]. cbn [forallb Prefetch_loop].
  intros H. apply andb_prop in H as [Hx _].
  rewrite (past_end_below (internal_comparator rep) end_ k v), Hx. reflexivity.
Qed.
End PrefetchProofs.

(** ** Releasing a cachable entry *)

Lemma Release_times_released {T} (e : CachableEntry.t T) (c : option CachePtr) w :
  match cache_handle e with
  | Some h =>
      forall cp,
        c = Some cp ->
        let released_once :=
          set_cache cp (mkCache (table (cache_of cp w)) (accepts (cache_of cp w))
                          (last_id (cache_of cp w)) (h :: released (cache_of cp w))) w in
        forall n,
          Release_times (S n) e c w = Some (CachableEntry.mk None None, released_once)
  | None => forall n, Release_times n e c w = Some (e, w)
  end.
Proof.
  destruct (cache_handle e) as [h |] eqn:Hh.
  - intros cp -> released_once n. cbn [Release_times]. unfold Release at 1. rewrite Hh.
    unfold bind at 1 2. unfold Cache_Release. cbn [ret]. fold released_once.
    generalize released_once. clear. induction n as [| n IH]; intros w; [reflexivity |].
    cbn [Release_times]. unfold Release at 1. cbn [cache_handle]. unfold bind, ret.
    apply IH.
  - induction n as [| n IH]; [reflexivity |].
    cbn [Release_times]. unfold Release at 1. rewrite Hh. unfold bind, ret. exact IH.
Qed.

(** * The claims *)

(** C1 (amended): for every internal key, on a table whose filter is not
    fixed-size, PrefixMayMatch issues no file read: its filter and index
    accesses go to the block cache only.  When the index is resident neither
    in the reader nor in the cache, the Incomplete index seek is taken as
    "may match": the answer is true, unless the filter, which is then not
    block-based and resident, has already ruled out the prefix of the filter
    key, that is, the prefix extractor applied to the transformed user key. *)
Theorem PrefixMayMatch_no_file_io
  (CreateBlockHashIndex BlockPrefixIndex_Create :
     option SliceTransform -> Block -> Block -> Status * (Slice -> nat))
  rep internal_key w r w' :
  filter_type rep <> kFixedSizeFilter ->
  PrefixMayMatch CreateBlockHashIndex BlockPrefixIndex_Create rep internal_key w
  = Some (r, w') ->
  file_reads w' = file_reads w
  /\ (index_not_resident rep w ->
      r = true
      \/ exists extractor e w1 f,
          let user_key := ExtractUserKey internal_key in
          let filter_key := match filter_key_transformer rep with
                            | Some transform => transform user_key
                            | None => user_key
                            end in
          prefix_extractor (ioptions rep) = Some extractor
          /\ filter_type rep <> kBlockBasedFilter
          /\ GetFilter rep true (Some filter_key) w = Some (e, w1)
          /\ value e = Some f
          /\ FilterBlockReader.PrefixMayMatch f (Transform extractor filter_key) kNotValid
             = false).
Proof.
  intros Hft H. split.
  - exact (PrefixMayMatch_file_reads _ _ rep internal_key Hft _ _ _ H).
  - intros Hres. exact (PrefixMayMatch_index_not_resident _ _ _ _ _ _ _ Hft Hres H).
Qed.

(** The table with a full filter, nothing resident: the probe answers true and
    reads nothing. *)
Lemma PrefixMayMatch_no_file_io_witness :
  filter_type rep_full <> kFixedSizeFilter
  /\ probe_full = Some (true, world_after probe_full)
  /\ file_reads (world_after probe_full) = file_reads world_full.
Proof.
  assert (Hft : filter_type rep_full <> kFixedSizeFilter) by (vm_compute; discriminate).
  assert (Hrun : probe_full = Some (true, world_after probe_full))
    by (vm_compute; reflexivity).
  split; [exact Hft |]. split; [exact Hrun |].
  exact (proj1 (PrefixMayMatch_no_file_io no_hash_auxiliary no_hash_auxiliary rep_full
                  (ikey "apple") world_full true (world_after probe_full) Hft Hrun)).
Defined.

(** C1, as stated, fails on a fixed-size filter: on the example table, opened
    with a block cache, the probe for apple reads the filter block at offset
    200 from the file. *)
Lemma PrefixMayMatch_fixed_size_reads_file :
  open_cached = Some (kOk, Some rep_cached, world_cached)
  /\ filter_type rep_cached = kFixedSizeFilter
  /\ exists r w',
      probe_cached = Some (r, w')
      /\ file_reads w' = (1%nat, mkHandle 200 64) :: file_reads world_cached
      /\ file_reads w' <> file_reads world_cached.
Proof.
  split; [vm_compute; reflexivity |]. split; [vm_compute; reflexivity |].
  exists true, (world_after probe_cached).
  split; [vm_compute; reflexivity |]. split; [vm_compute; reflexivity |].
  vm_compute. discriminate.
Qed.


(** The get for apple on the example table under no_io: the first data block
    is not in the cache, so its open answers Incomplete; it is the only block
    opened, the context is marked and the status is OK. *)
Lemma Get_no_io_incomplete_witness :
  read_tier no_io_options = kBlockCacheTier
  /\ get_cached = Some get_cached_result
  /\ opened (snd get_cached_result) = [(EncodeTo (mkHandle 0 90), kIncomplete)]
  /\ exists news,
      opened (snd get_cached_result) = news ++ opened world_cached
      /\ incomplete_is_last news
      /\ (forall v rest, news = (v, kIncomplete) :: rest ->
            (exists c0, snd (fst get_cached_result) = MarkKeyMayExist c0)
            /\ fst (fst get_cached_result) = kOk).
Proof.
  assert (Htier : read_tier no_io_options = kBlockCacheTier) by reflexivity.
  assert (Hrun : get_cached
                 = Some (fst (fst get_cached_result), snd (fst get_cached_result),
                         snd get_cached_result)) by (vm_compute; reflexivity).
  split; [exact Htier |]. split; [vm_compute; reflexivity |].
  split; [vm_compute; reflexivity |].
  exact (Get_no_io_incomplete no_hash_auxiliary no_hash_auxiliary rep_cached no_io_options
           (ikey "apple") first_entry_context false world_cached _ _ _ Htier Hrun).
Defined.

(** The example table records a hash index; opened without a prefix extractor,
    the creation of its index reader is the creation of a binary-search one. *)
Lemma CreateDataBlockIndexReader_hash_without_extractor_witness :
  DecodeFixed32 [1; 0; 0; 0] = kHashSearch
  /\ prefix_extractor (ioptions rep_uncached) = None
  /\ CreateDataBlockIndexReader no_hash_auxiliary no_hash_auxiliary rep_uncached None
     = BinarySearchIndexReader_Create (reader (base_reader_with_cache_prefix rep_uncached))
         (index_handle (footer rep_uncached)) (internal_comparator rep_uncached).
Proof.
  assert (H1 : table_properties rep_uncached = Some (mkProps [(kIndexType, [1; 0; 0; 0])]))
    by (vm_compute; reflexivity).
  assert (H2 : props_find (user_collected_properties (mkProps [(kIndexType, [1; 0; 0; 0])]))
                 kIndexType = Some [1; 0; 0; 0]) by (vm_compute; reflexivity).
  assert (H3 : DecodeFixed32 [1; 0; 0; 0] = kHashSearch) by reflexivity.
  assert (H4 : prefix_extractor (ioptions rep_uncached) = None) by (vm_compute; reflexivity).
  split; [exact H3 |]. split; [exact H4 |].
  exact (proj1 (CreateDataBlockIndexReader_hash_without_extractor no_hash_auxiliary
                  no_hash_auxiliary rep_uncached None _ _ H1 H2 H3 H4)).
Defined.

(** C6: whenever Open succeeds, the filter type of the reader is the one of
    the first name found in the meta-index it read, the candidates being
    tried in the fixed order fullfilter., filter., fixedsizefilter. (each
    followed by the policy name), and kNoFilter when none is found or no
    filter policy is in use; the search over any list of candidates stops at
    the first one found. *)
Theorem Open_filter_search_order
  (CreateBlockHashIndex BlockPrefixIndex_Create :
     option SliceTransform -> Block -> Block -> Status * (Slice -> nat))
  ioptions_ topt cmp base_file prefetch skip_filters w s rep w' :
  Open CreateBlockHashIndex BlockPrefixIndex_Create ioptions_ topt cmp base_file
    prefetch skip_filters w = Some ((s, Some rep), w') ->
  exists meta w1 w2,
    ReadMetaBlock base_file (snd (footer_on_file base_file)) w1 = Some ((kOk, Some meta), w2)
    /\ filter_type rep =
       match (if skip_filters then None else to_filter_policy topt) with
       | Some policy => first_filter_type meta (bytes (Name policy))
       | None => kNoFilter
       end
    /\ (forall name fh,
          fst (Open_find_filter meta name
                 [kFullFilterBlockPrefix; kFilterBlockPrefix; kFixedSizeFilterBlockPrefix]
                 kNoFilter fh)
          = (kOk, first_filter_type meta name))
    /\ (forall name p rest ft fh,
          filter_found meta name p = true ->
          Open_find_filter meta name (p :: rest) ft fh
          = Open_find_filter meta name [p] ft fh).
Proof.
  intros H. destruct (Open_filter_type _ _ _ _ _ _ _ _ _ _ _ _ H) as (meta & w1 & w2 & Hm & Ht).
  exists meta, w1, w2. split; [exact Hm |]. split; [exact Ht |]. split.
  - intros name fh. apply Open_find_filter_order.
  - intros name p rest ft fh. apply Open_find_filter_found.
Qed.

(** The example table, whose meta-index only has the fixed-size filter name. *)
Lemma Open_filter_search_order_witness :
  open_cached = Some (kOk, Some rep_cached, world_cached)
  /\ filter_type rep_cached = kFixedSizeFilter.
Proof.
  assert (Hrun : open_cached = Some (kOk, Some rep_cached, world_cached))
    by (vm_compute; reflexivity).
  split; [exact Hrun |].
  destruct (Open_filter_search_order no_hash_auxiliary no_hash_auxiliary _ _ _ _ _ _ _ _ _ _
              Hrun) as (meta & w1 & w2 & _ & _ & _ & _).
  vm_compute. reflexivity.
Defined.

(** A meta-index holding both the block-based and the fixed-size filter name:
    the block-based one, tried first, wins. *)
Example Open_find_filter_both_names :
  fst (Open_find_filter
         (plain_block [(bytes "filter.P", EncodeTo (mkHandle 200 64));
                       (bytes "fixedsizefilter.P", EncodeTo (mkHandle 300 40))])
         (bytes "P") filter_block_prefixes kNoFilter (mkHandle 0 0))
  = (kOk, kBlockBasedFilter).
Proof. vm_compute. reflexivity. Qed.

(** ** Cache keys *)

Lemma EncodeVarint64_loop_length fuel v :
  (length (EncodeVarint64_loop fuel v) <= S fuel)%nat.
Proof.
  revert v. induction fuel as [| fuel IH]; intros v; cbn [EncodeVarint64_loop].
  - cbn. lia.
  - destruct (128 <=? v); cbn [length]; [specialize (IH (Z.shiftr v 7)) |]; lia.
Qed.

Lemma EncodeVarint64_length v : (0 < length (EncodeVarint64 v) <= 10)%nat.
Proof.
  split; [| apply (EncodeVarint64_loop_length 9)].
  pose proof (EncodeVarint64_nonempty v). destruct (EncodeVarint64 v); [congruence | cbn; lia].
Qed.

Lemma GetCacheKey_defined lo hi r h :
  prefix_shape lo hi r ->
  GetCacheKey (cache_key_prefix r) h
  = Some (cache_key_prefix r ++ EncodeVarint64 (offset h)).
Proof.
  unfold prefix_shape, GetCacheKey. intros Hs.
  assert (Hlen : (0 < length (cache_key_prefix r) <= 30)%nat).
  { destruct (unique_id (reader r)) as [[[d n] g] |].
    - rewrite Hs, !length_app.
      pose proof (EncodeVarint64_length d). pose proof (EncodeVarint64_length n).
      pose proof (EncodeVarint64_length g). lia.
    - destruct Hs as (id & -> & _). pose proof (EncodeVarint64_length id). lia. }
  destruct (Nat.eqb_spec (length (cache_key_prefix r)) 0); [lia |].
  destruct (Z.ltb_spec kMaxCacheKeyPrefixSize (Z.of_nat (length (cache_key_prefix r))))
    as [Hlt | _]; [| reflexivity].
  unfold kMaxCacheKeyPrefixSize, kMaxVarint64Length in Hlt. lia.
Qed.



(** ** Refused inserts *)




(** ** Prefetch *)

(** ** Releasing entries *)

(** C10: CachableEntry::Release is idempotent.  An entry that holds a cache
    handle: the first Release releases the handle once and clears handle and
    value, and releasing any number of further times changes nothing more, so
    the cache sees exactly one release.  An entry that holds no cache handle
    (a pre-loaded filter, the not-matching sentinel): releasing it any number
    of times is a no-op, whatever the cache, even a null one. *)
Theorem Release_idempotent {TValue} (e : CachableEntry.t TValue) (cache : option CachePtr)
  (w : World) :
  match cache_handle e with
  | Some h =>
      forall c,
        cache = Some c ->
        let released_once :=
          set_cache c (mkCache (table (cache_of c w)) (accepts (cache_of c w))
                         (last_id (cache_of c w)) (h :: released (cache_of c w))) w in
        Release e cache w = Some (CachableEntry.mk None None, released_once)
        /\ released (cache_of c released_once) = h :: released (cache_of c w)
        /\ forall n,
            Release_times (S n) e cache w = Some (CachableEntry.mk None None, released_once)
  | None => forall n, Release_times n e cache w = Some (e, w)
  end.
Proof.
  pose proof (Release_times_released e cache w) as H.
  destruct (cache_handle e) as [h |] eqn:Hh; [| exact H].
  intros c -> released_once. split; [| split].
  - unfold Release. rewrite Hh. reflexivity.
  - subst released_once. destruct c; reflexivity.
  - exact (H c eq_refl).
Qed.

(** The sentinel entry holds no handle: any number of releases, with or
    without a cache, leave it and the world as they were. *)
Example Release_sentinel :
  Release_times 3 not_matching_filter_entry None fresh_world
  = Some (not_matching_filter_entry, fresh_world).
Proof. reflexivity. Qed.

(** * Further properties of the reader *)

(** ** Block handles in index values *)

Lemma land_uint64_small a : 0 <= a < 2 ^ 64 -> Z.land a uint64_max = a.
Proof.
  intros Ha. unfold uint64_max. change (2 ^ 64 - 1) with (Z.ones 64).
  rewrite Z.land_ones by lia. apply Z.mod_small. exact Ha.
Qed.

Lemma testbit_small_7 v : 0 <= v < 128 -> Z.testbit v 7 = false.
Proof.
  intros Hv. destruct (Z.eq_dec v 0) as [-> | Hz]; [reflexivity |].
  apply Z.bits_above_log2; [lia |].
  apply Z.log2_lt_pow2; [lia | change (2 ^ 7) with 128; lia].
Qed.

Lemma testbit_continuation v : Z.testbit (Z.lor (Z.land v 127) 128) 7 = true.
Proof. rewrite Z.lor_spec. change (Z.testbit 128 7) with true. apply orb_true_r. Qed.

Lemma land_127_continuation v : Z.land (Z.lor (Z.land v 127) 128) 127 = Z.land v 127.
Proof.
  rewrite Z.land_lor_distr_l. rewrite <- Z.land_assoc.
  change (Z.land 127 127) with 127. change (Z.land 128 127) with 0.
  apply Z.lor_0_r.
Qed.

Lemma split_low_7 v shift :
  0 <= shift ->
  Z.lor (Z.shiftl (Z.land v 127) shift) (Z.shiftl (Z.shiftr v 7) (shift + 7))
  = Z.shiftl v shift.
Proof.
  intros Hs. apply Z.bits_inj'. intros n Hn.
  rewrite Z.lor_spec.
  destruct (Z.lt_ge_cases n shift) as [Hlt | Hge].
  - rewrite !Z.shiftl_spec_low by lia. reflexivity.
  - rewrite (Z.shiftl_spec (Z.land v 127)) by lia.
    rewrite (Z.shiftl_spec v) by lia.
    rewrite Z.land_spec. change 127 with (Z.ones 7).
    destruct (Z.lt_ge_cases (n - shift) 7) as [Hlow | Hhigh].
    + rewrite Z.ones_spec_low by lia. rewrite andb_true_r.
      rewrite Z.shiftl_spec_low by lia. apply orb_false_r.
    + rewrite Z.ones_spec_high by lia. rewrite andb_false_r. cbn [orb].
      rewrite Z.shiftl_spec by lia. rewrite Z.shiftr_spec by lia.
      f_equal. lia.
Qed.

Lemma GetVarint64_loop_EncodeVarint64_loop fuel :
  forall shift v result rest,
    0 <= shift -> shift + 7 * Z.of_nat fuel = 63 ->
    0 <= v < 2 ^ (64 - shift) ->
    GetVarint64_loop shift result (EncodeVarint64_loop fuel v ++ rest)
    = Some (Z.lor result (Z.shiftl v shift), rest).
Proof.
  induction fuel as [| fuel IH]; intros shift v result rest Hs Hfuel Hv.
  - assert (shift = 63) by lia. subst shift. change (2 ^ (64 - 63)) with 2 in Hv.
    cbn [EncodeVarint64_loop app GetVarint64_loop].
    change (63 <? 63) with false. cbv iota.
    rewrite testbit_small_7 by lia.
    rewrite land_uint64_small; [reflexivity |].
    rewrite Z.shiftl_mul_pow2 by lia. lia.
  - cbn [EncodeVarint64_loop].
    assert (Hsh : (63 <? shift) = false) by (apply Z.ltb_ge; lia).
    assert (Hpow : 2 ^ (64 - shift) * 2 ^ shift = 2 ^ 64)
      by (rewrite <- Z.pow_add_r by lia; f_equal; lia).
    destruct (Z.leb_spec 128 v) as [Hbig | Hsmall].
    + cbn [app GetVarint64_loop]. rewrite Hsh, testbit_continuation, land_127_continuation.
      rewrite land_uint64_small.
      2:{ rewrite Z.shiftl_mul_pow2 by lia.
          assert (0 <= Z.land v 127 < 128).
          { change 127 with (Z.ones 7). rewrite Z.land_ones by lia.
            apply Z.mod_pos_bound. reflexivity. }
          assert (2 ^ shift * 128 <= 2 ^ 64).
          { change 128 with (2 ^ 7). rewrite <- Z.pow_add_r by lia.
            apply Z.pow_le_mono_r; lia. }
          assert (0 < 2 ^ shift) by (apply Z.pow_pos_nonneg; lia).
          nia. }
      rewrite IH.
      * rewrite <- Z.lor_assoc, split_low_7 by lia. reflexivity.
      * lia.
      * lia.
      * rewrite Z.shiftr_div_pow2 by lia. change (2 ^ 7) with 128.
        assert (2 ^ (64 - shift) = 128 * 2 ^ (64 - (shift + 7))).
        { change 128 with (2 ^ 7). rewrite <- Z.pow_add_r by lia. f_equal. lia. }
        split; [apply Z.div_pos; lia |].
        apply Z.div_lt_upper_bound; lia.
    + cbn [app GetVarint64_loop]. rewrite Hsh.
      assert (Hv0 : 0 <= v) by lia.
      rewrite testbit_small_7 by lia.
      rewrite land_uint64_small; [reflexivity |].
      rewrite Z.shiftl_mul_pow2 by lia.
      assert (0 < 2 ^ shift) by (apply Z.pow_pos_nonneg; lia).
      nia.
Qed.

Lemma GetVarint64_EncodeVarint64 v rest :
  in_uint64 v -> GetVarint64 (EncodeVarint64 v ++ rest) = Some (v, rest).
Proof.
  intros Hv. unfold GetVarint64, EncodeVarint64.
  rewrite GetVarint64_loop_EncodeVarint64_loop; [| lia | reflexivity | exact Hv].
  rewrite Z.shiftl_0_r. reflexivity.
Qed.

Lemma DecodeFrom_EncodeTo h extra :
  in_uint64 (offset h) -> in_uint64 (size h) ->
  DecodeFrom (EncodeTo h ++ extra) = (kOk, h).
Proof.
  intros Ho Hs. unfold DecodeFrom, EncodeTo. rewrite <- app_assoc.
  rewrite GetVarint64_EncodeVarint64 by exact Ho.
  rewrite GetVarint64_EncodeVarint64 by exact Hs.
  destruct h; reflexivity.
Qed.

(** X1: an index value may carry extra bytes after the encoded handle
    (the source allows it "so that we can add more features in the
    future"): for a handle whose offset and size are 64-bit values,
    NewDataBlockIterator does on the value followed by any bytes exactly what
    it does on the value alone. *)
Theorem NewDataBlockIterator_ignores_trailing_bytes rep ro h extra :
  in_uint64 (offset h) -> in_uint64 (size h) ->
  DecodeFrom (EncodeTo h ++ extra) = (kOk, h)
  /\ NewDataBlockIterator_build rep ro (EncodeTo h ++ extra)
     = NewDataBlockIterator_build rep ro (EncodeTo h).
Proof.
  intros Ho Hs. split; [apply DecodeFrom_EncodeTo; assumption |].
  unfold NewDataBlockIterator_build.
  rewrite (DecodeFrom_EncodeTo h extra Ho Hs).
  pose proof (DecodeFrom_EncodeTo h [] Ho Hs) as E. rewrite app_nil_r in E.
  rewrite E. reflexivity.
Qed.

Lemma NewDataBlockIterator_ignores_trailing_bytes_witness :
  DecodeFrom (EncodeTo (mkHandle 300 90) ++ [1; 2; 3]) = (kOk, mkHandle 300 90)
  /\ NewDataBlockIterator_build rep_cached ReadOptions_kDefault
       (EncodeTo (mkHandle 300 90) ++ [1; 2; 3])
     = NewDataBlockIterator_build rep_cached ReadOptions_kDefault
         (EncodeTo (mkHandle 300 90)).
Proof.
  apply (NewDataBlockIterator_ignores_trailing_bytes rep_cached ReadOptions_kDefault
           (mkHandle 300 90) [1; 2; 3]); unfold in_uint64; cbn; lia.
Defined.

(** ** Cache keys *)

(** X2: whenever GetCacheKey returns, the key is the prefix followed by the
    varint of the offset and fits the buffer the callers give it,
    kMaxCacheKeyPrefixSize + kMaxVarint64Length bytes; the size of the
    handle plays no part in the key. *)
Theorem GetCacheKey_fits_buffer p h k :
  GetCacheKey p h = Some k ->
  k = p ++ EncodeVarint64 (offset h)
  /\ (length p < length k)%nat
  /\ Z.of_nat (length k) <= kMaxCacheKeyPrefixSize + kMaxVarint64Length
  /\ forall h', offset h' = offset h -> GetCacheKey p h' = Some k.
Proof.
  unfold GetCacheKey. intros H.
  destruct (Nat.eqb_spec (length p) 0) as [| Hne]; [discriminate |].
  destruct (Z.ltb_spec kMaxCacheKeyPrefixSize (Z.of_nat (length p))) as [| Hle];
    [discriminate |].
  injection H as <-. pose proof (EncodeVarint64_length (offset h)) as Hlen.
  split; [reflexivity |]. rewrite length_app. split; [lia |]. split.
  - unfold kMaxVarint64Length in *. lia.
  - intros h' ->. reflexivity.
Qed.

Lemma GetCacheKey_fits_buffer_witness :
  GetCacheKey [8; 42; 1] (mkHandle 300 90) = Some [8; 42; 1; 172; 2]
  /\ Z.of_nat (length [8; 42; 1; 172; 2]) <= kMaxCacheKeyPrefixSize + kMaxVarint64Length.
Proof.
  assert (H : GetCacheKey [8; 42; 1] (mkHandle 300 90) = Some [8; 42; 1; 172; 2])
    by reflexivity.
  split; [exact H |].
  exact (proj1 (proj2 (proj2 (GetCacheKey_fits_buffer _ _ _ H)))).
Defined.

(** X3: for a file the OS identifies, SetupCacheKeyPrefix allocates no cache
    id and changes nothing: both prefixes are the three varints of the
    identity (empty for a cache that is not configured), so every reader of
    the same file, whenever opened, addresses the same cache entries. *)
Theorem SetupCacheKeyPrefix_of_identified_file topt file d n g w :
  unique_id file = Some (d, n, g) ->
  let id := EncodeVarint64 d ++ EncodeVarint64 n ++ EncodeVarint64 g in
  SetupCacheKeyPrefix topt file w
  = Some (mkReader file
            (match block_cache topt with Some _ => id | None => [] end)
            (match block_cache_compressed topt with Some _ => id | None => [] end), w).
Proof.
  intros Hid id.
  assert (Hgen : forall cc w0, GenerateCachePrefix cc file w0 = Some (id, w0)).
  { intros cc w0. unfold GenerateCachePrefix, GetUniqueId. rewrite Hid.
    change (kMaxCacheKeyPrefixSize <? kMaxVarint64Length * 3) with false. cbv iota.
    fold id. destruct (Nat.eqb_spec (length id) 0) as [Hz | _]; [| reflexivity].
    exfalso. subst id. rewrite length_app in Hz.
    pose proof (EncodeVarint64_length d). lia. }
  unfold SetupCacheKeyPrefix, bind.
  destruct (block_cache topt), (block_cache_compressed topt);
    rewrite ?Hgen; cbn [ret]; rewrite ?Hgen; reflexivity.
Qed.

Lemma SetupCacheKeyPrefix_of_identified_file_witness :
  SetupCacheKeyPrefix options_with_cache example_file full_cache_world
  = Some (mkReader example_file [8; 42; 1] [], full_cache_world).
Proof.
  exact (SetupCacheKeyPrefix_of_identified_file options_with_cache example_file 8 42 1
           full_cache_world eq_refl).
Defined.

(** ** Running a computation step by step *)

(** [run H] takes apart a hypothesis [H : m w = Some (a, w')] along the
    structure of [m]: binds, returns, case distinctions and the primitive
    operations on the world.  The worlds met on the way are kept in normal
    form. *)
Ltac world_nf H :=
  cbn [block_cache_state block_cache_compressed_state file_reads ticks deleted opened
         failed_inserts set_cache cache_of log_failed_insert] in H.

Ltac run_prim H :=
  world_nf H; injection H; clear H; intros; subst.

Ltac split_cache c := try (is_var c; destruct c).

Ltac run H :=
  cbv beta iota zeta in H; cbn [ok negb fst snd] in H;
  lazymatch type of H with
  | bind _ _ _ = Some _ =>
      let a := fresh "a" in
      let w := fresh "w" in
      let Hs := fresh "Hrun" in
      apply bind_Some in H; destruct H as (a & w & Hs & H); run Hs; run H
  | ret _ _ = Some _ => inv_ret H
  | undefined _ = Some _ => discriminate H
  | lift (Some _) _ = Some _ => unfold lift in H; run_prim H
  | lift None _ = Some _ => discriminate H
  | lift ?o _ = Some _ =>
      unfold lift in H; destruct o eqn:?; [run_prim H | discriminate H]
  | RecordTick _ _ = Some _ => unfold RecordTick in H; run_prim H
  | delete_ _ _ = Some _ => unfold delete_ in H; run_prim H
  | log_read _ _ _ = Some _ => unfold log_read in H; run_prim H
  | log_open _ _ _ = Some _ => unfold log_open in H; run_prim H
  | Lookup ?c _ _ = Some _ => split_cache c; unfold Lookup in H; run_prim H
  | Cache_Release ?c _ _ = Some _ => split_cache c; unfold Cache_Release in H; run_prim H
  | Insert ?c ?k _ ?w = Some _ =>
      split_cache c;
      unfold Insert in H; cbv zeta in H; world_nf H;
      match type of H with
      | context [if ?x then _ else _] => destruct x eqn:?
      end; run_prim H
  | GetEntryFromCache _ _ _ _ _ = Some _ => unfold GetEntryFromCache in H; run H
  | as_block ?v _ = Some _ => unfold as_block in H; destruct v eqn:?; run H
  | as_filter ?v _ = Some _ => unfold as_filter in H; destruct v eqn:?; run H
  | as_index ?v _ = Some _ => unfold as_index in H; destruct v eqn:?; run H
  | (match ?x with _ => _ end) _ = Some _ => destruct x eqn:?; run H
  | _ => idtac
  end.

(** Decided conditions on options are evaluated. *)
Ltac eval_is_Some :=
  repeat match goal with
         | H : context [bool_decide (is_Some (Some ?x))] |- _ =>
             change (bool_decide (is_Some (Some x))) with true in H
         | H : context [bool_decide (is_Some (@None ?A))] |- _ =>
             change (bool_decide (is_Some (@None A))) with false in H
         | |- context [bool_decide (is_Some (Some ?x))] =>
             change (bool_decide (is_Some (Some x))) with true
         | |- context [bool_decide (is_Some (@None ?A))] =>
             change (bool_decide (is_Some (@None A))) with false
         end;
  cbn [andb orb negb] in *.

(** [frame_facts f] records, for every step [m w1 = Some (a, w2)] in the
    context that leaves the observation [f] alone, that [f w2 = f w1]. *)
Ltac frame_facts f :=
  repeat match goal with
         | H : ?m ?w1 = Some (_, ?w2) |- _ =>
             lazymatch goal with
             | _ : f w2 = f w1 |- _ => fail
             | _ =>
                 let P := fresh "Hframe" in
                 assert (P : preserves f m) by (solve [frame | eauto with frame nocore]);
                 let E := fresh "Hsame" in
                 pose proof (P _ _ _ H) as E; clear P
             end
         end.

(** ** Reading blocks *)

(** What a read of a block gives: one read is logged; a block comes back
    exactly with an OK status, and it holds the entries stored at the
    handle's offset, uncompressed if that was asked for. *)
Lemma ReadBlockFromFile_spec file handle do_uncompress w s ob w' :
  ReadBlockFromFile file handle do_uncompress w = Some ((s, ob), w') ->
  log_read (file_number file) handle w = Some (tt, w')
  /\ match ob with
     | Some b =>
         s = kOk
         /\ exists raw,
             blocks file !! offset handle = Some (kOk, raw)
             /\ entries b = entries raw
             /\ (is_compressed (compression_type raw) = false -> b = raw)
             /\ (do_uncompress = true -> compression_type b = kNoCompression)
     | None => ok s = false
     end.
Proof.
  unfold ReadBlockFromFile, ReadBlockContents. intros H.
  run H; (split; [reflexivity |]); try reflexivity.
  all: try match goal with
           | E : negb (ok ?st) = true |- ok ?st = false =>
               apply negb_true_iff in E; exact E
           end.
  all: try match goal with
           | E : UncompressBlockContents _ = _ |- _ =>
               unfold UncompressBlockContents in E;
               match type of E with
               | context [well_compressed ?b] => destruct (well_compressed b) eqn:?
               end; injection E as ? ?; subst
           end.
  all: try (cbn [ok] in *; congruence).
  all: split; [reflexivity |].
  all: match goal with
       | E : negb (ok ?st) = false |- _ =>
           apply negb_false_iff in E; destruct st; try discriminate E
       end.
  all: eexists; split; [reflexivity |]; cbn [entries compression_type].
  - apply andb_true_iff in Heqb1 as [_ Hc].
    split; [reflexivity |]. split; [congruence | reflexivity].
  - split; [reflexivity |]. split; [reflexivity |]. intros ->. cbn [andb] in Heqb1.
    destruct (compression_type b); [reflexivity | discriminate].
Qed.

(** ** Entries handed back by the data-block cache paths *)

Lemma GetDataBlockFromCache_entry k ck bc bcc ro w s e w' :
  GetDataBlockFromCache k ck bc bcc ro w = Some ((s, e), w') ->
  file_reads w' = file_reads w
  /\ (is_Some (value e) -> ok s = true)
  /\ match cache_handle e with
     | Some h => exists c b, bc = Some c /\ value e = Some b /\ h_value h = CVBlock b
     | None => True
     end.
Proof.
  unfold GetDataBlockFromCache. intros H.
  run H.
  all: cbn [value cache_handle file_reads ok].
  all: rewrite ?file_reads_set_cache; cbn [file_reads].
  all: try (split; [reflexivity |]).
  all: split; [try reflexivity; try (intros [? ?]; discriminate); try (intros _; assumption) |].
  all: try exact I.
  all: try (eexists _, _; split; [reflexivity |]; split; [reflexivity |]; cbn [h_value];
            solve [reflexivity | assumption]).
Qed.

Lemma uncompressed_entries raw s b :
  (if is_compressed (compression_type raw)
   then UncompressBlockContents raw else (kOk, raw)) = (s, b) ->
  negb (ok s) = false -> entries b = entries raw.
Proof.
  unfold UncompressBlockContents.
  destruct (is_compressed _), (well_compressed raw); intros H Hs;
    injection H as <- <-; try reflexivity; discriminate.
Qed.

Lemma PutDataBlockToCache_entry k ck bc bcc raw w s e w' :
  PutDataBlockToCache k ck bc bcc raw w = Some ((s, e), w') ->
  file_reads w' = file_reads w
  /\ (ok s = true -> is_Some (value e))
  /\ (forall b, value e = Some b -> entries b = entries raw)
  /\ match cache_handle e with
     | Some h => exists c b, bc = Some c /\ value e = Some b /\ h_value h = CVBlock b
     | None => True
     end.
Proof.
  unfold PutDataBlockToCache. intros H.
  run H.
  all: try match goal with
           | E : (if _ then _ else _) = (_, _), E' : negb (ok _) = false |- _ =>
               pose proof (uncompressed_entries _ _ _ E E') as Hentries
           end.
  all: cbn [value cache_handle file_reads ok].
  all: rewrite ?file_reads_set_cache; cbn [file_reads].
  all: rewrite ?file_reads_set_cache; cbn [file_reads].
  all: split; [reflexivity |].
  all: split; [try (intros _; eexists; reflexivity); try discriminate |].
  all: try (intros Hs; match goal with E : negb (ok _) = true |- _ =>
                         rewrite Hs in E; discriminate E end).
  all: split; [intros b' Hb'; try discriminate Hb'; injection Hb' as <-; assumption |].
  all: try exact I.
  all: try (eexists _, _; split; [reflexivity |]; split; reflexivity).
Qed.

Ltac use_block_specs :=
  repeat match goal with
         | H : GetDataBlockFromCache _ _ _ _ _ _ = Some ((_, _), _) |- _ =>
             apply GetDataBlockFromCache_entry in H; destruct H as (? & ? & ?)
         | H : PutDataBlockToCache _ _ _ _ _ _ = Some ((_, _), _) |- _ =>
             apply PutDataBlockToCache_entry in H; destruct H as (? & ? & ? & ?)
         | H : ReadBlockFromFile _ _ _ _ = Some ((_, _), _) |- _ =>
             apply ReadBlockFromFile_spec in H; destruct H as [? ?]
         end.

(** ** The data-block iterator factory *)

(** X4: every iterator NewDataBlockIterator hands back either has an OK
    status, ranges over the entries of a block and carries exactly one
    cleanup for it (the release of the block-cache handle that pins the
    block, or the deletion of the block it owns), or has a failure status,
    ranges over nothing and carries no cleanup. *)
Theorem NewDataBlockIterator_owns_its_block rep ro index_value w it w' :
  NewDataBlockIterator rep ro index_value w = Some (it, w') ->
  if ok (it_status it)
  then exists b,
      it_entries it = entries b
      /\ (it_cleanup it = [DeleteHeldResource b]
          \/ exists c h,
              block_cache (table_options rep) = Some c
              /\ h_value h = CVBlock b
              /\ it_cleanup it = [ReleaseCachedEntry c h])
  else it_entries it = [] /\ it_cleanup it = [].
Proof.
  unfold NewDataBlockIterator, NewDataBlockIterator_build. intros H.
  run H; use_block_specs.
  all: repeat match goal with t : CachableEntry.t _ |- _ => destruct t end.
  all: cbn [value cache_handle SetStatus NewErrorInternalIterator it_status it_entries
             it_cleanup RegisterCleanup Block_NewIterator ok] in *; subst.
  all: repeat match goal with
              | H : exists _, _ |- _ => destruct H as [? H]
              | H : _ /\ _ |- _ => destruct H as [? ?]
              | H : Some _ = Some _ |- _ => injection H as ?; subst
              end.
  all: eval_is_Some; rewrite ?andb_false_r in *.
  all: try discriminate.
  all: repeat match goal with
              | E : negb _ = true |- _ => apply negb_true_iff in E
              | E : negb _ = false |- _ => apply negb_false_iff in E
              | E : ok ?s = _ |- context [ok ?s] => rewrite E
              end.
  all: try (split; reflexivity).
  all: try (eexists; split; [reflexivity |]; left; reflexivity).
  all: try (eexists; split; [reflexivity |]; right; eexists _, _;
            split; [reflexivity |]; split; [eassumption | reflexivity]).
Qed.

Lemma NewDataBlockIterator_owns_its_block_witness :
  let it := iter_after open_apple in
  open_apple = Some (it, world_apple)
  /\ if ok (it_status it)
     then exists b,
         it_entries it = entries b
         /\ (it_cleanup it = [DeleteHeldResource b]
             \/ exists c h,
                 block_cache (table_options rep_cached) = Some c
                 /\ h_value h = CVBlock b
                 /\ it_cleanup it = [ReleaseCachedEntry c h])
     else it_entries it = [] /\ it_cleanup it = [].
Proof.
  intros it.
  assert (H : open_apple = Some (it, world_apple)) by (vm_compute; reflexivity).
  split; [exact H |].
  exact (NewDataBlockIterator_owns_its_block rep_cached ReadOptions_kDefault
           (EncodeTo apple_handle) world_cached it world_apple H).
Defined.

Ltac run_log_reads :=
  repeat match goal with
         | H : log_read _ _ _ = Some _ |- _ => unfold log_read in H; run_prim H
         end.

Ltac bool_hyps :=
  repeat match goal with
         | E : negb _ = true |- _ => apply negb_true_iff in E
         | E : negb _ = false |- _ => apply negb_false_iff in E
         | E : _ && _ = true |- _ => apply andb_true_iff in E; destruct E
         | E : ok ?s = _ |- context [ok ?s] => rewrite E
         end.

(** Runs an unfolded NewDataBlockIterator to its end on every path and
    exposes the reads logged on the way. *)
Ltac trace_reads H :=
  run H; use_block_specs; run_log_reads;
  repeat match goal with t : CachableEntry.t _ |- _ => destruct t end;
  cbn [value cache_handle file_reads snd] in *; subst;
  eval_is_Some; rewrite ?andb_false_r in *;
  try discriminate;
  bool_hyps;
  repeat match goal with
         | H : ok ?s = true -> is_Some ?v, E : ok ?s = true |- _ =>
             specialize (H E); destruct H as [? ->]
         end;
  eval_is_Some; try discriminate.

(** X5: one call of NewDataBlockIterator issues at most one read, to the
    data file and at the handle decoded from the index value; under
    read_tier = kBlockCacheTier it issues none. *)
Theorem NewDataBlockIterator_reads_at_most_once rep ro index_value w it w' :
  NewDataBlockIterator rep ro index_value w = Some (it, w') ->
  file_reads w' = file_reads w
  \/ (is_no_io ro = false
      /\ file_reads w'
         = (file_number (reader (data_reader_with_cache_prefix rep)),
            snd (DecodeFrom index_value)) :: file_reads w).
Proof.
  unfold NewDataBlockIterator, NewDataBlockIterator_build. intros H.
  trace_reads H.
  all: try (left; congruence).
  all: try (right; split; [assumption | congruence]).
Qed.

Lemma NewDataBlockIterator_reads_at_most_once_witness :
  open_apple = Some (iter_after open_apple, world_apple)
  /\ (file_reads world_apple = file_reads world_cached
      \/ (is_no_io ReadOptions_kDefault = false
          /\ file_reads world_apple
             = (file_number (reader (data_reader_with_cache_prefix rep_cached)),
                snd (DecodeFrom (EncodeTo apple_handle))) :: file_reads world_cached)).
Proof.
  assert (H : open_apple = Some (iter_after open_apple, world_apple))
    by (vm_compute; reflexivity).
  split; [exact H |].
  exact (NewDataBlockIterator_reads_at_most_once rep_cached ReadOptions_kDefault
           (EncodeTo apple_handle) world_cached _ world_apple H).
Defined.

Lemma log_open_table c v s : preserves (fun w => table (cache_of c w)) (log_open v s).
Proof. intros w r w' H. injection H as _ <-. now destruct c. Qed.
Lemma ReadBlockFromFile_table c f h d :
  preserves (fun w => table (cache_of c w)) (ReadBlockFromFile f h d).
Proof. unfold ReadBlockFromFile, ReadBlockContents. frame. Qed.
#[export] Hint Resolve log_open_table ReadBlockFromFile_table : frame.

Ltac absurd_fill :=
  match goal with
  | E : _ && false = true |- _ => rewrite andb_false_r in E; discriminate E
  end.

Lemma GetDataBlockFromCache_no_fill_table c k ck bc bcc ro :
  fill_cache ro = false ->
  preserves (fun w => table (cache_of c w)) (GetDataBlockFromCache k ck bc bcc ro).
Proof.
  intros Hfill. unfold GetDataBlockFromCache. rewrite Hfill. frame; absurd_fill.
Qed.

Lemma GetDataBlockFromCache_no_fill_quiet k ck bc bcc ro :
  fill_cache ro = false -> quiet (GetDataBlockFromCache k ck bc bcc ro).
Proof.
  intros Hfill. unfold GetDataBlockFromCache. rewrite Hfill. quiet; absurd_fill.
Qed.

(** X6: with fill_cache off, NewDataBlockIterator inserts nothing: the
    contents of both block caches are as before, and no insert is even
    attempted. *)
Theorem NewDataBlockIterator_without_fill_cache rep ro index_value w it w' :
  fill_cache ro = false ->
  NewDataBlockIterator rep ro index_value w = Some (it, w') ->
  failed_inserts w' = failed_inserts w
  /\ forall c, table (cache_of c w') = table (cache_of c w).
Proof.
  intros Hfill H. split; [| intros c]; revert w it w' H.
  - assert (Hq : quiet (NewDataBlockIterator rep ro index_value)).
    { pose proof (GetDataBlockFromCache_no_fill_quiet) as HG.
      unfold NewDataBlockIterator, NewDataBlockIterator_build. rewrite Hfill.
      repeat first [apply HG; exact Hfill | quiet_step]; absurd_fill. }
    intros w it w' H. apply (Hq _ _ _ H).
  - change (preserves (fun w => table (cache_of c w))
              (NewDataBlockIterator rep ro index_value)).
    pose proof (GetDataBlockFromCache_no_fill_table c) as HG.
    unfold NewDataBlockIterator, NewDataBlockIterator_build. rewrite Hfill.
    repeat first [apply HG; exact Hfill | frame_step]; absurd_fill.
Qed.

Lemma NewDataBlockIterator_without_fill_cache_witness :
  fill_cache no_fill_options = false
  /\ open_apple_no_fill
     = Some (iter_after open_apple_no_fill, world_after open_apple_no_fill)
  /\ failed_inserts (world_after open_apple_no_fill) = failed_inserts world_cached
  /\ forall c, table (cache_of c (world_after open_apple_no_fill))
               = table (cache_of c world_cached).
Proof.
  assert (Hfill : fill_cache no_fill_options = false) by reflexivity.
  assert (H : open_apple_no_fill
              = Some (iter_after open_apple_no_fill, world_after open_apple_no_fill))
    by (vm_compute; reflexivity).
  split; [exact Hfill |]. split; [exact H |].
  exact (NewDataBlockIterator_without_fill_cache rep_cached no_fill_options
           (EncodeTo apple_handle) world_cached _ _ Hfill H).
Defined.

(** X7: a block that is in the uncompressed block cache is served from it,
    whatever the read options: the iterator ranges over the cached block and
    pins it through the handle, one BLOCK_CACHE_DATA_HIT is counted, and
    neither the file is read nor any cache changed. *)
Theorem NewDataBlockIterator_cache_hit rep ro index_value w c handle k b :
  block_cache (table_options rep) = Some c ->
  DecodeFrom index_value = (kOk, handle) ->
  GetCacheKey (cache_key_prefix (data_reader_with_cache_prefix rep)) handle = Some k ->
  (forall cc, block_cache_compressed (table_options rep) = Some cc ->
              is_Some (GetCacheKey
                         (compressed_cache_key_prefix (data_reader_with_cache_prefix rep))
                         handle)) ->
  table (cache_of c w) !! k = Some (CVBlock b) ->
  exists w',
    NewDataBlockIterator rep ro index_value w
    = Some (RegisterCleanup (ReleaseCachedEntry c (mkCacheHandle k (CVBlock b)))
              (Block_NewIterator b (internal_comparator rep) None true), w')
    /\ file_reads w' = file_reads w
    /\ (forall c', cache_of c' w' = cache_of c' w)
    /\ ticks w' = BLOCK_CACHE_DATA_HIT :: ticks w
    /\ opened w' = (index_value, kOk) :: opened w.
Proof.
  intros Hbc Hdec Hk Hck Hres.
  unfold NewDataBlockIterator, NewDataBlockIterator_build.
  rewrite Hdec, Hbc, Hk. cbn [ok negb].
  change (bool_decide (is_Some (Some c))) with true. cbn [orb].
  assert (Hc : exists ckey,
             match block_cache_compressed (table_options rep) with
             | Some _ =>
                 lift (GetCacheKey
                         (compressed_cache_key_prefix (data_reader_with_cache_prefix rep))
                         handle)
             | None => ret []
             end = ret ckey).
  { destruct (block_cache_compressed (table_options rep)) as [cc |] eqn:Hcc.
    - destruct (Hck cc eq_refl) as [ckey ->]. exists ckey. reflexivity.
    - exists []. reflexivity. }
  destruct Hc as [ckey ->].
  unfold GetDataBlockFromCache, GetEntryFromCache, Lookup, bind, ret, lift.
  rewrite Hres.
  unfold RecordTick, as_block. cbv beta iota. cbn [h_value value cache_handle ok].
  change (bool_decide (is_Some (Some b))) with true. cbn [negb andb].
  unfold log_open. cbn [it_status RegisterCleanup Block_NewIterator].
  eexists. split; [reflexivity |]. cbn [file_reads ticks opened].
  split; [reflexivity |]. split; [| split; reflexivity].
  intros c'. destruct c'; reflexivity.
Qed.

Lemma NewDataBlockIterator_cache_hit_witness :
  table (cache_of BlockCache world_apple) !! [8; 42; 1; 0]
  = Some (CVBlock (plain_block [(ikey "apple", bytes "red")]))
  /\ exists w',
      reopen_apple
      = Some (RegisterCleanup
                (ReleaseCachedEntry BlockCache
                   (mkCacheHandle [8; 42; 1; 0]
                      (CVBlock (plain_block [(ikey "apple", bytes "red")]))))
                (Block_NewIterator (plain_block [(ikey "apple", bytes "red")])
                   (internal_comparator rep_cached) None true), w')
      /\ file_reads w' = file_reads world_apple.
Proof.
  assert (Hres : table (cache_of BlockCache world_apple) !! [8; 42; 1; 0]
                 = Some (CVBlock (plain_block [(ikey "apple", bytes "red")])))
    by (vm_compute; reflexivity).
  split; [exact Hres |].
  destruct (NewDataBlockIterator_cache_hit rep_cached no_io_options (EncodeTo apple_handle)
              world_apple BlockCache apple_handle [8; 42; 1; 0]
              (plain_block [(ikey "apple", bytes "red")]))
    as (w' & Hrun & Hreads & _).
  - vm_compute; reflexivity.
  - vm_compute; reflexivity.
  - vm_compute; reflexivity.
  - intros cc Hcc. vm_compute in Hcc. discriminate Hcc.
  - exact Hres.
  - exists w'. split; [exact Hrun | exact Hreads].
Defined.

(** X8: reading through the cache.  With an uncompressed block cache only,
    blocking reads allowed and fill_cache on, a successful open of a block
    that is not in the cache reads it once from the data file and, when the
    block is cachable, leaves it in the cache under its key, pinned by the
    iterator; a block that is not cachable is owned by the iterator and the
    cache is left as it was. *)
Theorem NewDataBlockIterator_read_through rep ro index_value w it w' c handle k :
  block_cache (table_options rep) = Some c ->
  block_cache_compressed (table_options rep) = None ->
  DecodeFrom index_value = (kOk, handle) ->
  GetCacheKey (cache_key_prefix (data_reader_with_cache_prefix rep)) handle = Some k ->
  is_no_io ro = false ->
  fill_cache ro = true ->
  table (cache_of c w) !! k = None ->
  NewDataBlockIterator rep ro index_value w = Some (it, w') ->
  ok (it_status it) = true ->
  exists b,
    it_entries it = entries b
    /\ (exists raw,
          blocks (reader (data_reader_with_cache_prefix rep)) !! offset handle
          = Some (kOk, raw)
          /\ entries b = entries raw)
    /\ file_reads w'
       = (file_number (reader (data_reader_with_cache_prefix rep)), handle) :: file_reads w
    /\ (if cachable b
        then table (cache_of c w') = <[k := CVBlock b]> (table (cache_of c w))
             /\ it_cleanup it = [ReleaseCachedEntry c (mkCacheHandle k (CVBlock b))]
        else table (cache_of c w') = table (cache_of c w)
             /\ it_cleanup it = [DeleteHeldResource b]).
Proof.
  intros Hbc Hbcc Hdec Hk Hio Hfill Hres H Hok.
  unfold NewDataBlockIterator, NewDataBlockIterator_build, GetDataBlockFromCache,
    PutDataBlockToCache in H.
  rewrite Hbc, Hbcc, Hdec, Hk, Hio, Hfill in H.
  change (bool_decide (is_Some (Some c))) with true in H.
  change (bool_decide (is_Some (@None CachePtr))) with false in H.
  cbn [ok negb orb andb] in H. rewrite ?andb_true_r, ?andb_false_r in H.
  run H; use_block_specs; run_log_reads.
  all: cbn [cache_of] in Hres.
  all: try match goal with
           | E : match table _ !! _ with _ => _ end = _ |- _ => rewrite Hres in E
           end; try discriminate.
  all: cbn [value cache_handle it_status it_entries it_cleanup RegisterCleanup
             Block_NewIterator file_reads cache_of block_cache_state table] in *.
  all: eval_is_Some; try discriminate.
  all: bool_hyps; rewrite ?andb_true_r in *; try congruence.
  all: repeat match goal with
              | H : Some _ = Some _ |- _ => injection H as ?; subst
              | H : _ /\ _ |- _ => destruct H as [? ?]
              | H : exists _, _ |- _ => destruct H as [? H]
              end.
  all: cbn [SetStatus NewErrorInternalIterator it_status it_entries it_cleanup ok] in *.
  all: repeat match goal with
              | E : is_compressed ?c = _, H : (if is_compressed ?c then _ else _) = _ |- _ =>
                  rewrite E in H
              end.
  all: try discriminate; try congruence.
  all: repeat match goal with
              | H : (_, _) = (_, _) |- _ => injection H as ? ?; subst
              end.
  all: eexists; split; [reflexivity |].
  all: split; [eexists; split; eassumption |]; split; [reflexivity |].
  all: repeat match goal with
              | E : cachable ?b = _ |- context [cachable ?b] => rewrite E
              end.
  all: split; reflexivity.
Qed.

Lemma NewDataBlockIterator_read_through_witness :
  open_apple = Some (iter_after open_apple, world_apple)
  /\ ok (it_status (iter_after open_apple)) = true
  /\ exists b,
      it_entries (iter_after open_apple) = entries b
      /\ file_reads world_apple
         = (file_number (reader (data_reader_with_cache_prefix rep_cached)), apple_handle)
           :: file_reads world_cached.
Proof.
  assert (H : open_apple = Some (iter_after open_apple, world_apple))
    by (vm_compute; reflexivity).
  assert (Hok : ok (it_status (iter_after open_apple)) = true) by (vm_compute; reflexivity).
  split; [exact H |]. split; [exact Hok |].
  destruct (NewDataBlockIterator_read_through rep_cached ReadOptions_kDefault
              (EncodeTo apple_handle) world_cached (iter_after open_apple) world_apple
              BlockCache apple_handle [8; 42; 1; 0])
    as (b & Hentries & _ & Hreads & _).
  - vm_compute; reflexivity.
  - vm_compute; reflexivity.
  - vm_compute; reflexivity.
  - vm_compute; reflexivity.
  - reflexivity.
  - reflexivity.
  - vm_compute; reflexivity.
  - exact H.
  - exact Hok.
  - exists b. split; [exact Hentries | exact Hreads].
Defined.

(** ** Loading data blocks *)

Lemma Lookup_is_Some (t : gmap Slice CacheValue) k (o : option Handle) :
  match t !! k with
  | Some v => Some (mkCacheHandle k v)
  | None => None
  end = o ->
  is_Some o -> is_Some (t !! k).
Proof. destruct (t !! k); intros <- [x Hx]; [eexists; reflexivity | discriminate Hx]. Qed.

(** A block found by the cache lookups was in one of the caches, and is in
    the uncompressed one afterwards when there is one. *)
Lemma GetDataBlockFromCache_resident k ck bc bcc w s e w' :
  GetDataBlockFromCache k ck bc bcc ReadOptions_kDefault w = Some ((s, e), w') ->
  is_Some (value e) ->
  ((exists c, bc = Some c /\ is_Some (table (cache_of c w) !! k))
   \/ (exists cc, bcc = Some cc /\ is_Some (table (cache_of cc w) !! ck)))
  /\ forall c, bc = Some c -> is_Some (table (cache_of c w') !! k).
Proof.
  unfold GetDataBlockFromCache. intros H Hv.
  run H.
  all: cbn [value] in Hv; try (destruct Hv as [? Hv]; discriminate Hv).
  all: repeat match goal with
              | E : UncompressBlockContents _ = _ |- _ =>
                  unfold UncompressBlockContents in E;
                  match type of E with
                  | context [well_compressed ?b] => destruct (well_compressed b)
                  end; inversion E; subst; clear E
              end.
  all: cbn [cachable fill_cache ReadOptions_kDefault andb ok] in *; try discriminate.
  all: split;
    [ first [ left; eexists; split; [reflexivity |]; cbn [cache_of];
              eapply Lookup_is_Some; [eassumption | eexists; reflexivity]
            | right; eexists; split; [reflexivity |]; cbn [cache_of];
              eapply Lookup_is_Some; [eassumption | eexists; reflexivity] ]
    | intros c Hc; try discriminate Hc; injection Hc as <-;
      cbn [cache_of block_cache_state block_cache_compressed_state table];
      first [ eapply Lookup_is_Some; [eassumption | eexists; reflexivity]
            | eexists; first [apply lookup_insert_eq | apply lookup_insert] ] ].
Qed.

(** A block put into the caches with success is in the uncompressed cache
    afterwards, when there is one, unless it is marked as not cachable. *)
Lemma PutDataBlockToCache_resident k ck bc bcc raw w s e w' :
  PutDataBlockToCache k ck bc bcc raw w = Some ((s, e), w') ->
  ok s = true ->
  forall c,
    bc = Some c ->
    is_Some (table (cache_of c w') !! k)
    \/ (is_compressed (compression_type raw) = false /\ cachable raw = false).
Proof.
  unfold PutDataBlockToCache. intros H Hs c Hc. subst bc.
  run H.
  all: cbn [ok] in Hs; try discriminate Hs.
  all: try match goal with
           | E : negb (ok ?st) = true, E' : ok ?st = true |- _ =>
               rewrite E' in E; discriminate E
           end.
  all: try (left; cbn [cache_of block_cache_state block_cache_compressed_state table];
            eexists; first [apply lookup_insert_eq | apply lookup_insert]).
  all: match goal with
       | E : (if is_compressed (compression_type ?r) then _ else _) = (_, _) |- _ =>
           destruct (is_compressed (compression_type r)) eqn:Hcomp;
           [ unfold UncompressBlockContents in E; destruct (well_compressed r);
             inversion E; subst; clear E
           | inversion E; subst; clear E ]
       end.
  all: cbn [cachable ok negb] in *; try discriminate.
  all: try (right; split; [reflexivity | assumption]).
Qed.

(** A block read from a file is the block stored at the handle, or its
    uncompressed contents, which can be cached. *)
Lemma ReadBlockFromFile_stored file handle do_uncompress w s b w' :
  ReadBlockFromFile file handle do_uncompress w = Some ((s, Some b), w') ->
  exists raw,
    blocks file !! offset handle = Some (kOk, raw) /\ (b = raw \/ cachable b = true).
Proof.
  unfold ReadBlockFromFile, ReadBlockContents. intros H.
  run H.
  all: repeat match goal with
              | E : UncompressBlockContents _ = _ |- _ =>
                  unfold UncompressBlockContents in E;
                  match type of E with
                  | context [well_compressed ?b] => destruct (well_compressed b)
                  end; inversion E; subst; clear E
              | E : negb (ok ?st) = false |- _ =>
                  apply negb_false_iff in E; destruct st; try discriminate E
              end.
  all: eexists; split; [reflexivity |]; first [left; reflexivity | right; reflexivity].
Qed.

Ltac note_block_specs :=
  repeat match goal with
         | H : GetDataBlockFromCache _ _ _ _ _ _ = Some ((_, _), _) |- _ =>
             pose proof (GetDataBlockFromCache_resident _ _ _ _ _ _ _ _ H);
             apply GetDataBlockFromCache_entry in H; destruct H as (? & ? & _)
         | H : PutDataBlockToCache _ _ _ _ _ _ = Some ((_, _), _) |- _ =>
             pose proof (PutDataBlockToCache_resident _ _ _ _ _ _ _ _ _ H);
             apply PutDataBlockToCache_entry in H; destruct H as (? & ? & _ & _)
         | H : ReadBlockFromFile _ _ _ _ = Some ((_, Some _), _) |- _ =>
             pose proof (ReadBlockFromFile_stored _ _ _ _ _ _ _ H);
             apply ReadBlockFromFile_spec in H; destruct H as [? _]
         | H : ReadBlockFromFile _ _ _ _ = Some ((_, None), _) |- _ =>
             apply ReadBlockFromFile_spec in H; destruct H as [? ?]
         end.

Lemma cache_of_same_caches c w rd tk dl op fi :
  cache_of c (mkWorld (block_cache_state w) (block_cache_compressed_state w) rd tk dl op fi)
  = cache_of c w.
Proof. destruct c; reflexivity. Qed.

(** One successful open with the default read options loads the block. *)
Lemma NewDataBlockIterator_loads rep index_value w it w' :
  NewDataBlockIterator rep ReadOptions_kDefault index_value w = Some (it, w') ->
  ok (it_status it) = true ->
  block_loaded rep w w' index_value.
Proof.
  unfold NewDataBlockIterator, NewDataBlockIterator_build. intros H Hok.
  cbn [is_no_io ReadOptions_kDefault read_tier fill_cache] in H.
  run H.
  all: cbn [it_status SetStatus NewErrorInternalIterator RegisterCleanup Block_NewIterator ok]
         in Hok.
  all: try discriminate Hok.
  all: note_block_specs; run_log_reads.
  all: repeat match goal with t : CachableEntry.t _ |- _ => destruct t end.
  all: cbn [value cache_handle file_reads snd block_cache_state block_cache_compressed_state
              cache_of table] in *; subst.
  all: eval_is_Some; rewrite ?andb_false_r, ?andb_true_r in *.
  all: try discriminate.
  all: bool_hyps.
  all: try congruence.
  all: repeat match goal with
              | H : ok ?s = true -> is_Some ?v, E : ok ?s = true |- _ =>
                  specialize (H E); destruct H as [? ->]
              | H : ok ?s = true -> forall _, _, E : ok ?s = true |- _ =>
                  specialize (H E)
              | H : is_Some (Some ?x) -> _ |- _ =>
                  specialize (H (ex_intro _ x eq_refl))
              | H : is_Some None -> _ |- _ => clear H
              end.
  all: eval_is_Some; try discriminate.
  all: cbn [ticks deleted opened failed_inserts file_reads] in *.
  all: repeat match goal with
              | E : ok ?s = true |- _ => is_var s; apply ok_true in E; subst s
              | H : forall c', Some ?c = Some c' -> _ |- _ => specialize (H c eq_refl)
              | H : _ /\ _ |- _ => destruct H
              end.
  all: exists b; split; [assumption |].
  all: cbn [file_reads]; split.
  all: try (intros c' Hc';
            match goal with
            | Hc : block_cache _ = None |- _ => rewrite Hc in Hc'; discriminate Hc'
            | Hc : bool_decide (is_Some (block_cache _)) || _ = false |- _ =>
                rewrite Hc' in Hc; discriminate Hc
            | Hc : block_cache _ = Some ?c |- _ =>
                rewrite Hc in Hc'; injection Hc' as <-
            end;
            eexists; (split; [eassumption |]); rewrite cache_of_same_caches;
            try (left; assumption);
            match goal with
            | H : is_Some _ \/ _ |- _ =>
                destruct H as [H | [_ Hn]]; [left; exact H | right]
            end;
            match goal with
            | H : @ex Block _ |- _ =>
                destruct H as (raw & Hraw & [-> | Hc'']);
                [exists raw; split; [exact Hraw | exact Hn] | congruence]
            end).
  all: try (left; split;
            [ congruence
            | match goal with
              | H : @ex Block _ |- _ =>
                  destruct H as (raw & Hraw & _); exists raw; exact Hraw
              end ]).
  all: right; (split; [congruence |]); unfold block_resident.
  all: match goal with
       | H : @ex CachePtr _ \/ @ex CachePtr _ |- _ =>
           destruct H as [(c' & E & Hs) | (cc & E & Hs)];
           [ try discriminate E; injection E as <-; left
           | try discriminate E; injection E as <-; right ];
           eexists _, _; (split; [eassumption |]); (split; [eassumption | exact Hs])
       end.
Qed.

(** With the default read options one open issues at most one read. *)
Lemma NewDataBlockIterator_default_reads rep index_value w it w' :
  NewDataBlockIterator rep ReadOptions_kDefault index_value w = Some (it, w') ->
  file_reads w' = file_reads w
  \/ file_reads w'
     = (file_number (reader (data_reader_with_cache_prefix rep)),
        snd (DecodeFrom index_value)) :: file_reads w.
Proof.
  unfold NewDataBlockIterator, NewDataBlockIterator_build. intros H.
  cbn [is_no_io ReadOptions_kDefault read_tier fill_cache] in H.
  trace_reads H.
  all: try (left; congruence).
  all: try (right; congruence).
Qed.

Lemma run_cleanups_table c cs : preserves (fun w => table (cache_of c w)) (run_cleanups cs).
Proof.
  induction cs as [| x cs IH]; cbn [run_cleanups]; [apply preserves_ret |].
  apply preserves_bind; [destruct x; cbn [run_cleanup]; auto with frame nocore | intros _; exact IH].
Qed.

Lemma DestroyIterator_table c it :
  preserves (fun w => table (cache_of c w)) (DestroyIterator it).
Proof. apply run_cleanups_table. Qed.

(** What is loaded stays loaded while nothing is read and no cache changes. *)
Lemma block_loaded_then rep w w1 w2 index_value :
  block_loaded rep w w1 index_value ->
  file_reads w2 = file_reads w1 ->
  (forall c, table (cache_of c w2) = table (cache_of c w1)) ->
  block_loaded rep w w2 index_value.
Proof.
  intros (h & Hd & Hr & Hc) Hreads Htable. exists h. split; [exact Hd |].
  rewrite Hreads. split; [exact Hr |].
  intros c Hbc. destruct (Hc c Hbc) as (k & Hk & H). exists k. split; [exact Hk |].
  rewrite Htable. exact H.
Qed.

Lemma loaded_in_order_then rep es :
  forall w w1 w2,
    loaded_in_order rep es w w1 ->
    file_reads w2 = file_reads w1 ->
    (forall c, table (cache_of c w2) = table (cache_of c w1)) ->
    loaded_in_order rep es w w2.
Proof.
  induction es as [| x es IH]; intros w w1 w2 H Hreads Htable; cbn [loaded_in_order] in *.
  - destruct H as [Hr Ht]. split; [congruence |]. intros c. rewrite Htable. apply Ht.
  - destruct H as (wm & Hx & Hrest). exists wm. split; [exact Hx |].
    exact (IH _ _ _ Hrest Hreads Htable).
Qed.

(** One turn of the loop of Prefetch: the open and the end of the iterator. *)
Lemma Prefetch_turn rep index_value w biter w1 w2 :
  NewDataBlockIterator rep ReadOptions_kDefault index_value w = Some (biter, w1) ->
  DestroyIterator biter w1 = Some (tt, w2) ->
  opened w2 = (index_value, it_status biter) :: opened w
  /\ (ok (it_status biter) = true -> block_loaded rep w w2 index_value)
  /\ (file_reads w2 = file_reads w
      \/ file_reads w2
         = (file_number (reader (data_reader_with_cache_prefix rep)),
            snd (DecodeFrom index_value)) :: file_reads w).
Proof.
  intros Hopen Hend.
  pose proof (DestroyIterator_file_reads _ _ _ _ Hend) as Hr.
  split; [| split].
  - rewrite (DestroyIterator_opened _ _ _ _ Hend).
    exact (NewDataBlockIterator_log _ _ _ _ _ _ Hopen).
  - intros Hok. apply (block_loaded_then rep w w1 w2).
    + exact (NewDataBlockIterator_loads _ _ _ _ _ Hopen Hok).
    + exact Hr.
    + intros c. exact (DestroyIterator_table c _ _ _ _ Hend).
  - rewrite Hr. exact (NewDataBlockIterator_default_reads _ _ _ _ _ Hopen).
Qed.

Lemma prefetched_nil rep w : prefetched rep [] w kOk w.
Proof. left. split; [reflexivity |]. split; [reflexivity |]. split; reflexivity. Qed.

Lemma prefetched_cons rep x es w w1 s w' :
  opened w1 = (snd x, kOk) :: opened w ->
  block_loaded rep w w1 (snd x) ->
  prefetched rep es w1 s w' ->
  prefetched rep (x :: es) w s w'.
Proof.
  intros Ho Hx [(-> & Hop & Hl) | (Hs & n & y & wn & Hn & Hop & Hl & Hr)].
  - left. split; [reflexivity |]. split.
    + rewrite Hop, Ho. unfold loaded_ok. cbn [map rev]. now rewrite <- app_assoc.
    + cbn [loaded_in_order]. exists w1. split; [exact Hx | exact Hl].
  - right. split; [exact Hs |]. exists (S n), y, wn. split; [exact Hn |]. split.
    + rewrite Hop, Ho. unfold loaded_ok. cbn [take map rev]. now rewrite <- !app_assoc.
    + split; [| exact Hr]. cbn [take loaded_in_order]. exists w1. split; [exact Hx | exact Hl].
Qed.

Lemma prefetched_failed rep x es w s w' :
  ok s = false ->
  opened w' = (snd x, s) :: opened w ->
  (file_reads w' = file_reads w
   \/ file_reads w'
      = (file_number (reader (data_reader_with_cache_prefix rep)),
         snd (DecodeFrom (snd x))) :: file_reads w) ->
  prefetched rep (x :: es) w s w'.
Proof.
  intros Hs Ho Hr. right. split; [exact Hs |]. exists O, x, w.
  split; [reflexivity |]. split; [exact Ho |]. split; [| exact Hr].
  split; reflexivity.
Qed.

Lemma prefetched_then rep es w s w1 w2 :
  prefetched rep es w s w1 ->
  opened w2 = opened w1 ->
  file_reads w2 = file_reads w1 ->
  (forall c, table (cache_of c w2) = table (cache_of c w1)) ->
  prefetched rep es w s w2.
Proof.
  intros [(-> & Hop & Hl) | (Hs & n & y & wn & Hn & Hop & Hl & Hr)] Ho Hreads Htable.
  - left. split; [reflexivity |]. split; [congruence |].
    exact (loaded_in_order_then _ _ _ _ _ Hl Hreads Htable).
  - right. split; [exact Hs |]. exists n, y, wn. split; [exact Hn |].
    split; [congruence |]. split; [exact Hl |]. rewrite Hreads. exact Hr.
Qed.

(** The loop of Prefetch without an end. *)
Lemma Prefetch_loop_without_end rep es :
  forall b w s w',
    Prefetch_loop rep None es b w = Some (s, w') -> prefetched rep es w s w'.
Proof.
  induction es as [| [k v] es IH]; intros b w s w' H.
  - cbn in H. inv_ret H. apply prefetched_nil.
  - cbn [Prefetch_loop andb] in H. cbv iota zeta in H.
    inv_bind H. rename a into biter. inv_bind H. destruct a.
    destruct (Prefetch_turn _ _ _ _ _ _ Hstep Hstep0) as (Ho & Hl & Hr).
    destruct (ok (it_status biter)) eqn:Hok; cbn [negb] in H.
    + apply (prefetched_cons rep (k, v) es w w1).
      * rewrite Ho. now rewrite (ok_true _ Hok).
      * exact (Hl eq_refl).
      * exact (IH _ _ _ _ H).
    + inv_ret H. apply prefetched_failed; assumption.
Qed.

Section PrefetchLoopProofs.
Variable rep : Rep.
Variable end_ : Slice.

(** The loop of Prefetch up to an end. *)
Lemma Prefetch_loop_spec es :
ordered_past_end (internal_comparator rep) end_ es = true ->
forall w s w',
  Prefetch_loop rep (Some end_) es false w = Some (s, w') ->
  prefetch_outcome rep end_ es w s w'.
Proof.
unfold prefetch_outcome.
induction es as [| [k v] es IH]; intros Hord w s w' H.
- cbn in H. inv_ret H. apply prefetched_nil.
- cbn [ordered_past_end] in Hord. apply andb_prop in Hord as [Hx Hord].
  cbn [Prefetch_loop] in H.
  rewrite (past_end_below (internal_comparator rep) end_ k v), andb_false_r in H.
  inv_bind H. rename a into biter. inv_bind H. destruct a.
  destruct (Prefetch_turn _ _ _ _ _ _ Hstep Hstep0) as (Ho & Hl & Hr).
  destruct (ok (it_status biter)) eqn:Hok; cbn [negb] in H.
  + rewrite (ok_true _ Hok) in Ho.
    unfold prefetch_blocks. cbn [List.filter].
    destruct (below (internal_comparator rep) end_ (k, v)) eqn:Hb; cbn [negb] in *.
    * (* a block below the end: load it and go on *)
      apply (prefetched_cons rep (k, v) _ w w1); [exact Ho | exact (Hl eq_refl) |].
      exact (IH Hord _ _ _ H).
    * (* the boundary block: load it, then stop *)
      cbn [orb] in Hx. rewrite Prefetch_loop_boundary in H by exact Hx.
      injection H as <- <-. rewrite (filter_none _ _ Hx). cbn [app take].
      apply (prefetched_cons rep (k, v) [] w w1); [exact Ho | exact (Hl eq_refl) |].
      apply prefetched_nil.
  + inv_ret H.
    assert (Hblocks : exists rest,
               prefetch_blocks (internal_comparator rep) end_ ((k, v) :: es)
               = (k, v) :: rest).
    { unfold prefetch_blocks. cbn [List.filter].
      destruct (below (internal_comparator rep) end_ (k, v)) eqn:Hb; cbn [negb];
        [eexists; reflexivity |].
      cbn [orb] in Hx. rewrite (filter_none _ _ Hx). eexists; reflexivity. }
    destruct Hblocks as [rest ->]. apply prefetched_failed; assumption.
Qed.
End PrefetchLoopProofs.

Section PrefetchTop.
Variable CreateBlockHashIndex :
option SliceTransform -> Block -> Block -> Status * (Slice -> nat).
Variable BlockPrefixIndex_Create :
option SliceTransform -> Block -> Block -> Status * (Slice -> nat).

(** C9: Prefetch(begin, end) with begin not after end, over an index in which
  the entries at or past end come last: from the seek position for begin
  on, it loads, in index order, the data block of every index entry whose
  key is below end and then exactly one more, the boundary block of the
  first entry whose key is at or past end (when there is one), and stops.
  Loading a block is reading it from the data file, unless it is in a
  block cache already, and leaves it in the uncompressed block cache when
  the table has one and the block can be cached.  A failing load ends the
  prefetch at that block with its status.  An index iterator that cannot
  be opened ends it with nothing loaded. *)
Theorem Prefetch_loads rep begin_ end_ w s w' :
internal_comparator rep begin_ end_ <= 0 ->
Prefetch CreateBlockHashIndex BlockPrefixIndex_Create rep (Some begin_) (Some end_) w
= Some (s, w') ->
exists iiter w1,
  NewIndexIterator CreateBlockHashIndex BlockPrefixIndex_Create rep
    ReadOptions_kDefault w = Some (iiter, w1)
  /\ opened w1 = opened w
  /\ (ok (it_status iiter) = false ->
      s = it_status iiter /\ opened w' = opened w /\ file_reads w' = file_reads w1)
  /\ (ok (it_status iiter) = true ->
      let es := drop (it_current (Seek iiter begin_)) (it_entries iiter) in
      ordered_past_end (internal_comparator rep) end_ es = true ->
      prefetch_outcome rep end_ es w1 s w').
Proof.
intros Hle H. unfold Prefetch in H.
destruct (Z.ltb_spec 0 (internal_comparator rep begin_ end_)) as [Hlt | _]; [lia |].
inv_bind H. rename a into iiter. exists iiter, w0. split; [exact Hstep |].
pose proof (NewIndexIterator_opened _ _ _ _ _ _ _ Hstep) as Hw0.
split; [exact Hw0 |].
destruct (ok (it_status iiter)) eqn:Hok; cbn [negb] in H.
- split; [discriminate |]. intros _ es Hord.
  inv_bind H. inv_bind H. inv_ret H. destruct a0.
  apply (Prefetch_loop_spec rep end_ _ Hord) in Hstep0.
  apply (prefetched_then _ _ _ _ _ _ Hstep0).
  + exact (DestroyIterator_opened _ _ _ _ Hstep1).
  + exact (DestroyIterator_file_reads _ _ _ _ Hstep1).
  + intros c. exact (DestroyIterator_table c _ _ _ _ Hstep1).
- split; [| discriminate]. intros _. inv_bind H. inv_ret H. destruct a.
  rewrite (DestroyIterator_opened _ _ _ _ Hstep0).
  rewrite (DestroyIterator_file_reads _ _ _ _ Hstep0). auto.
Qed.
End PrefetchTop.

(** The scenario of the specification: index keys C, H, P, Z, begin B, end K;
    the blocks loaded are those ending at C, H and P, each read from the
    file, the table having no block cache. *)
Lemma Prefetch_loads_witness :
  internal_comparator alphabet_rep (bytes "B") (bytes "K") <= 0
  /\ prefetch_alphabet = Some (kOk, world_after prefetch_alphabet)
  /\ opened (world_after prefetch_alphabet)
     = loaded_ok [ (bytes "C", EncodeTo (mkHandle 0 10));
                   (bytes "H", EncodeTo (mkHandle 100 10));
                   (bytes "P", EncodeTo (mkHandle 200 10)) ]
  /\ loaded_in_order alphabet_rep
       [ (bytes "C", EncodeTo (mkHandle 0 10));
         (bytes "H", EncodeTo (mkHandle 100 10));
         (bytes "P", EncodeTo (mkHandle 200 10)) ]
       fresh_world (world_after prefetch_alphabet)
  /\ file_reads (world_after prefetch_alphabet)
     = [ (4%nat, mkHandle 200 10); (4%nat, mkHandle 100 10); (4%nat, mkHandle 0 10) ].
Proof.
  assert (Hle : internal_comparator alphabet_rep (bytes "B") (bytes "K") <= 0)
    by (vm_compute; discriminate).
  assert (Hrun : prefetch_alphabet = Some (kOk, world_after prefetch_alphabet))
    by (vm_compute; reflexivity).
  split; [exact Hle |]. split; [exact Hrun |].
  destruct (Prefetch_loads no_hash_auxiliary no_hash_auxiliary alphabet_rep (bytes "B")
              (bytes "K") fresh_world kOk (world_after prefetch_alphabet) Hle Hrun)
    as (iiter & w1 & Hit & _ & _ & Hok).
  assert (Hit' : NewIndexIterator no_hash_auxiliary no_hash_auxiliary alphabet_rep
                   ReadOptions_kDefault fresh_world
                 = Some (Block_NewIterator (plain_block alphabet_index) BytewiseCompare
                           None true, fresh_world)) by reflexivity.
  rewrite Hit' in Hit. injection Hit as <- <-.
  destruct (Hok eq_refl) as [(_ & Ho & Hl) | [Hs _]];
    [vm_compute; reflexivity | | discriminate Hs].
  split; [rewrite Ho; vm_compute; reflexivity |].
  split; [exact Hl |].
  vm_compute. reflexivity.
Defined.

(** ** Queries on the reader *)

Lemma run_cleanups_total cs w : exists w', run_cleanups cs w = Some (tt, w').
Proof.
  revert w. induction cs as [| c cs IH]; intros w; [eexists; reflexivity |].
  cbn [run_cleanups]. unfold bind.
  destruct c as [cache h | b]; cbn [run_cleanup]; unfold Cache_Release, delete_; apply IH.
Qed.

Lemma DestroyIterator_total it w : exists w', DestroyIterator it w = Some (tt, w').
Proof. apply run_cleanups_total. Qed.

Section QueryProofs.
Variable CreateBlockHashIndex :
option SliceTransform -> Block -> Block -> Status * (Slice -> nat).
Variable BlockPrefixIndex_Create :
option SliceTransform -> Block -> Block -> Status * (Slice -> nat).

(** X9: TEST_KeyInCache answers exactly whether the data block the index
  points to for the key is in the uncompressed block cache.  Between
  getting the index iterator and destroying it, it reads no file, counts
  no statistic, changes the contents of no cache, and releases the handle
  it took on the block, if any. *)
Theorem TEST_KeyInCache_reports_residency rep ro key_ w it w1 c handle k :
NewIndexIterator CreateBlockHashIndex BlockPrefixIndex_Create rep ro w = Some (it, w1) ->
Valid (Seek it key_) = true ->
DecodeFrom (value_ (Seek it key_)) = (kOk, handle) ->
block_cache (table_options rep) = Some c ->
GetCacheKey (cache_key_prefix (data_reader_with_cache_prefix rep)) handle = Some k ->
(forall v, table (cache_of c w1) !! k = Some v -> exists b, v = CVBlock b) ->
exists w2 w',
  TEST_KeyInCache CreateBlockHashIndex BlockPrefixIndex_Create rep ro key_ w
  = Some (bool_decide (is_Some (table (cache_of c w1) !! k)), w')
  /\ DestroyIterator (Seek it key_) w2 = Some (tt, w')
  /\ file_reads w2 = file_reads w1
  /\ ticks w2 = ticks w1
  /\ (forall c', table (cache_of c' w2) = table (cache_of c' w1))
  /\ released (cache_of c w2)
     = match table (cache_of c w1) !! k with
       | Some v => mkCacheHandle k v :: released (cache_of c w1)
       | None => released (cache_of c w1)
       end.
Proof.
intros Hit Hvalid Hdec Hbc Hk Htype.
unfold TEST_KeyInCache. unfold bind at 1. rewrite Hit. cbv beta iota zeta.
rewrite Hvalid, Hdec, Hbc. cbn [negb ok]. unfold bind at 1. rewrite Hk.
unfold lift. cbv beta iota.
unfold bind at 1. unfold with_null_statistics, GetDataBlockFromCache, GetEntryFromCache.
unfold bind at 1 2. unfold Lookup.
destruct (table (cache_of c w1) !! k) as [v |] eqn:Hres.
- destruct (Htype v eq_refl) as [b ->].
  unfold RecordTick, bind, as_block, ret, Cache_Release. cbn [h_value value cache_handle ok negb].
  change (bool_decide (is_Some (Some b))) with true. cbv beta iota.
  cbn [block_cache_state block_cache_compressed_state file_reads ticks deleted opened
         failed_inserts].
  match goal with
  | |- context [DestroyIterator _ ?W] =>
      destruct (DestroyIterator_total (Seek it key_) W) as [w' Hd]; rewrite Hd;
      exists W, w'
  end.
  split; [reflexivity |]. split; [exact Hd |].
  destruct c; cbn [set_cache cache_of file_reads ticks block_cache_state
                     block_cache_compressed_state released table];
    (split; [reflexivity |]); (split; [reflexivity |]);
    (split; [intros c'; destruct c'; reflexivity | reflexivity]).
- unfold RecordTick, bind, ret. cbn [value cache_handle ok negb].
  change (bool_decide (is_Some (@None Block))) with false. cbv beta iota.
  cbn [block_cache_state block_cache_compressed_state file_reads ticks deleted opened
         failed_inserts].
  match goal with
  | |- context [DestroyIterator _ ?W] =>
      destruct (DestroyIterator_total (Seek it key_) W) as [w' Hd]; rewrite Hd;
      exists W, w'
  end.
  split; [reflexivity |]. split; [exact Hd |].
  destruct c; cbn [cache_of file_reads ticks block_cache_state
                     block_cache_compressed_state released table];
    (split; [reflexivity |]); (split; [reflexivity |]);
    (split; [intros c'; destruct c'; reflexivity | reflexivity]).
Qed.
End QueryProofs.

Lemma TEST_KeyInCache_reports_residency_witness :
  exists w', key_in_cache_apple = Some (true, w').
Proof.
  destruct (TEST_KeyInCache_reports_residency no_hash_auxiliary no_hash_auxiliary
              rep_cached ReadOptions_kDefault (ikey "apple") world_apple
              (iter_after index_iterator_apple) world_apple BlockCache apple_handle
              [8; 42; 1; 0])
    as (w2 & w' & Hrun & _).
  - vm_compute; reflexivity.
  - vm_compute; reflexivity.
  - vm_compute; reflexivity.
  - vm_compute; reflexivity.
  - vm_compute; reflexivity.
  - intros v Hv. vm_compute in Hv. injection Hv as <-. eexists. reflexivity.
  - exists w'. exact Hrun.
Defined.

(** ** Approximate offsets *)

Lemma BinarySeek_monotone cmp es key1 key2 :
  not_above cmp es key1 key2 ->
  (BinarySeek cmp es key1 <= BinarySeek cmp es key2)%nat.
Proof.
  induction es as [| e es IH]; intros Hle; cbn [BinarySeek]; [lia |].
  destruct (Z.ltb_spec (cmp (fst e) key1) 0) as [H1 | H1]; [| lia].
  assert (H2 : cmp (fst e) key2 < 0) by (apply Hle; [left; reflexivity | exact H1]).
  apply Z.ltb_lt in H2. rewrite H2.
  apply le_n_S, IH. intros e' Hin. apply Hle. right. exact Hin.
Qed.

Lemma BinarySeek_le_length cmp es key_ : (BinarySeek cmp es key_ <= length es)%nat.
Proof.
  induction es as [| e es IH]; cbn [BinarySeek length]; [lia |].
  destruct (cmp (fst e) key_ <? 0); lia.
Qed.

Lemma offset_at_head_le es bound :
  increasing_offsets es bound ->
  forall q, offset_at es bound 0 <= offset_at es bound q.
Proof.
  induction es as [| e rest IH]; intros Hinc q; [unfold offset_at; rewrite !lookup_nil; lia |].
  destruct Hinc as (_ & Hle & Hrest).
  destruct q as [| q]; [lia |].
  unfold offset_at at 1 2. cbn [lookup list_lookup].
  change (offset (snd (DecodeFrom (snd e))) <= offset_at rest bound q).
  specialize (IH Hrest q).
  destruct rest as [| e' rest']; [unfold offset_at; rewrite lookup_nil; lia |].
  unfold offset_at at 1 in IH. cbn [lookup list_lookup] in IH. lia.
Qed.

Lemma offset_at_monotone es bound :
  increasing_offsets es bound ->
  forall p q, (p <= q)%nat -> offset_at es bound p <= offset_at es bound q.
Proof.
  induction es as [| e rest IH]; intros Hinc p q Hpq; [unfold offset_at; rewrite !lookup_nil; lia |].
  destruct p as [| p]; [apply offset_at_head_le; exact Hinc |].
  destruct q as [| q]; [lia |].
  destruct Hinc as (_ & _ & Hrest).
  apply (IH Hrest p q). lia.
Qed.

Lemma increasing_offsets_decodes es bound p e :
  increasing_offsets es bound -> es !! p = Some e -> fst (DecodeFrom (snd e)) = kOk.
Proof.
  revert p. induction es as [| e0 rest IH]; intros p Hinc Hp; [discriminate Hp |].
  destruct Hinc as (Hd & _ & Hrest).
  destruct p as [| p]; [injection Hp as <-; exact Hd |].
  apply (IH p Hrest Hp).
Qed.

Section OffsetProofs.
Variable CreateBlockHashIndex :
option SliceTransform -> Block -> Block -> Status * (Slice -> nat).
Variable BlockPrefixIndex_Create :
option SliceTransform -> Block -> Block -> Status * (Slice -> nat).
Variable data_size : TableProperties -> Z.

Lemma ApproximateOffsetOf_preloaded rep r key_ w :
data_index_reader rep = Some r ->
hash_seek r = None ->
increasing_offsets (entries (index_block r)) (end_offset data_size rep) ->
ApproximateOffsetOf CreateBlockHashIndex BlockPrefixIndex_Create data_size rep key_ w
= Some (offset_at (entries (index_block r)) (end_offset data_size rep)
          (BinarySeek (ir_comparator r) (entries (index_block r)) key_), w).
Proof.
intros Hr Hh Hinc.
unfold ApproximateOffsetOf, NewIndexIterator. rewrite Hr.
assert (Hit : IndexReader_NewIterator r (total_order_seek ReadOptions_kDefault)
              = Block_NewIterator (index_block r) (ir_comparator r) None true).
{ unfold IndexReader_NewIterator. rewrite Hh. destruct (ir_kind r); reflexivity. }
rewrite Hit. unfold bind, ret. cbv beta iota zeta.
unfold DestroyIterator. cbn [Seek Block_NewIterator it_cleanup it_entries it_seek
                               it_status run_cleanups ret].
unfold Valid, value_, offset_at, end_offset.
cbn [Seek Block_NewIterator it_current it_entries it_seek].
set (es := entries (index_block r)) in *.
set (p := BinarySeek (ir_comparator r) es key_).
destruct (es !! p) as [e |] eqn:Hp.
- assert (Hlt : (p < length es)%nat) by (apply lookup_lt_is_Some; eauto).
  apply Nat.ltb_lt in Hlt. rewrite Hlt.
  pose proof (increasing_offsets_decodes _ _ _ _ Hinc Hp) as Hd.
  destruct (DecodeFrom (snd e)) as [s h]. cbn [fst] in Hd. subst s. reflexivity.
- assert (Hge : (length es <= p)%nat) by (apply lookup_ge_None; exact Hp).
  apply Nat.ltb_ge in Hge. rewrite Hge.
  destruct (table_properties rep) as [props |]; [| reflexivity].
  destruct (data_size props =? 0); reflexivity.
Qed.

(** X10: approximate offsets grow with the key.  On a table whose index is
  pre-loaded and searched by binary search, whose index handles decode and
  have offsets that grow along the index up to the offset answered past
  the end (the data size of the properties, or the offset of the
  meta-index block), ApproximateOffsetOf returns without touching
  anything, and a key that is not above another gets an offset that is not
  above the other's. *)
Theorem ApproximateOffsetOf_monotone rep r key1 key2 w :
data_index_reader rep = Some r ->
hash_seek r = None ->
increasing_offsets (entries (index_block r)) (end_offset data_size rep) ->
not_above (ir_comparator r) (entries (index_block r)) key1 key2 ->
exists o1 o2,
  ApproximateOffsetOf CreateBlockHashIndex BlockPrefixIndex_Create data_size rep key1 w
  = Some (o1, w)
  /\ ApproximateOffsetOf CreateBlockHashIndex BlockPrefixIndex_Create data_size rep key2 w
     = Some (o2, w)
  /\ o1 <= o2.
Proof.
intros Hr Hh Hinc Hle.
eexists _, _. split; [apply (ApproximateOffsetOf_preloaded rep r key1 w Hr Hh Hinc) |].
split; [apply (ApproximateOffsetOf_preloaded rep r key2 w Hr Hh Hinc) |].
apply offset_at_monotone; [exact Hinc |].
apply BinarySeek_monotone. exact Hle.
Qed.
End OffsetProofs.

Lemma ApproximateOffsetOf_monotone_witness :
  exists o1 o2,
    ApproximateOffsetOf no_hash_auxiliary no_hash_auxiliary no_data_size alphabet_rep
      (bytes "B") fresh_world = Some (o1, fresh_world)
    /\ ApproximateOffsetOf no_hash_auxiliary no_hash_auxiliary no_data_size alphabet_rep
         (bytes "K") fresh_world = Some (o2, fresh_world)
    /\ o1 <= o2.
Proof.
  apply (ApproximateOffsetOf_monotone no_hash_auxiliary no_hash_auxiliary no_data_size
           alphabet_rep
           (mkIndexReader BinarySearchIndex BytewiseCompare (plain_block alphabet_index) None)
           (bytes "B") (bytes "K") fresh_world).
  - reflexivity.
  - reflexivity.
  - repeat split; try reflexivity; vm_compute; intros H; discriminate H.
  - intros e [<- | [<- | [<- | [<- | []]]]]; vm_compute; intros H;
      first [discriminate H | reflexivity].
Defined.

(** ** Point lookups *)

Section GetMoreProofs.
Variable CreateBlockHashIndex :
option SliceTransform -> Block -> Block -> Status * (Slice -> nat).
Variable BlockPrefixIndex_Create :
option SliceTransform -> Block -> Block -> Status * (Slice -> nat).

Lemma NewIndexIterator_preloaded rep r ro w :
data_index_reader rep = Some r ->
hash_seek r = None ->
NewIndexIterator CreateBlockHashIndex BlockPrefixIndex_Create rep ro w
= Some (Block_NewIterator (index_block r) (ir_comparator r) None true, w).
Proof.
intros Hr Hh. unfold NewIndexIterator. rewrite Hr.
unfold IndexReader_NewIterator. rewrite Hh. destruct (ir_kind r); reflexivity.
Qed.

(** Without block caches a data block is read from the file, once, and owned
  by the iterator. *)
Lemma NewDataBlockIterator_uncached rep ro index_value handle raw w :
block_cache (table_options rep) = None ->
block_cache_compressed (table_options rep) = None ->
is_no_io ro = false ->
DecodeFrom index_value = (kOk, handle) ->
blocks (reader (data_reader_with_cache_prefix rep)) !! offset handle = Some (kOk, raw) ->
is_compressed (compression_type raw) = false ->
NewDataBlockIterator rep ro index_value w
= Some (RegisterCleanup (DeleteHeldResource raw)
          (Block_NewIterator raw (internal_comparator rep) None true),
        mkWorld (block_cache_state w) (block_cache_compressed_state w)
          ((file_number (reader (data_reader_with_cache_prefix rep)), handle)
           :: file_reads w)
          (ticks w) (deleted w) ((index_value, kOk) :: opened w) (failed_inserts w)).
Proof.
intros Hbc Hbcc Hio Hdec Hblock Hraw.
unfold NewDataBlockIterator, NewDataBlockIterator_build.
rewrite Hbc, Hbcc, Hio, Hdec. cbn [ok negb].
change (bool_decide (is_Some (@None CachePtr))) with false. cbn [orb].
unfold bind at 1 2. unfold ret at 1. cbv beta iota zeta.
cbn [ok value andb negb].
change (bool_decide (is_Some (@None Block))) with false. cbn [negb andb].
unfold bind at 1 2. unfold ReadBlockFromFile, ReadBlockContents, bind, log_read.
cbv beta iota. cbn [block_cache_state block_cache_compressed_state file_reads ticks
                      deleted opened failed_inserts].
rewrite Hblock. cbn [ok negb]. rewrite Hraw. cbn [andb]. unfold ret. cbv beta iota.
cbn [ok value cache_handle]. unfold log_open.
cbn [it_status RegisterCleanup Block_NewIterator block_cache_state
       block_cache_compressed_state file_reads ticks deleted opened failed_inserts].
reflexivity.
Qed.

(** X11: a point lookup end to end, on a table without block caches whose
  index is pre-loaded and searched by binary search, with filters skipped
  and blocking reads allowed.  When the index seek selects an entry whose
  handle decodes to a readable, uncompressed block, and the seek inside
  that block finds an entry the context wants no more after, Get reads
  that one block, hands the context that entry, frees the block and
  returns OK; the OK is returned even when the entry's key does not parse
  as an internal key. *)
Theorem Get_hands_over_first_entry rep r ro internal_key get_context w ik hv handle raw k v :
block_cache (table_options rep) = None ->
block_cache_compressed (table_options rep) = None ->
data_index_reader rep = Some r ->
hash_seek r = None ->
is_no_io ro = false ->
entries (index_block r)
  !! BinarySeek (ir_comparator r) (entries (index_block r)) internal_key = Some (ik, hv) ->
DecodeFrom hv = (kOk, handle) ->
blocks (reader (data_reader_with_cache_prefix rep)) !! offset handle = Some (kOk, raw) ->
is_compressed (compression_type raw) = false ->
entries raw !! BinarySeek (internal_comparator rep) (entries raw) internal_key
= Some (k, v) ->
let parsed := match ParseInternalKey k with
              | Some p => p
              | None => mkParsed [] []
              end in
wants_more get_context parsed v = false ->
Get CreateBlockHashIndex BlockPrefixIndex_Create rep ro internal_key get_context true w
= Some ((kOk,
         mkGetContext ((parsed, v) :: saved get_context) (key_may_exist get_context)
           (wants_more get_context)),
        mkWorld (block_cache_state w) (block_cache_compressed_state w)
          ((file_number (reader (data_reader_with_cache_prefix rep)), handle)
           :: file_reads w)
          (ticks w) (OBlock raw :: deleted w) ((hv, kOk) :: opened w)
          (failed_inserts w)).
Proof.
intros Hbc Hbcc Hr Hh Hio Hidx Hdec Hblock Hraw Hent parsed Hmore.
unfold Get. cbn [negb]. unfold bind at 1. unfold ret at 1. cbv beta iota zeta.
cbn [value].
assert (Hmay : (if FilterType_eqb (filter_type rep) kBlockBasedFilter
                then ret true
                else NonBlockBasedFilterKeyMayMatch rep None []) = ret true).
{ unfold NonBlockBasedFilterKeyMayMatch.
  destruct (FilterType_eqb (filter_type rep) kBlockBasedFilter); reflexivity. }
rewrite Hmay. unfold bind at 1. unfold ret at 1. cbv beta iota. cbn [negb].
unfold bind at 1 2. rewrite (NewIndexIterator_preloaded rep r ro w Hr Hh).
cbv beta iota zeta. cbn [Seek Block_NewIterator it_current it_entries it_seek it_status].
rewrite (drop_S _ _ _ Hidx). cbn [Get_index_loop andb negb].
unfold bind at 1 2. unfold ret at 1. cbv beta iota.
unfold bind at 1.
rewrite (NewDataBlockIterator_uncached rep ro hv handle raw w Hbc Hbcc Hio Hdec Hblock Hraw).
cbv beta iota. rewrite Hio. cbn [andb it_status RegisterCleanup Block_NewIterator ok negb].
cbn [Seek it_current it_entries it_seek RegisterCleanup Block_NewIterator].
rewrite (drop_S _ _ _ Hent). cbn [Get_block_loop].
unfold SaveValue.
assert (Hp : (let '(s, parsed_key) :=
                match ParseInternalKey k with
                | Some p => (kOk, p)
                | None => (kCorruption, mkParsed [] [])
                end in parsed_key) = parsed).
{ subst parsed. destruct (ParseInternalKey k); reflexivity. }
destruct (ParseInternalKey k) as [p |]; cbv beta iota zeta in Hp |- *;
  rewrite Hp, Hmore; cbn [negb];
  unfold DestroyIterator, Release, bind, ret;
  cbn [Seek RegisterCleanup Block_NewIterator it_cleanup it_status it_entries it_seek
         run_cleanups run_cleanup cache_handle ok];
  unfold bind, ret, delete_; cbv beta iota;
  cbn [block_cache_state block_cache_compressed_state file_reads ticks deleted opened
         failed_inserts];
  reflexivity.
Qed.

Lemma BinarySeek_all_below cmp es key_ :
Forall (fun e => cmp (fst e) key_ < 0) es -> BinarySeek cmp es key_ = length es.
Proof.
induction 1 as [| e es He _ IH]; [reflexivity |].
cbn [BinarySeek length]. apply Z.ltb_lt in He. rewrite He, IH. reflexivity.
Qed.

(** X14: a key above every key of the index.  On a table whose index is
  pre-loaded and searched by binary search, a Get that skips filters for a
  key the comparator puts after all index keys returns OK, leaves the
  context untouched, and does nothing: no block is opened, no file read,
  no cache touched, no statistic counted. *)
Theorem Get_past_last_key rep r ro internal_key get_context w :
data_index_reader rep = Some r ->
hash_seek r = None ->
Forall (fun e => ir_comparator r (fst e) internal_key < 0) (entries (index_block r)) ->
Get CreateBlockHashIndex BlockPrefixIndex_Create rep ro internal_key get_context true w
= Some ((kOk, get_context), w).
Proof.
intros Hr Hh Hall.
unfold Get. cbn [negb]. unfold bind at 1. unfold ret at 1. cbv beta iota zeta.
cbn [value].
assert (Hmay : (if FilterType_eqb (filter_type rep) kBlockBasedFilter
                then ret true
                else NonBlockBasedFilterKeyMayMatch rep None []) = ret true).
{ unfold NonBlockBasedFilterKeyMayMatch.
  destruct (FilterType_eqb (filter_type rep) kBlockBasedFilter); reflexivity. }
rewrite Hmay. unfold bind at 1. unfold ret at 1. cbv beta iota. cbn [negb].
unfold bind at 1 2. rewrite (NewIndexIterator_preloaded rep r ro w Hr Hh).
cbv beta iota zeta. cbn [Seek Block_NewIterator it_current it_entries it_seek it_status].
rewrite (BinarySeek_all_below _ _ _ Hall), drop_all. cbn [Get_index_loop].
unfold DestroyIterator, Release, bind, ret.
cbn [it_cleanup run_cleanups cache_handle ok]. reflexivity.
Qed.
End GetMoreProofs.

Lemma Get_hands_over_first_entry_witness :
  exists c w',
    get_apple_uncached = Some ((kOk, c), w')
    /\ saved c = [(mkParsed (bytes "apple") [1; 7; 0; 0; 0; 0; 0; 0], bytes "red")]
    /\ opened w' = [(EncodeTo apple_handle, kOk)]
    /\ deleted w' = [OBlock (plain_block [(ikey "apple", bytes "red")])].
Proof.
  unfold get_apple_uncached. eexists _, _. split.
  - apply (Get_hands_over_first_entry no_hash_auxiliary no_hash_auxiliary rep_uncached
             example_index ReadOptions_kDefault (ikey "apple") first_entry_context
             world_uncached (ikey "apple") (EncodeTo apple_handle) apple_handle
             (plain_block [(ikey "apple", bytes "red")]) (ikey "apple") (bytes "red"));
      vm_compute; reflexivity.
  - repeat split; vm_compute; reflexivity.
Defined.

Lemma Get_past_last_key_witness :
  get_past_alphabet = Some ((kOk, first_entry_context), fresh_world).
Proof.
  apply (Get_past_last_key no_hash_auxiliary no_hash_auxiliary alphabet_rep
           (mkIndexReader BinarySearchIndex BytewiseCompare (plain_block alphabet_index) None)
           ReadOptions_kDefault (bytes "a") first_entry_context fresh_world).
  - reflexivity.
  - reflexivity.
  - repeat constructor; vm_compute; reflexivity.
Defined.

(** *** What the bloom counters count *)

Lemma log_open_tick_count v s t : preserves (tick_count t) (log_open v s).
Proof. intros w r w' H. injection H as _ <-. reflexivity. Qed.
Lemma run_cleanups_tick_count cs t : preserves (tick_count t) (run_cleanups cs).
Proof.
  induction cs as [| [c h | b] cs IH]; cbn [run_cleanups run_cleanup]; frame.
Qed.
Lemma DestroyIterator_tick_count it t : preserves (tick_count t) (DestroyIterator it).
Proof. apply run_cleanups_tick_count. Qed.
Lemma ReadBlockFromFile_tick_count f h d t :
  preserves (tick_count t) (ReadBlockFromFile f h d).
Proof. unfold ReadBlockFromFile, ReadBlockContents. frame. Qed.
Lemma Lookup_tick_count c k t : preserves (tick_count t) (Lookup c k).
Proof. apply Lookup_preserves. Qed.
#[export] Hint Resolve log_open_tick_count DestroyIterator_tick_count
  ReadBlockFromFile_tick_count Lookup_tick_count : frame.

Lemma NewDataBlockIterator_bloom_counters rep ro v t :
  filter_counter t = true ->
  preserves (tick_count t) (NewDataBlockIterator rep ro v).
Proof.
  intros Ht. destruct t; try discriminate Ht;
    unfold NewDataBlockIterator, NewDataBlockIterator_build, GetDataBlockFromCache,
      PutDataBlockToCache; frame.
Qed.

Section CounterProofs.
Variable CreateBlockHashIndex :
option SliceTransform -> Block -> Block -> Status * (Slice -> nat).
Variable BlockPrefixIndex_Create :
option SliceTransform -> Block -> Block -> Status * (Slice -> nat).

Lemma NewIndexIterator_bloom_counters rep ro t :
Tickers_eqb t BLOCK_CACHE_INDEX_MISS = false ->
Tickers_eqb t BLOCK_CACHE_INDEX_HIT = false ->
preserves (tick_count t)
  (NewIndexIterator CreateBlockHashIndex BlockPrefixIndex_Create rep ro).
Proof.
intros H1 H2.
unfold NewIndexIterator, CreateDataBlockIndexReader, HashIndexReader_Create,
  BinarySearchIndexReader_Create, ReadMetaBlock.
frame.
Qed.

Lemma Get_index_loop_bloom_counters rep ro key_ skip bb f fk t :
filter_counter t = true ->
skip = true \/ (bb = false) ->
forall es s c,
  preserves (tick_count t) (Get_index_loop rep ro key_ skip bb f fk es s c).
Proof.
intros Ht Hcase.
assert (Hcond : negb skip && bb = false)
  by (destruct Hcase as [-> | ->]; [reflexivity | apply andb_false_r]).
pose proof (NewDataBlockIterator_bloom_counters rep ro) as HN.
induction es as [| [ik iv] es IH]; intros s c; cbn [Get_index_loop]; [frame |].
rewrite Hcond.
match goal with
| |- preserves _ (bind (ret ?a) ?k) => change (bind (ret a) k) with (k a); cbv beta iota
end.
repeat first [apply HN; exact Ht | apply IH | frame_step].
Qed.

(** X12: a Get that skips filters neither looks a filter up nor probes one:
  the filter hit and miss counters of the block cache and the
  BLOOM_FILTER_CHECKED and BLOOM_FILTER_USEFUL counters are as before. *)
Theorem Get_skipping_filters rep ro internal_key get_context w s c' w' t :
filter_counter t = true ->
Get CreateBlockHashIndex BlockPrefixIndex_Create rep ro internal_key get_context true w
= Some ((s, c'), w') ->
tick_count t w' = tick_count t w.
Proof.
intros Ht. revert w s c' w'.
assert (Hp : preserves (tick_count t)
               (Get CreateBlockHashIndex BlockPrefixIndex_Create rep ro internal_key
                  get_context true)).
{ pose proof (fun es s c => Get_index_loop_bloom_counters rep ro internal_key true
                (FilterType_eqb (filter_type rep) kBlockBasedFilter) None [] t Ht
                (or_introl eq_refl) es s c) as HL.
  assert (HI : preserves (tick_count t)
                 (NewIndexIterator CreateBlockHashIndex BlockPrefixIndex_Create rep ro))
    by (apply NewIndexIterator_bloom_counters; destruct t; try discriminate Ht; reflexivity).
  unfold Get, NonBlockBasedFilterKeyMayMatch. cbn [negb].
  match goal with
  | |- preserves _ (bind (ret ?a) ?k) => change (bind (ret a) k) with (k a); cbv beta iota
  end.
  cbn [value].
  destruct (FilterType_eqb (filter_type rep) kBlockBasedFilter);
    match goal with
    | |- preserves _ (bind (ret ?a) ?k) => change (bind (ret a) k) with (k a); cbv beta iota
    end; cbn [negb];
    repeat first [apply HI | apply HL | frame_step]. }
intros w s c' w' H. apply (Hp _ _ _ H).
Qed.

(** X13: with a filter that is not block-based, whenever Get counts a
  BLOOM_FILTER_USEFUL (and it counts at most one), the filter has ruled the
  key out: filters were not skipped, Get has returned OK with the context
  untouched, and no data block has been opened. *)
Theorem Get_counts_useful_filter rep ro internal_key get_context skip_filters w s c' w' :
filter_type rep <> kBlockBasedFilter ->
Get CreateBlockHashIndex BlockPrefixIndex_Create rep ro internal_key get_context
  skip_filters w = Some ((s, c'), w') ->
tick_count BLOOM_FILTER_USEFUL w' = tick_count BLOOM_FILTER_USEFUL w
\/ (tick_count BLOOM_FILTER_USEFUL w' = S (tick_count BLOOM_FILTER_USEFUL w)
    /\ skip_filters = false
    /\ s = kOk /\ c' = get_context
    /\ opened w' = opened w).
Proof.
intros Hft H. apply FilterType_eqb_neq in Hft.
pose proof (fun es s c => Get_index_loop_bloom_counters rep ro internal_key skip_filters
              false (value (CachableEntry.mk (@None FilterBlockReader.t) None)) []
              BLOOM_FILTER_USEFUL eq_refl (or_intror eq_refl) es s c) as HL0.
pose proof (fun f fk es s c => Get_index_loop_bloom_counters rep ro internal_key
              skip_filters false f fk BLOOM_FILTER_USEFUL eq_refl (or_intror eq_refl)
              es s c) as HL.
pose proof (fun ro => NewIndexIterator_bloom_counters rep ro BLOOM_FILTER_USEFUL
              eq_refl eq_refl) as HI.
pose proof (fun no_io fk => GetFilter_tick_count rep no_io fk BLOOM_FILTER_USEFUL
              eq_refl eq_refl) as HG.
pose proof (fun f fk => NonBlockBasedFilterKeyMayMatch_tick_count rep f fk
              BLOOM_FILTER_USEFUL eq_refl) as HM.
assert (HNone : forall fk w0 a w1,
           NonBlockBasedFilterKeyMayMatch rep None fk w0 = Some (a, w1) -> a = true).
{ intros fk w0 a w1 Hn. unfold NonBlockBasedFilterKeyMayMatch in Hn. rewrite Hft in Hn.
  now inv_ret Hn. }
unfold Get in H. rewrite Hft in H.
run H.
all: try match goal with
         | Hn : NonBlockBasedFilterKeyMayMatch _ (value (CachableEntry.mk None None)) _ _
                = Some (?a, _), Ha : negb ?a = true |- _ =>
             apply HNone in Hn; subst a; discriminate Ha
         end.
all: frame_facts (tick_count BLOOM_FILTER_USEFUL); frame_facts opened.
all: unfold tick_count in *; cbn [ticks opened List.filter Tickers_eqb length] in *.
all: try (left; congruence).
right. destruct skip_filters; [discriminate |].
repeat split; congruence.
Qed.
End CounterProofs.

Lemma Get_skipping_filters_witness :
  filter_counter BLOOM_FILTER_CHECKED = true
  /\ get_apple_uncached
     = Some (result_after (kIOError, first_entry_context) get_apple_uncached,
             world_after get_apple_uncached)
  /\ tick_count BLOOM_FILTER_CHECKED (world_after get_apple_uncached)
     = tick_count BLOOM_FILTER_CHECKED world_uncached.
Proof.
  assert (Hc : filter_counter BLOOM_FILTER_CHECKED = true) by reflexivity.
  assert (H : get_apple_uncached
              = Some (result_after (kIOError, first_entry_context) get_apple_uncached,
                      world_after get_apple_uncached))
    by (vm_compute; reflexivity).
  split; [exact Hc |]. split; [exact H |].
  refine (Get_skipping_filters no_hash_auxiliary no_hash_auxiliary rep_uncached
            ReadOptions_kDefault (ikey "apple") first_entry_context world_uncached
            (fst (result_after (kIOError, first_entry_context) get_apple_uncached))
            (snd (result_after (kIOError, first_entry_context) get_apple_uncached))
            (world_after get_apple_uncached) BLOOM_FILTER_CHECKED Hc _).
  vm_compute; reflexivity.
Defined.

Lemma Get_counts_useful_filter_witness :
  get_zebra_full = Some ((kOk, first_entry_context), world_after get_zebra_full)
  /\ tick_count BLOOM_FILTER_USEFUL (world_after get_zebra_full)
     = S (tick_count BLOOM_FILTER_USEFUL world_full)
  /\ opened (world_after get_zebra_full) = opened world_full.
Proof.
  assert (H : get_zebra_full = Some ((kOk, first_entry_context), world_after get_zebra_full))
    by (vm_compute; reflexivity).
  split; [exact H |].
  destruct (Get_counts_useful_filter no_hash_auxiliary no_hash_auxiliary rep_full
              ReadOptions_kDefault (ikey "zebra") first_entry_context false world_full
              kOk first_entry_context (world_after get_zebra_full))
    as [Hsame | (Hmore & _ & _ & _ & Hopened)].
  - vm_compute; intros E; discriminate E.
  - exact H.
  - vm_compute in Hsame; discriminate Hsame.
  - split; [exact Hmore | exact Hopened].
Defined.

(** ** The prefix probe and its counters *)

Section PrefixCounterProofs.
Variable CreateBlockHashIndex :
option SliceTransform -> Block -> Block -> Status * (Slice -> nat).
Variable BlockPrefixIndex_Create :
option SliceTransform -> Block -> Block -> Status * (Slice -> nat).

(** X15: PrefixMayMatch counts its negative answers: an answer false comes
  with exactly one more BLOOM_FILTER_PREFIX_USEFUL and one more
  BLOOM_FILTER_PREFIX_CHECKED, an answer true with no
  BLOOM_FILTER_PREFIX_USEFUL. *)
Theorem PrefixMayMatch_counts_negative_answers rep internal_key w r w' :
PrefixMayMatch CreateBlockHashIndex BlockPrefixIndex_Create rep internal_key w
= Some (r, w') ->
tick_count BLOOM_FILTER_PREFIX_USEFUL w'
= (if r then tick_count BLOOM_FILTER_PREFIX_USEFUL w
   else S (tick_count BLOOM_FILTER_PREFIX_USEFUL w))
/\ (r = false ->
    tick_count BLOOM_FILTER_PREFIX_CHECKED w'
    = S (tick_count BLOOM_FILTER_PREFIX_CHECKED w)).
Proof.
intros H.
pose proof (fun ro t H1 H2 => NewIndexIterator_bloom_counters CreateBlockHashIndex
              BlockPrefixIndex_Create rep ro t H1 H2) as HI.
pose proof (fun no_io fk t H1 H2 => GetFilter_tick_count rep no_io fk t H1 H2) as HG.
unfold PrefixMayMatch in H.
run H.
all: try (split; [reflexivity | discriminate]).
all: frame_facts (tick_count BLOOM_FILTER_PREFIX_USEFUL);
     frame_facts (tick_count BLOOM_FILTER_PREFIX_CHECKED).
all: unfold tick_count in *; cbn [ticks List.filter Tickers_eqb length] in *.
all: repeat match goal with
            | E : negb _ = true |- _ => apply negb_true_iff in E
            | E : negb _ = false |- _ => apply negb_false_iff in E
            end.
all: repeat match goal with
            | E : ?x = _ |- context [if ?x then _ else _] => rewrite E
            | E : ?x = _ |- context [?x = false] => rewrite E
            end.
all: split; [congruence | intros; congruence].
Qed.
End PrefixCounterProofs.

Lemma PrefixMayMatch_counts_negative_answers_witness :
  probe_zebra = Some (false, world_after probe_zebra)
  /\ tick_count BLOOM_FILTER_PREFIX_USEFUL (world_after probe_zebra)
     = S (tick_count BLOOM_FILTER_PREFIX_USEFUL world_cached)
  /\ tick_count BLOOM_FILTER_PREFIX_CHECKED (world_after probe_zebra)
     = S (tick_count BLOOM_FILTER_PREFIX_CHECKED world_cached).
Proof.
  assert (H : probe_zebra = Some (false, world_after probe_zebra))
    by (vm_compute; reflexivity).
  split; [exact H |].
  destruct (PrefixMayMatch_counts_negative_answers no_hash_auxiliary no_hash_auxiliary
              rep_cached (ikey "zebra") world_cached false (world_after probe_zebra) H)
    as [Huseful Hchecked].
  split; [exact Huseful | exact (Hchecked eq_refl)].
Defined.

(** ** Prefetch without an end *)

Section PrefetchMoreProofs.
Variable CreateBlockHashIndex :
option SliceTransform -> Block -> Block -> Status * (Slice -> nat).
Variable BlockPrefixIndex_Create :
option SliceTransform -> Block -> Block -> Status * (Slice -> nat).

(** X16: Prefetch without an end key.  From the seek position for begin
  (the first index entry when there is no begin either) it loads the data
  block of every index entry, in index order, and returns OK.  Loading a
  block is reading it from the data file, unless it is in a block cache
  already, and leaves it in the uncompressed block cache when the table
  has one and the block can be cached.  A block that fails to load ends
  the prefetch with that block's status, the blocks after it left alone.
  An index iterator that cannot be opened ends it with nothing loaded. *)
Theorem Prefetch_without_end rep begin_ w s w' :
Prefetch CreateBlockHashIndex BlockPrefixIndex_Create rep begin_ None w = Some (s, w') ->
exists iiter w1,
  NewIndexIterator CreateBlockHashIndex BlockPrefixIndex_Create rep
    ReadOptions_kDefault w = Some (iiter, w1)
  /\ opened w1 = opened w
  /\ (ok (it_status iiter) = false ->
      s = it_status iiter /\ opened w' = opened w /\ file_reads w' = file_reads w1)
  /\ (ok (it_status iiter) = true ->
      let pos := match begin_ with
                 | Some b => it_current (Seek iiter b)
                 | None => O
                 end in
      prefetched rep (drop pos (it_entries iiter)) w1 s w').
Proof.
intros H. unfold Prefetch in H.
assert (Hpre : match begin_, @None Slice with
               | Some b, Some e => 0 <? internal_comparator rep b e
               | _, _ => false
               end = false) by (destruct begin_; reflexivity).
rewrite Hpre in H.
inv_bind H. rename a into iiter. exists iiter, w0. split; [exact Hstep |].
pose proof (NewIndexIterator_opened _ _ _ _ _ _ _ Hstep) as Hw0.
split; [exact Hw0 |].
destruct (ok (it_status iiter)) eqn:Hok; cbn [negb] in H.
- split; [discriminate |]. intros _ pos.
  inv_bind H. inv_bind H. inv_ret H. destruct a0.
  assert (Hes : drop (it_current match begin_ with
                                 | Some b => Seek iiter b
                                 | None => SeekToFirst iiter
                                 end)
                  (it_entries match begin_ with
                              | Some b => Seek iiter b
                              | None => SeekToFirst iiter
                              end) = drop pos (it_entries iiter)).
  { subst pos. destruct begin_; reflexivity. }
  rewrite Hes in Hstep0.
  apply Prefetch_loop_without_end in Hstep0.
  apply (prefetched_then _ _ _ _ _ _ Hstep0).
  + exact (DestroyIterator_opened _ _ _ _ Hstep1).
  + exact (DestroyIterator_file_reads _ _ _ _ Hstep1).
  + intros c. exact (DestroyIterator_table c _ _ _ _ Hstep1).
- split; [| discriminate]. intros _. inv_bind H. inv_ret H. destruct a.
  rewrite (DestroyIterator_opened _ _ _ _ Hstep0).
  rewrite (DestroyIterator_file_reads _ _ _ _ Hstep0). auto.
Qed.
End PrefetchMoreProofs.

(** The example table opened with a block cache: a prefetch from apple on
    reads both data blocks and leaves them in the block cache. *)
Lemma Prefetch_without_end_witness :
  prefetch_cached = Some (kOk, world_after prefetch_cached)
  /\ loaded_in_order rep_cached
       [ (ikey "apple", EncodeTo (mkHandle 0 90));
         (ikey "mango", EncodeTo (mkHandle 100 90)) ]
       world_cached (world_after prefetch_cached)
  /\ file_reads (world_after prefetch_cached)
     = (1%nat, mkHandle 100 90) :: (1%nat, mkHandle 0 90) :: file_reads world_cached
  /\ is_Some (table (cache_of BlockCache (world_after prefetch_cached)) !! [8; 42; 1; 0])
  /\ is_Some (table (cache_of BlockCache (world_after prefetch_cached)) !! [8; 42; 1; 100]).
Proof.
  assert (H : prefetch_cached = Some (kOk, world_after prefetch_cached))
    by (vm_compute; reflexivity).
  split; [exact H |].
  destruct (Prefetch_without_end no_hash_auxiliary no_hash_auxiliary rep_cached
              (Some (ikey "apple")) world_cached kOk (world_after prefetch_cached) H)
    as (iiter & w1 & Hindex & _ & _ & Hloaded).
  assert (Hindex' : NewIndexIterator no_hash_auxiliary no_hash_auxiliary rep_cached
                      ReadOptions_kDefault world_cached
                    = Some (Block_NewIterator (index_block example_index) BytewiseCompare
                              None true, world_cached)) by (vm_compute; reflexivity).
  rewrite Hindex' in Hindex. injection Hindex as <- <-.
  destruct (Hloaded eq_refl) as [(_ & _ & Hl) | [Hfail _]]; [| discriminate Hfail].
  split; [exact Hl |].
  split; [vm_compute; reflexivity |].
  split; vm_compute; eexists; reflexivity.
Defined.

(** ** Index readers *)

Lemma BinarySearchIndexReader_Create_result file handle cmp w s o w' :
  BinarySearchIndexReader_Create file handle cmp w = Some ((s, o), w') ->
  file_reads w' = (file_number file, handle) :: file_reads w
  /\ match o with
     | Some r =>
         s = kOk /\ ir_kind r = BinarySearchIndex /\ ir_comparator r = cmp
         /\ hash_seek r = None
         /\ exists raw, blocks file !! offset handle = Some (kOk, raw)
                        /\ entries (index_block r) = entries raw
     | None => ok s = false
     end.
Proof.
  unfold BinarySearchIndexReader_Create. intros H.
  run H; use_block_specs; run_log_reads; cbn [file_reads]; (split; [reflexivity |]).
  all: repeat match goal with
              | H : _ /\ _ |- _ => destruct H as [? ?]
              | H : exists _, _ |- _ => destruct H as [? H]
              end.
  all: try discriminate; try assumption; try reflexivity.
  all: cbn [ir_kind ir_comparator hash_seek index_block].
  all: repeat split; try reflexivity; eauto.
Qed.

Lemma ReadBlockContents_spec file handle do_uncompress w s ob w' :
  ReadBlockContents file handle do_uncompress w = Some ((s, ob), w') ->
  log_read (file_number file) handle w = Some (tt, w')
  /\ match ob with
     | Some b =>
         s = kOk
         /\ exists raw,
             blocks file !! offset handle = Some (kOk, raw)
             /\ entries b = entries raw
             /\ (is_compressed (compression_type raw) = false -> b = raw)
             /\ (do_uncompress = true -> compression_type b = kNoCompression)
     | None => ok s = false
     end.
Proof.
  intros H. apply ReadBlockFromFile_spec.
  unfold ReadBlockFromFile, bind. rewrite H. reflexivity.
Qed.

Ltac use_contents_specs :=
  repeat match goal with
         | H : ReadBlockContents _ _ _ _ = Some ((_, _), _) |- _ =>
             apply ReadBlockContents_spec in H; destruct H as [? ?]
         end.

Ltac break_hyps :=
  repeat match goal with
         | H : _ /\ _ |- _ => destruct H as [? ?]
         | H : exists _, _ |- _ => destruct H as [? H]
         end.

Lemma SetupCacheKeyPrefix_reader topt file w r w' :
  SetupCacheKeyPrefix topt file w = Some (r, w') -> reader r = file.
Proof.
  unfold SetupCacheKeyPrefix. intros H. inv_bind H. inv_bind H. inv_ret H. reflexivity.
Qed.

Section IndexReaderMoreProofs.
Variable CreateBlockHashIndex :
option SliceTransform -> Block -> Block -> Status * (Slice -> nat).
Variable BlockPrefixIndex_Create :
option SliceTransform -> Block -> Block -> Status * (Slice -> nat).

(** X17: HashIndexReader::Create.  It fails without a reader exactly when
  the index block cannot be read.  Otherwise it hands back a hash index
  reader over the index block, with or without the auxiliary prefix map,
  and its status is OK in every case but one: when both meta-blocks of the
  prefixes are found in the meta-index and reading the prefixes block
  fails, the status of that read is returned along with the reader. *)
Theorem HashIndexReader_Create_outcome pe file cmp handle meta allow_collision w s o w' :
HashIndexReader_Create CreateBlockHashIndex BlockPrefixIndex_Create pe file cmp handle
  meta allow_collision w = Some ((s, o), w') ->
match o with
| Some r =>
    ir_kind r = HashIndex /\ ir_comparator r = cmp
    /\ (exists raw, blocks file !! offset handle = Some (kOk, raw)
                    /\ entries (index_block r) = entries raw)
    /\ (s = kOk
        \/ (ok s = false /\ hash_seek r = None
            /\ ok (fst (FindMetaBlock meta kHashIndexPrefixesBlock)) = true
            /\ ok (fst (FindMetaBlock meta kHashIndexPrefixesMetadataBlock)) = true
            /\ file_reads w'
               = (file_number file, snd (FindMetaBlock meta kHashIndexPrefixesBlock))
                 :: (file_number file, handle) :: file_reads w))
| None => ok s = false /\ file_reads w' = (file_number file, handle) :: file_reads w
end.
Proof.
unfold HashIndexReader_Create. intros H.
run H; use_block_specs; use_contents_specs; run_log_reads; break_hyps.
all: cbn [ir_kind ir_comparator hash_seek index_block file_reads fst snd ok] in *.
all: try discriminate.
all: repeat match goal with
            | E : FindMetaBlock _ _ = _ |- _ => rewrite E
            end; cbn [fst snd].
all: bool_hyps.
all: try (split; [assumption | reflexivity]).
all: try (split; [reflexivity |]; split; [reflexivity |];
          split; [eexists; split; eassumption |]).
all: try (left; reflexivity).
all: try (split; reflexivity).
all: right; repeat split; reflexivity.
Qed.

Lemma HashIndexReader_Create_some pe file cmp handle meta allow_collision w s o w' :
HashIndexReader_Create CreateBlockHashIndex BlockPrefixIndex_Create pe file cmp handle
  meta allow_collision w = Some ((s, o), w') ->
ok s = true -> is_Some o.
Proof.
unfold HashIndexReader_Create. intros H Hs.
run H; use_block_specs; break_hyps.
all: first [eexists; reflexivity | cbn [ok] in *; congruence].
Qed.

Lemma CreateDataBlockIndexReader_some rep meta w s o w' :
CreateDataBlockIndexReader CreateBlockHashIndex BlockPrefixIndex_Create rep meta w
= Some ((s, o), w') ->
ok s = true -> is_Some o.
Proof.
unfold CreateDataBlockIndexReader, ReadMetaBlock. intros H Hs.
run H;
  repeat match goal with
         | H : BinarySearchIndexReader_Create _ _ _ _ = Some ((_, _), _) |- _ =>
             apply BinarySearchIndexReader_Create_result in H; destruct H as [_ H]
         | H : HashIndexReader_Create _ _ _ _ _ _ _ _ _ = Some ((_, _), _) |- _ =>
             apply HashIndexReader_Create_some in H; [| assumption]
         end;
  try assumption; try discriminate.
all: destruct o; [eexists; reflexivity | congruence].
Qed.

(** X18: what Open hands back.  A table comes back exactly with an OK
  status.  It keeps the options, the comparator, the file and its footer,
  and reads data blocks through the same reader as the rest; with filters
  skipped it has no filter policy and no filter.  Its data index is
  pre-loaded exactly when prefetching is on and index and filter are not
  kept in the block cache; a filter is pre-loaded only in that case and
  only a full or block-based one; a filter index reader exists only after
  prefetching for a fixed-size filter.  Filtering by whole key is never
  turned on by the file, only off. *)
Theorem Open_hands_back ioptions_ topt cmp base_file prefetch skip_filters w s r w' :
Open CreateBlockHashIndex BlockPrefixIndex_Create ioptions_ topt cmp base_file
  prefetch skip_filters w = Some ((s, r), w') ->
match r with
| None => ok s = false
| Some rep =>
    s = kOk
    /\ ioptions rep = ioptions_ /\ table_options rep = topt
    /\ internal_comparator rep = cmp
    /\ reader (base_reader_with_cache_prefix rep) = base_file
    /\ data_reader_with_cache_prefix rep = base_reader_with_cache_prefix rep
    /\ footer_on_file base_file = (kOk, footer rep)
    /\ (skip_filters = true -> filter_policy rep = None /\ filter_type rep = kNoFilter)
    /\ TEST_index_reader_preloaded rep
       = prefetch && negb (cache_index_and_filter_blocks topt)
    /\ (TEST_filter_block_preloaded rep = true ->
        prefetch = true /\ cache_index_and_filter_blocks topt = false
        /\ (filter_type rep = kFullFilter \/ filter_type rep = kBlockBasedFilter))
    /\ (is_Some (filter_index_reader rep) ->
        prefetch = true /\ filter_type rep = kFixedSizeFilter)
    /\ (whole_key_filtering rep = true -> to_whole_key_filtering topt = true)
end.
Proof.
unfold Open. intros H.
destruct (footer_on_file base_file) as [s0 footer_] eqn:Hfooter.
unfold ReadMetaBlock in H.
run H; use_block_specs; run_log_reads; break_hyps; bool_hyps.
all: try match goal with
         | H : SetupCacheKeyPrefix _ _ _ = Some (_, _) |- _ =>
             apply SetupCacheKeyPrefix_reader in H
         end.
all: try match goal with
         | H : CreateDataBlockIndexReader _ _ _ _ _ = Some ((_, _), _),
           E : ok _ = true |- _ =>
             apply CreateDataBlockIndexReader_some in H; [| exact E]
         end.
all: repeat match goal with
            | E : ok ?s = true |- _ => apply ok_true in E; try subst s
            end.
all: try discriminate; try assumption; try reflexivity.
all: try match goal with
         | |- context [match ?x with Some _ => _ | None => _ end] => destruct x eqn:?
         end.
all: cbn [ioptions table_options filter_policy filter_key_transformer internal_comparator
           base_reader_with_cache_prefix data_reader_with_cache_prefix footer
           data_index_reader filter_index_reader filter filter_type filter_handle
           table_properties index_type hash_index_allow_collision whole_key_filtering
           prefix_filtering set_readers set_properties set_filter fst snd ok] in *.
all: unfold TEST_index_reader_preloaded, TEST_filter_block_preloaded.
all: cbn [ioptions table_options filter_policy filter_key_transformer internal_comparator
           base_reader_with_cache_prefix data_reader_with_cache_prefix footer
           data_index_reader filter_index_reader filter filter_type filter_handle
           table_properties index_type hash_index_allow_collision whole_key_filtering
           prefix_filtering set_readers set_properties set_filter fst snd ok].
all: repeat match goal with
            | E : cache_index_and_filter_blocks _ = _ |- _ => rewrite E
            end.
all: repeat (split; [first [reflexivity | assumption] |]).
all: cbn [andb negb].
all: repeat match goal with
            | H : is_Some ?o |- _ => is_var o; destruct H as [? ->]
            end.
all: eval_is_Some.
all: split;
  [ intros ->;
    first [ congruence
          | split; [reflexivity |];
            match goal with
            | E : _ = (_, ?f, _) |- _ => cbv iota in E; injection E as ? ?; congruence
            end ] |].
all: split; [reflexivity |].
all: split; [first [discriminate | intros _; repeat split; auto] |].
all: split;
  [ intros Hsome;
    first [ destruct Hsome; discriminate
          | split; [reflexivity |]; apply FilterType_eqb_eq; assumption ] |].
all: intros Hw; first [assumption | apply andb_true_iff in Hw; tauto].
Qed.
End IndexReaderMoreProofs.

Lemma HashIndexReader_Create_outcome_witness :
  exists r w',
    create_hash_index = Some ((kOk, Some r), w')
    /\ ir_kind r = HashIndex
    /\ exists raw, blocks example_file !! offset (mkHandle 400 80) = Some (kOk, raw)
                   /\ entries (index_block r) = entries raw.
Proof.
  assert (H : create_hash_index
              = Some (result_after (kIOError, None) create_hash_index,
                      world_after create_hash_index))
    by (vm_compute; reflexivity).
  exists (mkIndexReader HashIndex BytewiseCompare (index_block example_index) None),
    (world_after create_hash_index).
  split; [vm_compute; reflexivity |].
  destruct (HashIndexReader_Create_outcome no_hash_auxiliary no_hash_auxiliary
              (Some first_byte) example_file BytewiseCompare (mkHandle 400 80)
              (plain_block [(bytes "fixedsizefilter.P", EncodeTo (mkHandle 300 40))]) false
              fresh_world kOk
              (Some (mkIndexReader HashIndex BytewiseCompare (index_block example_index) None))
              (world_after create_hash_index))
    as (Hkind & _ & Hraw & _).
  - vm_compute; reflexivity.
  - split; [exact Hkind | exact Hraw].
Defined.

Lemma Open_hands_back_witness :
  open_cached = Some ((kOk, Some rep_cached), world_cached)
  /\ table_options rep_cached = options_with_cache
  /\ reader (base_reader_with_cache_prefix rep_cached) = example_file
  /\ TEST_index_reader_preloaded rep_cached = true.
Proof.
  assert (H : open_cached = Some ((kOk, Some rep_cached), world_cached))
    by (vm_compute; reflexivity).
  split; [exact H |].
  destruct (Open_hands_back no_hash_auxiliary no_hash_auxiliary (mkIOptions (Some first_byte))
              options_with_cache BytewiseCompare example_file true false fresh_world
              kOk (Some rep_cached) world_cached H)
    as (_ & _ & Hopt & _ & Hfile & _ & _ & _ & Hindex & _).
  split; [exact Hopt |]. split; [exact Hfile | exact Hindex].
Defined.

(** ** Filters in the block cache *)

(** An entry [GetFilter] hands back with a cache handle, for a filter that is
    not fixed-size: the filter is in the block cache under the key of the
    filter block. *)
Lemma GetFilter_handle_resident rep no_io fk w e w' h :
  filter_type rep <> kFixedSizeFilter ->
  GetFilter rep no_io fk w = Some (e, w') ->
  cache_handle e = Some h ->
  exists c k f,
    cache_index_and_filter_blocks (table_options rep) = true
    /\ is_Some (filter_policy rep)
    /\ block_cache (table_options rep) = Some c
    /\ GetCacheKey (cache_key_prefix (base_reader_with_cache_prefix rep)) (filter_handle rep)
       = Some k
    /\ table (cache_of c w') !! k = Some (CVFilter f)
    /\ e = CachableEntry.mk (Some f) (Some (mkCacheHandle k (CVFilter f))).
Proof.
  intros Hft H Hh. apply FilterType_eqb_neq in Hft.
  unfold GetFilter, ReadFilterBlock in H. rewrite Hft in H. cbn [andb negb] in H.
  run H.
  all: cbn [cache_handle] in Hh; try discriminate Hh.
  all: repeat match goal with
              | E : _ && true = false |- _ => rewrite andb_true_r in E
              | E : _ || _ = false |- _ => apply orb_false_iff in E; destruct E
              | E : negb _ = false |- _ => apply negb_false_iff in E
              | E : bool_decide _ = true |- _ => apply bool_decide_eq_true in E
              end.
  all: repeat match goal with
              | E : match ?x with Some _ => _ | None => _ end = Some _ |- _ =>
                  destruct x eqn:?; [injection E as ?; subst | discriminate E]
              end.
  all: cbn [h_value] in *; subst.
  all: eexists _, _, _; split; [assumption |]; split; [assumption |].
  all: split; [reflexivity |]; split; [reflexivity |].
  all: cbn [cache_of block_cache_state block_cache_compressed_state table].
  all: split; [first [eassumption | apply lookup_insert_eq | apply lookup_insert] | reflexivity].
Qed.

Lemma GetFilter_resident rep no_io fk w c k f :
  filter_type rep <> kFixedSizeFilter ->
  cache_index_and_filter_blocks (table_options rep) = true ->
  is_Some (filter_policy rep) ->
  block_cache (table_options rep) = Some c ->
  GetCacheKey (cache_key_prefix (base_reader_with_cache_prefix rep)) (filter_handle rep)
  = Some k ->
  table (cache_of c w) !! k = Some (CVFilter f) ->
  GetFilter rep no_io fk w
  = Some (CachableEntry.mk (Some f) (Some (mkCacheHandle k (CVFilter f))),
          mkWorld (block_cache_state w) (block_cache_compressed_state w) (file_reads w)
            (BLOCK_CACHE_FILTER_HIT :: ticks w) (deleted w) (opened w)
            (failed_inserts w)).
Proof.
  intros Hft Hflag [p Hp] Hbc Hk Hres. apply FilterType_eqb_neq in Hft.
  unfold GetFilter. rewrite Hft, Hflag, Hp, Hbc. cbn [andb negb].
  change (bool_decide (is_Some (Some p))) with true.
  change (bool_decide (is_Some (Some c))) with true. cbn [negb orb].
  unfold bind at 1. unfold ret at 1. cbv beta iota.
  unfold bind at 1. rewrite Hk. unfold lift. cbv beta iota.
  unfold GetEntryFromCache, Lookup, bind. rewrite Hres.
  unfold RecordTick, ret, as_filter. cbn [h_value]. reflexivity.
Qed.

(** X19: a filter handed back with a cache handle stays served from the
    cache.  For a filter that is not fixed-size, once GetFilter has returned
    an entry holding a block-cache handle, a GetFilter that follows, with or
    without no_io and whatever the key, returns the same entry, counts one
    BLOCK_CACHE_FILTER_HIT and does nothing else: the filter block is not
    read again. *)
Theorem GetFilter_served_from_cache rep no_io fk w e w' h :
  filter_type rep <> kFixedSizeFilter ->
  GetFilter rep no_io fk w = Some (e, w') ->
  cache_handle e = Some h ->
  forall no_io' fk',
    GetFilter rep no_io' fk' w'
    = Some (e, mkWorld (block_cache_state w') (block_cache_compressed_state w')
                 (file_reads w') (BLOCK_CACHE_FILTER_HIT :: ticks w') (deleted w')
                 (opened w') (failed_inserts w')).
Proof.
  intros Hft H Hh no_io' fk'.
  destruct (GetFilter_handle_resident rep no_io fk w e w' h Hft H Hh)
    as (c & k & f & Hflag & Hp & Hbc & Hk & Hres & ->).
  apply (GetFilter_resident rep no_io' fk' w' c k f Hft Hflag Hp Hbc Hk Hres).
Qed.

Lemma GetFilter_served_from_cache_witness :
  get_filter_full = Some (filter_entry_full, world_after get_filter_full)
  /\ cache_handle filter_entry_full = Some filter_handle_full
  /\ exists w',
      GetFilter rep_full true (Some (bytes "apple")) (world_after get_filter_full)
      = Some (filter_entry_full, w')
      /\ file_reads w' = file_reads (world_after get_filter_full).
Proof.
  assert (H : get_filter_full = Some (filter_entry_full, world_after get_filter_full))
    by (vm_compute; reflexivity).
  assert (Hh : cache_handle filter_entry_full = Some filter_handle_full)
    by (vm_compute; reflexivity).
  split; [exact H |]. split; [exact Hh |].
  eexists. split.
  - apply (GetFilter_served_from_cache rep_full false None world_full filter_entry_full
             (world_after get_filter_full) filter_handle_full).
    + vm_compute; intros E; discriminate E.
    + exact H.
    + exact Hh.
  - reflexivity.
Defined.

(** ** Blocks in the compressed block cache *)

(** X20: a block found in the compressed block cache only.  The entry found
    there is a compressed block; the hold taken on it is released on every
    path, exactly once; when the block uncompresses, the uncompressed block
    is handed back, and a cache handle handed back with it means it is now
    in the uncompressed cache under its key; when it does not, or when the
    uncompressed cache refuses it, no block is handed back. *)
Theorem GetDataBlockFromCache_compressed_hit k ck bc cc ro w s e w' v :
  match bc with
  | Some c => table (cache_of c w) !! k = None
  | None => True
  end ->
  table (cache_of cc w) !! ck = Some v ->
  GetDataBlockFromCache k ck bc (Some cc) ro w = Some ((s, e), w') ->
  exists b,
    v = CVBlock b
    /\ is_compressed (compression_type b) = true
    /\ released (cache_of cc w') = mkCacheHandle ck v :: released (cache_of cc w)
    /\ match value e with
       | Some u =>
           ok s = true /\ entries u = entries b /\ compression_type u = kNoCompression
           /\ match cache_handle e with
              | Some h =>
                  exists c, bc = Some c /\ h = mkCacheHandle k (CVBlock u)
                            /\ table (cache_of c w') !! k = Some (CVBlock u)
              | None => True
              end
       | None => ok s = false /\ cache_handle e = None
       end.
Proof.
  intros Hmiss Hhit H. unfold GetDataBlockFromCache in H.
  destruct cc; cbn [cache_of] in Hhit.
  all: run H.
  all: cbn [cache_of] in Hmiss.
  all: repeat match goal with
              | E : match table _ !! _ with _ => _ end = _ |- _ =>
                  first [rewrite Hmiss in E | rewrite Hhit in E]
              end; try discriminate.
  all: unfold UncompressBlockContents in *.
  all: repeat match goal with
              | E : (if ?c then _ else _) = (_, _) |- _ => destruct c eqn:?; inversion E; subst; clear E
              | E : Some _ = Some _ |- _ => inversion E; subst; clear E
              | E : (_, _) = (_, _) |- _ => inversion E; subst; clear E
              end.
  all: cbn [h_value h_key] in *; subst.
  all: try discriminate.
  all: eexists; split; [reflexivity|].
  all: split; [match goal with
               | E : negb ?c = false |- ?c = true => destruct c; [reflexivity | discriminate E]
               end|].
  all: cbn [value cache_handle cache_of block_cache_state block_cache_compressed_state
            released table ok entries compression_type].
  all: repeat split; try reflexivity.
  all: eexists; split; [reflexivity|split; [reflexivity|]].
  all: cbn [cache_of block_cache_state block_cache_compressed_state table].
  all: apply lookup_insert_eq || apply lookup_insert.
Qed.

Lemma GetDataBlockFromCache_compressed_hit_witness :
  exists e w',
    lookup_compressed = Some ((kOk, e), w')
    /\ released (cache_of BlockCacheCompressed w')
       = [mkCacheHandle [9] (CVBlock compressed_apple)]
    /\ exists u, value e = Some u /\ entries u = entries compressed_apple.
Proof.
  assert (H : lookup_compressed
              = Some (result_after (kIOError, CachableEntry.mk None None) lookup_compressed,
                      world_after lookup_compressed))
    by (vm_compute; reflexivity).
  exists (snd (result_after (kIOError, CachableEntry.mk None None) lookup_compressed)),
    (world_after lookup_compressed).
  split; [vm_compute; reflexivity |].
  destruct (GetDataBlockFromCache_compressed_hit [8] [9] (Some BlockCache)
              BlockCacheCompressed ReadOptions_kDefault world_compressed
              (fst (result_after (kIOError, CachableEntry.mk None None) lookup_compressed))
              (snd (result_after (kIOError, CachableEntry.mk None None) lookup_compressed))
              (world_after lookup_compressed) (CVBlock compressed_apple))
    as (b & Hb & _ & Hreleased & Hvalue).
  - vm_compute; reflexivity.
  - vm_compute; reflexivity.
  - vm_compute; reflexivity.
  - injection Hb as <-. split; [exact Hreleased |].
    exists (mkBlock (entries compressed_apple) kNoCompression true true).
    split; [vm_compute; reflexivity | reflexivity].
Defined.

(** ** A separate data file *)

Lemma NewId_file_reads c : preserves file_reads (NewId c).
Proof. intros w r w' H. injection H as _ <-. now destruct c. Qed.
Lemma NewId_table c c' : preserves (fun w => table (cache_of c w)) (NewId c').
Proof. intros w r w' H. injection H as _ <-. now destruct c, c'. Qed.
#[export] Hint Resolve NewId_file_reads NewId_table : frame.

(** X21: SetDataFileReader redirects the data blocks and nothing else.  It
    reads no file and changes no cache entry; the table it gives keeps the
    base file, the index, the filter and the footer, and every read a later
    NewDataBlockIterator issues goes to the new data file. *)
Theorem SetDataFileReader_redirects_data_blocks rep data_file w rep' w' :
  SetDataFileReader rep data_file w = Some (rep', w') ->
  reader (data_reader_with_cache_prefix rep') = data_file
  /\ base_reader_with_cache_prefix rep' = base_reader_with_cache_prefix rep
  /\ data_index_reader rep' = data_index_reader rep
  /\ filter rep' = filter rep
  /\ footer rep' = footer rep
  /\ file_reads w' = file_reads w
  /\ (forall c, table (cache_of c w') = table (cache_of c w))
  /\ forall ro index_value w1 it w2,
      NewDataBlockIterator rep' ro index_value w1 = Some (it, w2) ->
      file_reads w2 = file_reads w1
      \/ file_reads w2
         = (file_number data_file, snd (DecodeFrom index_value)) :: file_reads w1.
Proof.
  unfold SetDataFileReader. intros H. inv_bind H. inv_ret H.
  pose proof (SetupCacheKeyPrefix_reader _ _ _ _ _ Hstep) as Hr.
  assert (Hreads : preserves file_reads
                     (SetupCacheKeyPrefix (table_options rep) data_file)).
  { unfold SetupCacheKeyPrefix, GenerateCachePrefix. frame. }
  assert (Htable : forall c, preserves (fun w => table (cache_of c w))
                               (SetupCacheKeyPrefix (table_options rep) data_file)).
  { intros c. unfold SetupCacheKeyPrefix, GenerateCachePrefix. frame. }
  repeat (split; [first [exact Hr | reflexivity | exact (Hreads _ _ _ Hstep)
                             | intros c; exact (Htable c _ _ _ Hstep)] |]).
  intros ro index_value w1 it w2 Hn. rewrite <- Hr.
  change (reader a) with (reader (data_reader_with_cache_prefix (set_data_reader rep a))).
  clear Hstep Hr Hreads Htable H0.
  generalize dependent (set_data_reader rep a). intros rep' Hn.
  unfold NewDataBlockIterator, NewDataBlockIterator_build in Hn.
  trace_reads Hn.
  all: try (left; congruence).
  all: try (right; congruence).
Qed.

Lemma SetDataFileReader_redirects_data_blocks_witness :
  set_data_alphabet = Some (rep_split, world_uncached)
  /\ open_split = Some (iter_after open_split, world_after open_split)
  /\ base_reader_with_cache_prefix rep_split = base_reader_with_cache_prefix rep_uncached
  /\ file_reads (world_after open_split)
     = (file_number alphabet_file, mkHandle 100 10) :: file_reads world_uncached.
Proof.
  assert (H : set_data_alphabet = Some (rep_split, world_uncached))
    by (vm_compute; reflexivity).
  assert (Hopen : open_split = Some (iter_after open_split, world_after open_split))
    by (vm_compute; reflexivity).
  split; [exact H |]. split; [exact Hopen |].
  destruct (SetDataFileReader_redirects_data_blocks rep_uncached alphabet_file
              world_uncached rep_split world_uncached H)
    as (_ & Hbase & _ & _ & _ & _ & _ & Hreads).
  split; [exact Hbase |].
  destruct (Hreads ReadOptions_kDefault (EncodeTo (mkHandle 100 10)) world_uncached
              (iter_after open_split) (world_after open_split) Hopen) as [Hnone | Hone].
  - vm_compute in Hnone. discriminate Hnone.
  - exact Hone.
Defined.
